(** * Monte-Carlo PSF rasterisation: [forward_integral] and
      [assign_points_to_pixels] of [deeplens/monte_carlo.py]

    Shallow embedding of the two functions and the properties of the
    Splatter / Integrator pair.

    Number model.  Float tensors and Python floats are modelled by exact
    rationals ([Q]); rounding is outside the model, so equalities between
    computed values are stated with [==] ([Qeq]).  Integer index tensors
    ([.long()]) and [ks] are [Z].  Float arithmetic never raises: a division
    by zero on a tensor gives inf/nan.  Such a value has no lattice index
    (its conversion by [.long()] is not a position of the grid), so the model
    reports the first [index_put_] that would receive it as [IndexError].
    A division of one Python float by a zero Python int does raise
    ([ZeroDivisionError]).

    Tensors of shape [spp] are lists, tensors of shape [spp, N] are lists
    of rows.  The three fields [o], [d], [ra] of a ray object share their
    leading shape; a ray bundle is therefore a list of per-sample records. *)

From Stdlib Require Import ZArith QArith Qround Qabs List Bool Lia Lqa.
From Stdlib Require Import Permutation.
Import ListNotations.

Open Scope Q_scope.

(** ** Exceptions *)

Inductive exn : Type :=
| ZeroDivisionError
| IndexError
| RuntimeError
| TypeError.

Inductive result (A : Type) : Type :=
| Ok (a : A)
| Raise (e : exn).

Arguments Ok {A} a.
Arguments Raise {A} e.

Definition bind {A B : Type} (m : result A) (f : A -> result B) : result B :=
  match m with
  | Ok a => f a
  | Raise e => Raise e
  end.

Notation "x <- m ;; k" := (bind m (fun x => k))
  (at level 61, m at next level, right associativity).

(** ** Scalars, vectors, tensors *)

Definition vec2 : Type := (Q * Q)%type.
Definition vec3 : Type := (Q * Q * Q)%type.
Definition complex : Type := (Q * Q)%type.

Definition Qlt_bool (x y : Q) : bool := negb (Qle_bool y x).

Definition cadd (a b : complex) : complex := (fst a + fst b, snd a + snd b).
Definition cscale (r : Q) (z : complex) : complex := (r * fst z, r * snd z).
Definition czero : complex := (0, 0).

Fixpoint zipWith {A B C : Type} (f : A -> B -> C) (a : list A) (b : list B)
  : list C :=
  match a, b with
  | x :: a', y :: b' => f x y :: zipWith f a' b'
  | _, _ => []
  end.

Definition Qsum (l : list Q) : Q := fold_right Qplus 0 l.

(** Elementwise binary operation on two 1-D tensors with torch's
    broadcasting: equal lengths, or one side of length 1. *)
Definition broadcast2 {A B C : Type} (f : A -> B -> C) (a : list A) (b : list B)
  : result (list C) :=
  if (length a =? length b)%nat then Ok (zipWith f a b)
  else match a, b with
       | _, [y] => Ok (map (fun x => f x y) a)
       | [x], _ => Ok (map (fun y => f x y) b)
       | _, _ => Raise RuntimeError
       end.

(** The values of an [index_put_] are broadcast to the shape of the index
    tensors. *)
Definition expand_to {A : Type} (n : nat) (v : list A) : result (list A) :=
  if (length v =? n)%nat then Ok v
  else match v with
       | [x] => Ok (repeat x n)
       | _ => Raise RuntimeError
       end.

(** ** Grids and [index_put_(..., accumulate=True)] *)

Section Grid.
Context {A : Type}.
Variable add : A -> A -> A.
Variable zero : A.

Definition grid : Type := list (list A).

(** [torch.zeros(ks, ks)]: a negative dimension is refused. *)
Definition zeros (ks : Z) : result grid :=
  if (ks <? 0)%Z then Raise RuntimeError
  else Ok (repeat (repeat zero (Z.to_nat ks)) (Z.to_nat ks)).

Fixpoint upd {B : Type} (n : nat) (f : B -> B) (l : list B) : list B :=
  match l, n with
  | [], _ => []
  | x :: l', O => f x :: l'
  | x :: l', S n' => x :: upd n' f l'
  end.

(** An index [i] addresses a dimension of size [ks] when
    [-ks <= i < ks]; negative indices count from the end. *)
Definition wrap_index (ks i : Z) : option nat :=
  if ((0 <=? i) && (i <? ks))%Z then Some (Z.to_nat i)
  else if ((- ks <=? i) && (i <? 0))%Z then Some (Z.to_nat (i + ks))
  else None.

Definition add_at (g : grid) (r c : nat) (v : A) : grid :=
  upd r (upd c (fun x => add x v)) g.

Fixpoint accumulate (ks : Z) (g : grid) (iv : list ((Z * Z) * A))
  : result grid :=
  match iv with
  | [] => Ok g
  | ((i, j), v) :: iv' =>
      match wrap_index ks i, wrap_index ks j with
      | Some r, Some c => accumulate ks (add_at g r c v) iv'
      | _, _ => Raise IndexError
      end
  end.

Definition index_put_ (ks : Z) (g : grid) (indices : list (Z * Z))
           (values : list A) : result grid :=
  vs <- expand_to (length indices) values ;;
  accumulate ks g (combine indices vs).
End Grid.

Inductive Grid : Type :=
| RealGrid (g : list (list Q))
| ComplexGrid (g : list (list complex)).

(** ** The Splatter: [assign_points_to_pixels] *)

Definition floor_long (p : vec2) : Z * Z := (Qfloor (fst p), Qfloor (snd p)).

Definition normalize (x_range y_range : Q * Q) (p : vec2) : vec2 :=
  let '(x_min, x_max) := x_range in
  let '(y_min, y_max) := y_range in
  ((snd p - y_max) / (y_min - y_max), (fst p - x_min) / (x_max - x_min)).

Definition pixel_indices_float (ks : Z) (x_range y_range : Q * Q)
           (points : list vec2) : list vec2 :=
  map (fun p => (fst p * inject_Z (ks - 1), snd p * inject_Z (ks - 1)))
      (map (normalize x_range y_range) points).

(** The normalised coordinates are finite when there is no sample or when
    neither range is degenerate. *)
Definition finite_indices (x_range y_range : Q * Q) (points : list vec2)
  : bool :=
  match points with
  | [] => true
  | _ :: _ =>
      negb (Qeq_bool (fst y_range - snd y_range) 0)
      && negb (Qeq_bool (snd x_range - fst x_range) 0)
  end.

Definition check_finite (b : bool) : result unit :=
  if b then Ok tt else Raise IndexError.

Section Splatter.
(** [torch.exp(1j * phase)], a library function. *)
Variable exp_i : Q -> complex.

Definition assign_points_to_pixels
           (points : list vec2) (ks : Z) (x_range y_range : Q * Q)
           (ra : list Q) (interpolate coherent : bool)
           (phase : option (list Q)) (d : option (list vec3))
           (obliq : option (list Q)) (wvln : Q) : result Grid :=
  if (ks - 1 =? 0)%Z then Raise ZeroDivisionError
  else
    let pif := pixel_indices_float ks x_range y_range points in
    let fin := finite_indices x_range y_range points in
    if interpolate then
      let w_b := map (fun p => fst p - inject_Z (Qfloor (fst p))) pif in
      let w_r := map (fun p => snd p - inject_Z (Qfloor (snd p))) pif in
      let pixel_indices_tl := map floor_long pif in
      let pixel_indices_tr :=
        map (fun p => floor_long (fst p, snd p + 1)) pif in
      let pixel_indices_bl :=
        map (fun p => floor_long (fst p + 1, snd p)) pif in
      let pixel_indices_br :=
        map (fun ij => (fst ij + 1, snd ij + 1)%Z) pixel_indices_tl in
      let c_tl := zipWith (fun b r => (1 - b) * (1 - r)) w_b w_r in
      let c_tr := zipWith (fun b r => (1 - b) * r) w_b w_r in
      let c_bl := zipWith (fun b r => b * (1 - r)) w_b w_r in
      let c_br := zipWith (fun b r => b * r) w_b w_r in
      if coherent then
        g0 <- zeros czero ks ;;
        a1 <- broadcast2 Qmult c_tl ra ;;
        e <- match phase with
             | Some ph => Ok (map exp_i ph)
             | None => Raise TypeError
             end ;;
        v1 <- broadcast2 cscale a1 e ;;
        _ <- check_finite fin ;;
        g1 <- index_put_ cadd ks g0 pixel_indices_tl v1 ;;
        a2 <- broadcast2 Qmult c_tr ra ;;
        v2 <- broadcast2 cscale a2 e ;;
        g2 <- index_put_ cadd ks g1 pixel_indices_tr v2 ;;
        a3 <- broadcast2 Qmult c_bl ra ;;
        v3 <- broadcast2 cscale a3 e ;;
        g3 <- index_put_ cadd ks g2 pixel_indices_bl v3 ;;
        a4 <- broadcast2 Qmult c_br ra ;;
        v4 <- broadcast2 cscale a4 e ;;
        g4 <- index_put_ cadd ks g3 pixel_indices_br v4 ;;
        Ok (ComplexGrid g4)
      else
        g0 <- zeros 0 ks ;;
        v1 <- broadcast2 Qmult c_tl ra ;;
        _ <- check_finite fin ;;
        g1 <- index_put_ Qplus ks g0 pixel_indices_tl v1 ;;
        v2 <- broadcast2 Qmult c_tr ra ;;
        g2 <- index_put_ Qplus ks g1 pixel_indices_tr v2 ;;
        v3 <- broadcast2 Qmult c_bl ra ;;
        g3 <- index_put_ Qplus ks g2 pixel_indices_bl v3 ;;
        v4 <- broadcast2 Qmult c_br ra ;;
        g4 <- index_put_ Qplus ks g3 pixel_indices_br v4 ;;
        Ok (RealGrid g4)
    else
      let pixel_indices_tl := map floor_long pif in
      g0 <- zeros 0 ks ;;
      _ <- check_finite fin ;;
      g1 <- index_put_ Qplus ks g0 pixel_indices_tl ra ;;
      Ok (RealGrid g1).
End Splatter.

(** ** The Integrator: [forward_integral] *)

(** One traced sample of a ray object: [ray.o[s]], [ray.d[s]], [ray.ra[s]]. *)
Record ray_sample : Type := mkSample {
  ray_o : vec3;
  ray_d : vec3;
  ray_ra : Q
}.

(** [ray.o] has shape [spp, 3] (a single point) or [spp, N, 3]. *)
Inductive Ray : Type :=
| RayPoint (samples : list ray_sample)
| RayBatch (N : nat) (samples : list (list ray_sample)).

Inductive PSF : Type :=
| PsfGrid (g : Grid)
| PsfStack (l : list Grid).

Definition vadd (a b : vec2) : vec2 := (fst a + fst b, snd a + snd b).
Definition vsub (a b : vec2) : vec2 := (fst a - fst b, snd a - snd b).
Definition vscale (a : vec2) (r : Q) : vec2 := (fst a * r, snd a * r).
Definition vdiv (a : vec2) (r : Q) : vec2 := (fst a / r, snd a / r).
Definition vzero : vec2 := (0, 0).

(** [- ray.o[..., :2]] *)
Definition point_of (s : ray_sample) : vec2 :=
  let '(x, y, _) := ray_o s in (- x, - y).

(** [ray.d[..., 2]**2] *)
Definition obliq_of (s : ray_sample) : Q :=
  let '(_, _, z) := ray_d s in z * z.

Definition psf_range (ps : Q) (ks : Z) : Q * Q :=
  ((- inject_Z ks / 2 + (1#2)) * ps, (inject_Z ks / 2 - (1#2)) * ps).

Definition b2q (b : bool) : Q := if b then 1 else 0.

(** [ray.ra * (|x| < psf_range[1] - 0.01*ps) * (|y| < psf_range[1] - 0.01*ps)] *)
Definition mask_ra (ps : Q) (ks : Z) (r : Q) (s : vec2) : Q :=
  r * b2q (Qlt_bool (Qabs (fst s)) (snd (psf_range ps ks) - (1#100) * ps))
    * b2q (Qlt_bool (Qabs (snd s)) (snd (psf_range ps ks) - (1#100) * ps)).

(** [.sum(0)] of a tensor of shape [spp, N]. *)
Definition sum0 {A : Type} (add : A -> A -> A) (zero : A) (N : nat)
           (t : list (list A)) : list A :=
  fold_right (zipWith add) (repeat zero N) t.

(** [t[:, i]] for [i] below the second dimension. *)
Definition col {A : Type} (dflt : A) (i : nat) (t : list (list A)) : list A :=
  map (fun row => nth i row dflt) t.

Fixpoint mapM {A B : Type} (f : A -> result B) (l : list A)
  : result (list B) :=
  match l with
  | [] => Ok []
  | x :: l' => y <- f x ;; ys <- mapM f l' ;; Ok (y :: ys)
  end.

(** A call of the Splatter on samples whose coordinates are nan or inf
    cannot succeed. *)
Definition require_finite {A : Type} (fin : bool) (r : result A) : result A :=
  match r with
  | Ok a => if fin then Ok a else Raise IndexError
  | Raise e => Raise e
  end.

Definition is_nil {A : Type} (l : list A) : bool :=
  match l with [] => true | _ => false end.

Section Integrator.
Variable exp_i : Q -> complex.
(** [EPSILON] of [deeplens/basics.py]. *)
Variable EPSILON : Q.

(** *** Single point: lines 24-38 on tensors of shape [spp, ...] *)

Definition centroid_den (ra : list Q) : Q := Qsum ra + EPSILON.

(** [(points * ra.unsqueeze(-1)).sum(0) / ra.unsqueeze(-1).sum(0).add(EPSILON)] *)
Definition centroid (points : list vec2) (ra : list Q) : vec2 :=
  vdiv (fold_right vadd vzero (zipWith vscale points ra)) (centroid_den ra).

Definition shift_points (points : list vec2) (ra : list Q)
           (pointc_ref : option vec2) : list vec2 :=
  match pointc_ref with
  | None => map (fun p => vsub p (centroid points ra)) points
  | Some c => map (fun p => vsub p c) points
  end.

(** [points_shift] after line 34. *)
Definition points_shift1 (samples : list ray_sample)
           (pointc_ref : option vec2) : list vec2 :=
  shift_points (map point_of samples) (map ray_ra samples) pointc_ref.

(** [ra] of line 37. *)
Definition ra1 (ps : Q) (ks : Z) (samples : list ray_sample)
           (pointc_ref : option vec2) : list Q :=
  zipWith (mask_ra ps ks) (map ray_ra samples)
          (points_shift1 samples pointc_ref).

(** [points_shift] after line 38, as handed to the Splatter. *)
Definition points_masked1 (ps : Q) (ks : Z) (samples : list ray_sample)
           (pointc_ref : option vec2) : list vec2 :=
  zipWith vscale (points_shift1 samples pointc_ref)
          (ra1 ps ks samples pointc_ref).

Definition centre_finite (ra : list Q) (pointc_ref : option vec2) : bool :=
  match pointc_ref with
  | None => is_nil ra || negb (Qeq_bool (centroid_den ra) 0)
  | Some _ => true
  end.

(** *** Batch: the same lines on tensors of shape [spp, N, ...] *)

Definition centroids (N : nat) (points : list (list vec2))
           (ra : list (list Q)) : list vec2 :=
  zipWith vdiv
          (sum0 vadd vzero N (zipWith (zipWith vscale) points ra))
          (map (fun s => s + EPSILON) (sum0 Qplus 0 N ra)).

Definition shift_batch (N : nat) (points : list (list vec2))
           (ra : list (list Q)) (pointc_ref : option vec2)
  : list (list vec2) :=
  match pointc_ref with
  | None => map (fun row => zipWith vsub row (centroids N points ra)) points
  | Some c => map (map (fun p => vsub p c)) points
  end.

Definition points_shiftN (N : nat) (samples : list (list ray_sample))
           (pointc_ref : option vec2) : list (list vec2) :=
  shift_batch N (map (map point_of) samples) (map (map ray_ra) samples)
              pointc_ref.

Definition raN (ps : Q) (ks : Z) (N : nat)
           (samples : list (list ray_sample)) (pointc_ref : option vec2)
  : list (list Q) :=
  zipWith (zipWith (mask_ra ps ks)) (map (map ray_ra) samples)
          (points_shiftN N samples pointc_ref).

Definition points_maskedN (ps : Q) (ks : Z) (N : nat)
           (samples : list (list ray_sample)) (pointc_ref : option vec2)
  : list (list vec2) :=
  zipWith (zipWith vscale) (points_shiftN N samples pointc_ref)
          (raN ps ks N samples pointc_ref).

Definition batch_finite (N i : nat) (ra : list (list Q))
           (pointc_ref : option vec2) : bool :=
  match pointc_ref with
  | None =>
      is_nil ra
      || negb (Qeq_bool (nth i (sum0 Qplus 0 N ra) 0 + EPSILON) 0)
  | Some _ => true
  end.

(** The [interpolate] argument is not passed on: both calls of the
    Splatter leave it at its default, [True]. *)
Definition forward_integral (ray : Ray) (ps : Q) (ks : Z)
           (pointc_ref : option vec2) (interpolate : bool) : result PSF :=
  let range := psf_range ps ks in
  match ray with
  | RayPoint samples =>
      let ra := ra1 ps ks samples pointc_ref in
      let points_shift := points_masked1 ps ks samples pointc_ref in
      let obliq := map obliq_of samples in
      psf <- require_finite
               (centre_finite (map ray_ra samples) pointc_ref)
               (assign_points_to_pixels exp_i points_shift ks range range
                  ra true false None None (Some obliq) (589#1000)) ;;
      Ok (PsfGrid psf)
  | RayBatch N samples =>
      let ra := raN ps ks N samples pointc_ref in
      let points_shift := points_maskedN ps ks N samples pointc_ref in
      psf <- mapM (fun i =>
               let points_shift0 := col vzero i points_shift in
               let ra0 := col 0 i ra in
               let obliq := col 0 i (map (map obliq_of) samples) in
               require_finite
                 (batch_finite N i (map (map ray_ra) samples) pointc_ref)
                 (assign_points_to_pixels exp_i points_shift0 ks range
                    range ra0 true false None None (Some obliq)
                    (589#1000)))
             (seq 0 N) ;;
      match psf with
      | [] => Raise RuntimeError
      | _ :: _ => Ok (PsfStack psf)
      end
  end.
End Integrator.

(** The [points] and [ra] arguments of the calls of the Splatter made by
    [forward_integral], in call order: one call for a single point, one per
    point index for a batch. *)
Definition splatter_points (EPSILON : Q) (ray : Ray) (ps : Q) (ks : Z)
           (pointc_ref : option vec2) : list (list vec2) :=
  match ray with
  | RayPoint samples => [points_masked1 EPSILON ps ks samples pointc_ref]
  | RayBatch N samples =>
      map (fun i =>
             col vzero i (points_maskedN EPSILON ps ks N samples pointc_ref))
          (seq 0 N)
  end.

Definition splatter_weights (EPSILON : Q) (ray : Ray) (ps : Q) (ks : Z)
           (pointc_ref : option vec2) : list (list Q) :=
  match ray with
  | RayPoint samples => [ra1 EPSILON ps ks samples pointc_ref]
  | RayBatch N samples =>
      map (fun i => col 0 i (raN EPSILON ps ks N samples pointc_ref))
          (seq 0 N)
  end.

(** The data-model invariant of a ray bundle: every weight lies in [0, 1]. *)
Definition unit_weight (s : ray_sample) : Prop := 0 <= ray_ra s <= 1.

Definition weights_in_unit (ray : Ray) : Prop :=
  match ray with
  | RayPoint samples => Forall unit_weight samples
  | RayBatch _ samples => Forall (Forall unit_weight) samples
  end.

(** [window_half_width] of the spec, and the masking threshold. *)
Definition window_half_width (ps : Q) (ks : Z) : Q := snd (psf_range ps ks).

Definition mask_threshold (ps : Q) (ks : Z) : Q :=
  window_half_width ps ks - (1#100) * ps.

(** ** Observations on grids *)

Definition entry (g : list (list Q)) (r c : nat) : Q := nth c (nth r g []) 0.

Definition grid_sum (g : list (list Q)) : Q := Qsum (map Qsum g).

Definition grid_shape {A : Type} (ks : Z) (g : list (list A)) : Prop :=
  length g = Z.to_nat ks /\ Forall (fun row => length row = Z.to_nat ks) g.

Definition grid_all (P : Q -> Prop) (g : list (list Q)) : Prop :=
  Forall (Forall P) g.

(** The lattice indices computed from one fractional index pair: the floor
    and, in interpolated mode, the floor plus one, on each axis. *)
Definition in_grid (ks : Z) (interpolate : bool) (p : vec2) : Prop :=
  (0 <= fst (floor_long p)
   /\ fst (floor_long p) + (if interpolate then 1 else 0) <= ks - 1
   /\ 0 <= snd (floor_long p)
   /\ snd (floor_long p) + (if interpolate then 1 else 0) <= ks - 1)%Z.

(** ** Instances used to evaluate the model *)

(** A value for [EPSILON]. *)
Definition EPS12 : Q := 1 # 1000000000000.

(** An instance of the library function for runs of the incoherent mode,
    which never calls it. *)
Definition exp_i_unit (phi : Q) : complex := (1, 0).

Definition sample_at (x y w : Q) : ray_sample :=
  mkSample (x, y, 0) (0, 0, 1) w.

(** ** Vocabulary of the properties *)

Definition rows_of_length {A : Type} (N : nat) (t : list (list A)) : Prop :=
  Forall (fun row => length row = N) t.

Definition dflt_sample : ray_sample := mkSample (0, 0, 0) (0, 0, 0) 0.

(** The bilinear weights and the four corners of one fractional index. *)
Definition w_b (p : vec2) : Q := fst p - inject_Z (Qfloor (fst p)).
Definition w_r (p : vec2) : Q := snd p - inject_Z (Qfloor (snd p)).
Definition share_tl (p : vec2) : Q := (1 - w_b p) * (1 - w_r p).
Definition share_tr (p : vec2) : Q := (1 - w_b p) * w_r p.
Definition share_bl (p : vec2) : Q := w_b p * (1 - w_r p).
Definition share_br (p : vec2) : Q := w_b p * w_r p.
Definition corner_tr (p : vec2) : Z * Z := floor_long (fst p, snd p + 1).
Definition corner_bl (p : vec2) : Z * Z := floor_long (fst p + 1, snd p).
Definition corner_br (p : vec2) : Z * Z :=
  (fst (floor_long p) + 1, snd (floor_long p) + 1)%Z.

(** One [index_put_] of the incoherent branch when [ra] has one weight per
    sample. *)
Definition put (ks : Z) (g : list (list Q)) (corner : vec2 -> Z * Z)
           (share : vec2 -> Q) (pif : list vec2) (ra : list Q)
  : result (list (list Q)) :=
  accumulate Qplus ks g
             (combine (map corner pif) (zipWith Qmult (map share pif) ra)).

Definition in_range (ks : Z) (ij : Z * Z) : Prop :=
  (0 <= fst ij <= ks - 1 /\ 0 <= snd ij <= ks - 1)%Z.

(** A shifted coordinate is inside the window when it is zero or, for a
    positive pixel size, strictly below the masking threshold. *)
Definition windowed (ps : Q) (ks : Z) (x : Q) : Prop :=
  x == 0 \/ (0 < ps /\ Qabs x < mask_threshold ps ks).

Definition windowed2 (ps : Q) (ks : Z) (p : vec2) : Prop :=
  windowed ps ks (fst p) /\ windowed ps ks (snd p).

(** The call made for a single point (lines 41-43). *)
Definition point_call (exp_i : Q -> complex) (EPSILON : Q)
           (samples : list ray_sample) (ps : Q) (ks : Z)
           (pointc_ref : option vec2) : result Grid :=
  require_finite
    (centre_finite EPSILON (map ray_ra samples) pointc_ref)
    (assign_points_to_pixels exp_i
       (points_masked1 EPSILON ps ks samples pointc_ref) ks
       (psf_range ps ks) (psf_range ps ks)
       (ra1 EPSILON ps ks samples pointc_ref) true false None None
       (Some (map obliq_of samples)) (589#1000)).

(** The call made for point [i] of a batch (lines 47-52). *)
Definition batch_call (exp_i : Q -> complex) (EPSILON : Q) (N : nat)
           (samples : list (list ray_sample)) (ps : Q) (ks : Z)
           (pointc_ref : option vec2) (i : nat) : result Grid :=
  require_finite
    (batch_finite EPSILON N i (map (map ray_ra) samples) pointc_ref)
    (assign_points_to_pixels exp_i
       (col vzero i (points_maskedN EPSILON ps ks N samples pointc_ref)) ks
       (psf_range ps ks) (psf_range ps ks)
       (col 0 i (raN EPSILON ps ks N samples pointc_ref)) true false None None
       (Some (col 0 i (map (map obliq_of) samples))) (589#1000)).

Definition grid_eq (g g' : list (list Q)) : Prop :=
  Forall2 (Forall2 Qeq) g g'.

(** Number of points of a bundle, the samples of point [i], and the shape
    invariant of a batch tensor. *)
Definition point_count (ray : Ray) : nat :=
  match ray with
  | RayPoint _ => 1
  | RayBatch N _ => N
  end.

Definition point_samples (ray : Ray) (i : nat) : list ray_sample :=
  match ray with
  | RayPoint samples => samples
  | RayBatch _ samples => col dflt_sample i samples
  end.

Definition ray_shape (ray : Ray) : Prop :=
  match ray with
  | RayPoint _ => True
  | RayBatch N samples => rows_of_length N samples
  end.

(** The shifted points before masking (after line 34), per call. *)
Definition splatter_shifts (EPSILON : Q) (ray : Ray)
           (pointc_ref : option vec2) : list (list vec2) :=
  match ray with
  | RayPoint samples => [points_shift1 EPSILON samples pointc_ref]
  | RayBatch N samples =>
      map (fun i => col vzero i (points_shiftN EPSILON N samples pointc_ref))
          (seq 0 N)
  end.


(** The grid of point [i] in a result of [forward_integral]: the grid
    itself for a single point, entry [i] of the stack for a batch. *)
Definition psf_grid (psf : PSF) (i : nat) : Grid :=
  match psf with
  | PsfGrid g => g
  | PsfStack l => nth i l (RealGrid [])
  end.

(** A tensor without its entry [k]. *)
Definition without {A : Type} (k : nat) (l : list A) : list A :=
  firstn k l ++ skipn (S k) l.

(** The Splatter as [forward_integral] calls it (lines 43 and 52): on the
    window [psf_range], interpolated and incoherent. *)
Definition splat_window (exp_i : Q -> complex) (ps : Q) (ks : Z)
           (points : list vec2) (ra : list Q) : result Grid :=
  assign_points_to_pixels exp_i points ks (psf_range ps ks) (psf_range ps ks)
                          ra true false None None None (589#1000).

(** ** Vocabulary of the further properties *)

(** Whether an index pair addresses cell (r, c) of a [ks] by [ks] grid,
    negative indices counting from the end. *)
Definition cell_is (ks : Z) (r c : nat) (ij : Z * Z) : bool :=
  match wrap_index ks (fst ij), wrap_index ks (snd ij) with
  | Some r', Some c' => (r' =? r)%nat && (c' =? c)%nat
  | _, _ => false
  end.

(** The sum of the values whose index pair addresses cell (r, c). *)
Fixpoint hits (ks : Z) (r c : nat) (indices : list (Z * Z))
         (values : list Q) : Q :=
  match indices, values with
  | ij :: indices', v :: values' =>
      (if cell_is ks r c ij then v else 0) + hits ks r c indices' values'
  | _, _ => 0
  end.

(** The lattice indices of a sample that [index_put_] accepts: the floor
    and, in interpolated mode, the floor plus one, within [-ks, ks-1]. *)
Definition accepted (ks : Z) (interpolate : bool) (p : vec2) : Prop :=
  (- ks <= fst (floor_long p)
   /\ fst (floor_long p) + (if interpolate then 1 else 0) <= ks - 1
   /\ - ks <= snd (floor_long p)
   /\ snd (floor_long p) + (if interpolate then 1 else 0) <= ks - 1)%Z.

Definition accepted_index (ks : Z) (ij : Z * Z) : Prop :=
  (- ks <= fst ij <= ks - 1 /\ - ks <= snd ij <= ks - 1)%Z.

Definition centry (g : list (list complex)) (r c : nat) : complex :=
  nth c (nth r g []) czero.

(** What the incoherent Splatter adds to cell (r, c): in nearest-cell mode
    the weights of the samples whose floor index is the cell, in
    interpolated mode the four bilinear shares addressed to it. *)
Definition cell_value (ks : Z) (interpolate : bool) (pif : list vec2)
           (ra : list Q) (r c : nat) : Q :=
  if interpolate then
    hits ks r c (map floor_long pif) (zipWith Qmult (map share_tl pif) ra)
    + hits ks r c (map corner_tr pif) (zipWith Qmult (map share_tr pif) ra)
    + hits ks r c (map corner_bl pif) (zipWith Qmult (map share_bl pif) ra)
    + hits ks r c (map corner_br pif) (zipWith Qmult (map share_br pif) ra)
  else hits ks r c (map floor_long pif) ra.

(** One [index_put_] of the coherent branch when [ra] and [phase] have one
    entry per sample; [e] is [torch.exp(1j*phase)]. *)
Definition cput (ks : Z) (g : list (list complex)) (corner : vec2 -> Z * Z)
           (share : vec2 -> Q) (pif : list vec2) (ra : list Q)
           (e : list complex) : result (list (list complex)) :=
  accumulate cadd ks g
             (combine (map corner pif)
                      (zipWith cscale (zipWith Qmult (map share pif) ra) e)).

(** Line 80 of the Splatter: [ps = (x_max - x_min) / (ks - 1)]. *)
Definition splatter_ps (ks : Z) (x_range : Q * Q) : result Q :=
  if (ks - 1 =? 0)%Z then Raise ZeroDivisionError
  else Ok ((snd x_range - fst x_range) / inject_Z (ks - 1)).

(** A traced sample whose extracted image point is moved by [t]. *)
Definition move_sample (t : vec2) (s : ray_sample) : ray_sample :=
  let '(x, y, z) := ray_o s in
  mkSample (x - fst t, y - snd t, z) (ray_d s) (ray_ra s).

(** ** [psfnet_arch.py]: the position grid of [ModulateSiren] and [MLP] *)

(** [torch.linspace(start, end, steps)]: [steps] points from [start] to
    [end], one step being [(end - start) / (steps - 1)]. *)
Definition linspace (start stop : Q) (steps : nat) : list Q :=
  match steps with
  | O => []
  | S O => [start]
  | S (S _) =>
      map (fun k => start + inject_Z (Z.of_nat k)
                            * ((stop - start) / inject_Z (Z.of_nat steps - 1)))
          (seq 0 steps)
  end.

(** Lines 225-227: [meshgrid] with [indexing='ij'] of the two [linspace]
    tensors, stacked on a last axis and flattened by
    ['h w c -> (h w) c']. *)
Definition position_grid (image_height image_width : nat) : list vec2 :=
  concat (map (fun y => map (fun x => (y, x)) (linspace (-1) 1 image_width))
              (linspace (-1) 1 image_height)).

(** [nn.Linear(in_features, out_features, bias=True)] with its
    parameters. *)
Record Linear : Type := mkLinear {
  in_features : nat;
  out_features : nat;
  weight : list (list Q);
  bias : list Q
}.

(** The parameter shapes of a [Linear]: [weight] is [out_features] by
    [in_features], [bias] has [out_features] entries. *)
Definition linear_shape (i o : nat) (l : Linear) : Prop :=
  in_features l = i /\ out_features l = o
  /\ length (weight l) = o
  /\ Forall (fun row => length row = i) (weight l)
  /\ length (bias l) = o.

Definition dot (row x : list Q) : Q := Qsum (zipWith Qmult x row).

(** A [Linear] applied to a 1-D input: [x W^T + b]; an input of another
    length than [in_features] is refused. *)
Definition linear (l : Linear) (x : list Q) : result (list Q) :=
  if (length x =? in_features l)%nat
  then Ok (zipWith (fun row b => dot row x + b) (weight l) (bias l))
  else Raise RuntimeError.

Definition relu (x : list Q) : list Q :=
  map (fun v => if Qle_bool 0 v then v else 0) x.

(** [nnF.normalize(x, p=1, dim=-1)], with its default [eps=1e-12]:
    [x / max(sum |x|, eps)]. *)
Definition normalize_eps : Q := 1 # 1000000000000.

Definition normalize_l1 (x : list Q) : list Q :=
  let n := Qsum (map Qabs x) in
  let den := if Qle_bool normalize_eps n then n else normalize_eps in
  map (fun v => v / den) x.

(** The layers of [MLP.net] (lines 30-40): two widening [Linear], the
    hidden [Linear]s, the output [Linear]. *)
Record MLP : Type := mkMLP {
  layer_in : Linear;
  layer_up : Linear;
  layers_hidden : list Linear;
  layer_out : Linear
}.

(** The shapes [MLP.__init__] gives the layers. *)
Definition mlp_shape (in_f out_f hidden_features hidden_layers : nat)
           (m : MLP) : Prop :=
  linear_shape in_f (hidden_features / 4) (layer_in m)
  /\ linear_shape (hidden_features / 4) hidden_features (layer_up m)
  /\ length (layers_hidden m) = hidden_layers
  /\ Forall (linear_shape hidden_features hidden_features) (layers_hidden m)
  /\ linear_shape hidden_features out_f (layer_out m).

(** The hidden part of the [nn.Sequential]: each [Linear] is followed by a
    [ReLU]. *)
Fixpoint hidden_blocks (ls : list Linear) (x : list Q) : result (list Q) :=
  match ls with
  | [] => Ok x
  | l :: ls' => y <- linear l x ;; hidden_blocks ls' (relu y)
  end.

Section MLPForward.
(** [nn.Sigmoid], a library function. *)
Variable sigmoid : Q -> Q.

Definition mlp_net (m : MLP) (x : list Q) : result (list Q) :=
  x1 <- linear (layer_in m) x ;;
  x2 <- linear (layer_up m) (relu x1) ;;
  x3 <- hidden_blocks (layers_hidden m) (relu x2) ;;
  x4 <- linear (layer_out m) x3 ;;
  Ok (map sigmoid x4).

(** [MLP.forward] (lines 44-47). *)
Definition mlp_forward (m : MLP) (x : list Q) : result (list Q) :=
  y <- mlp_net m x ;;
  Ok (normalize_l1 y).
End MLPForward.

(** A piecewise-linear function with the range of the sigmoid, to evaluate
    the network. *)
Definition hard_sigmoid (v : Q) : Q :=
  if Qle_bool v (-2) then 0
  else if Qle_bool 2 v then 1 else v * (1#4) + (1#2).

(** Two small networks: [MLP(2, 2, hidden_features=4, hidden_layers=1)] and
    [MLP(2, 2, hidden_features=3, hidden_layers=0)]. *)
Definition small_mlp : MLP :=
  mkMLP (mkLinear 2 1 [[1; -1]] [0])
        (mkLinear 1 4 [[1]; [2]; [-1]; [0]] [0; 0; 1; 0])
        [mkLinear 4 4 [[1; 0; 0; 0]; [0; 1; 0; 0]; [0; 0; 1; 0]; [0; 0; 0; 1]]
                  [0; 0; 0; 0]]
        (mkLinear 4 2 [[1; 0; -1; 0]; [0; 1; 0; 0]] [0; -1]).

Definition narrow_mlp : MLP :=
  mkMLP (mkLinear 2 0 [] [])
        (mkLinear 0 3 [[]; []; []] [1; 0; -1])
        []
        (mkLinear 3 2 [[1; 1; 1]; [1; 0; 0]] [0; 0]).

(** ** Tensor shapes of [MLPConv] and [ModulateSiren]

    The convolutional decoder and the sine layers are followed on the shapes
    of their tensors: which inputs [forward] accepts and the shape it
    returns.  A shape is the list of the sizes, outermost first. *)

Section Shapes.
Local Open Scope Z_scope.

Definition shape : Type := list Z.

Definition numel (s : shape) : Z := fold_right Z.mul 1 s.

(** [nn.Linear(i, o)] on a tensor of shape [s]: the last size must be [i]
    and becomes [o]; a 0-D tensor is refused.  [SineLayer] (a [Linear]
    followed by [sin]) and [nn.Sequential(Linear, ReLU)] have the same
    effect on shapes. *)
Definition Linear_fwd (i o : Z) (s : shape) : result shape :=
  match rev s with
  | [] => Raise RuntimeError
  | d :: lead =>
      if d =? i then Ok (rev lead ++ [o]) else Raise RuntimeError
  end.

(** [t.view(-1, c, h, w)] of a contiguous tensor of shape [s]: a second
    negative size is refused, and so are a product [c * h * w] of zero and
    one that does not divide the number of elements. *)
Definition view_batch (s : shape) (c h w : Z) : result (Z * Z * Z * Z) :=
  if ((c <? 0) || (h <? 0) || (w <? 0))%bool then Raise RuntimeError
  else if c * h * w =? 0 then Raise RuntimeError
  else if numel s mod (c * h * w) =? 0
       then Ok (numel s / (c * h * w), c, h, w)
       else Raise RuntimeError.

(** Output size of a transposed convolution along one axis (dilation 1, no
    output padding). *)
Definition conv_transpose_size (size kernel_size stride padding : Z) : Z :=
  (size - 1) * stride - 2 * padding + (kernel_size - 1) + 1.

Definition ConvTranspose2d (in_channels out_channels kernel_size stride
                            padding : Z) (s : Z * Z * Z * Z)
  : result (Z * Z * Z * Z) :=
  let '(n, c, h, w) := s in
  if c =? in_channels
  then Ok (n, out_channels,
           conv_transpose_size h kernel_size stride padding,
           conv_transpose_size w kernel_size stride padding)
  else Raise RuntimeError.

Definition Upsample (scale_factor : Z) (s : Z * Z * Z * Z)
  : Z * Z * Z * Z :=
  let '(n, c, h, w) := s in (n, c, h * scale_factor, w * scale_factor).

(** [MLPConv] after [__init__]; [in_features] and [channels] are sizes,
    [ks] is any integer. *)
Record MLPConv : Type := mkMLPConv {
  mc_in_features : nat;
  ks_mlp : Z;
  mc_ks : Z;
  mc_channels : nat
}.

Definition linear_output (m : MLPConv) : Z :=
  Z.of_nat (mc_channels m) * ks_mlp m ^ 2.

(** [MLPConv.__init__] (lines 53-91) for [activation] 'relu' or 'sigmoid';
    [None] is the failed [assert ks % 4 == 0]. *)
Definition MLPConv_init (in_features : nat) (ks : Z) (channels : nat)
  : option MLPConv :=
  if ks mod 4 =? 0 then Some (mkMLPConv in_features (ks / 4) ks channels)
  else None.

Definition MLPConv_encoder (m : MLPConv) (x : shape) : result shape :=
  e1 <- Linear_fwd (Z.of_nat (mc_in_features m)) 256 x ;;
  e2 <- Linear_fwd 256 256 e1 ;;
  e3 <- Linear_fwd 256 512 e2 ;;
  Linear_fwd 512 (linear_output m) e3.

Definition MLPConv_decoder (m : MLPConv) (s : Z * Z * Z * Z)
  : result (Z * Z * Z * Z) :=
  let channels := Z.of_nat (mc_channels m) in
  s1 <- ConvTranspose2d channels 64 3 1 1 s ;;
  s2 <- ConvTranspose2d 64 64 3 1 1 s1 ;;
  s3 <- ConvTranspose2d 64 64 3 1 1 (Upsample 2 s2) ;;
  s4 <- ConvTranspose2d 64 64 3 1 1 s3 ;;
  ConvTranspose2d 64 channels 3 1 1 (Upsample 2 s4).

(** [MLPConv.forward] (lines 93-104); the activation keeps the shape. *)
Definition MLPConv_forward (m : MLPConv) (x : shape) : result shape :=
  encoded <- MLPConv_encoder m x ;;
  decoded_input <- view_batch encoded (Z.of_nat (mc_channels m))
                              (ks_mlp m) (ks_mlp m) ;;
  decoded <- MLPConv_decoder m decoded_input ;;
  let '(n, c, h, w) := decoded in Ok [n; c; h; w].

(** Broadcasting of two shapes, aligned at the last size. *)
Fixpoint broadcast_rev (a b : list Z) : result (list Z) :=
  match a, b with
  | [], _ => Ok b
  | _, [] => Ok a
  | x :: a', y :: b' =>
      r <- broadcast_rev a' b' ;;
      if x =? y then Ok (x :: r)
      else if x =? 1 then Ok (y :: r)
      else if y =? 1 then Ok (x :: r)
      else Raise RuntimeError
  end.

Definition broadcast_shapes (a b : shape) : result shape :=
  r <- broadcast_rev (rev a) (rev b) ;; Ok (rev r).

(** [torch.cat((a, b), dim=-1)]: equal sizes except the last; a 1-D empty
    tensor is skipped. *)
Definition cat_last (a b : shape) : result shape :=
  match rev a, rev b with
  | [], _ | _, [] => Raise RuntimeError
  | da :: la, db :: lb =>
      if list_eq_dec Z.eq_dec a [0] then Ok b
      else if list_eq_dec Z.eq_dec b [0] then Ok a
      else if list_eq_dec Z.eq_dec la lb then Ok (rev la ++ [da + db])
      else Raise RuntimeError
  end.

(** [ModulateSiren] after [__init__] with [outermost_linear=True]. *)
Record ModulateSiren : Type := mkModulateSiren {
  dim_in : Z;
  dim_hidden : Z;
  dim_out : Z;
  dim_latent : Z;
  num_layers : nat;
  image_width : nat;
  image_height : nat
}.

(** Shape of the buffer [grid]: one row of two coordinates per position. *)
Definition grid_buffer_shape (m : ModulateSiren) : shape :=
  [Z.of_nat (length (position_grid (image_height m) (image_width m))); 2].

(** The loop of [ModulateSiren.forward] (lines 235-242), [n] layers to go;
    [first] is [i == 0]. *)
Fixpoint modulated_layers (m : ModulateSiren) (latent : shape)
         (first : bool) (n : nat) (x z : shape) : result shape :=
  match n with
  | O => Ok x
  | S n' =>
      mod_in <- (if first then Ok latent else cat_last latent z) ;;
      z' <- Linear_fwd (if first then dim_latent m
                        else dim_hidden m + dim_latent m)
                       (dim_hidden m) mod_in ;;
      x1 <- Linear_fwd (if first then dim_in m else dim_hidden m)
                       (dim_hidden m) x ;;
      x2 <- broadcast_shapes x1 z' ;;
      modulated_layers m latent false n' x2 z'
  end.

(** [ModulateSiren.forward] (lines 231-248): the layers, the last
    [Linear], [tanh], [view(-1, H, W, 1)] and [permute(0, 3, 1, 2)]. *)
Definition ModulateSiren_forward (m : ModulateSiren) (latent : shape)
  : result shape :=
  x <- modulated_layers m latent true (num_layers m)
                        (grid_buffer_shape m) [] ;;
  x' <- Linear_fwd (dim_hidden m) (dim_out m) x ;;
  v <- view_batch x' (Z.of_nat (image_height m)) (Z.of_nat (image_width m))
                  1 ;;
  let '(n, h, w, c) := v in Ok [n; c; h; w].

End Shapes.

(** * Properties *)

(** ** Lists and tensors *)

Section ListFacts.
Context {A B C : Type}.

Lemma zipWith_length (f : A -> B -> C) (a : list A) (b : list B) :
  length a = length b -> length (zipWith f a b) = length a.
Proof.
  revert b; induction a as [|x a IH]; intros [|y b] H; simpl in *;
    try discriminate; auto.
Qed.

Lemma nth_zipWith (f : A -> B -> C) a b i da db dc :
  (i < length a)%nat -> (i < length b)%nat ->
  nth i (zipWith f a b) dc = f (nth i a da) (nth i b db).
Proof.
  revert b i; induction a as [|x a IH]; intros [|y b] [|i] Ha Hb;
    simpl in *; try lia; auto.
  apply IH; lia.
Qed.

Lemma Forall_zipWith (P : C -> Prop) (f : A -> B -> C) a b :
  (forall x y, In x a -> In y b -> P (f x y)) -> Forall P (zipWith f a b).
Proof.
  revert b; induction a as [|x a IH]; intros [|y b] H; simpl; auto.
  constructor.
  - apply H; simpl; auto.
  - apply IH. intros; apply H; simpl; auto.
Qed.

Lemma map_snd_combine (a : list A) (b : list B) :
  length a = length b -> map snd (combine a b) = b.
Proof.
  revert b; induction a as [|x a IH]; intros [|y b] H; simpl in *;
    try discriminate; auto.
  f_equal; auto.
Qed.

Lemma map_fst_combine (a : list A) (b : list B) :
  length a = length b -> map fst (combine a b) = a.
Proof.
  revert b; induction a as [|x a IH]; intros [|y b] H; simpl in *;
    try discriminate; auto.
  f_equal; auto.
Qed.
End ListFacts.

Lemma broadcast2_same_length {A B C : Type} (f : A -> B -> C) a b :
  length a = length b -> broadcast2 f a b = Ok (zipWith f a b).
Proof.
  intros H. unfold broadcast2. now rewrite H, Nat.eqb_refl.
Qed.

Lemma expand_to_same_length {A : Type} (v : list A) :
  expand_to (length v) v = Ok v.
Proof. unfold expand_to. now rewrite Nat.eqb_refl. Qed.

(** ** Rational arithmetic *)

Lemma Qlt_bool_iff (x y : Q) : Qlt_bool x y = true <-> x < y.
Proof.
  unfold Qlt_bool. rewrite negb_true_iff, <- not_true_iff_false, Qle_bool_iff.
  split; [apply Qnot_le_lt | apply Qlt_not_le].
Qed.

Lemma Qeq_bool_false_iff (x y : Q) : Qeq_bool x y = false <-> ~ x == y.
Proof.
  rewrite <- not_true_iff_false, Qeq_bool_iff. tauto.
Qed.

Lemma inject_Z_pred (k : Z) : inject_Z (k - 1) == inject_Z k - 1.
Proof.
  unfold Z.sub. rewrite inject_Z_plus. reflexivity.
Qed.

Lemma Qfloor_bounds (x : Q) (n : Z) :
  inject_Z n <= x -> x < inject_Z n + 1 -> Qfloor x = n.
Proof.
  intros Hl Hu.
  assert (H1 : (n <= Qfloor x)%Z).
  { rewrite <- (Qfloor_Z n). now apply Qfloor_resp_le. }
  assert (H2 : (Qfloor x < n + 1)%Z).
  { rewrite Zlt_Qlt, inject_Z_plus. change (inject_Z 1) with 1.
    eapply Qle_lt_trans; [apply Qfloor_le | exact Hu]. }
  lia.
Qed.

Lemma frac_bounds (x : Q) :
  0 <= x - inject_Z (Qfloor x) /\ x - inject_Z (Qfloor x) < 1.
Proof.
  pose proof (Qfloor_le x) as Hl. pose proof (Qlt_floor x) as Hu.
  rewrite inject_Z_plus in Hu. change (inject_Z 1) with 1 in Hu. lra.
Qed.

Lemma Qfloor_succ (x : Q) : Qfloor (x + 1) = (Qfloor x + 1)%Z.
Proof.
  pose proof (frac_bounds x).
  apply Qfloor_bounds; rewrite inject_Z_plus; change (inject_Z 1) with 1; lra.
Qed.

Lemma floor_in_range (x : Q) (k : Z) :
  0 <= x -> x < inject_Z k -> (0 <= Qfloor x /\ Qfloor x + 1 <= k)%Z.
Proof.
  intros H0 Hk. split.
  - rewrite <- (Qfloor_Z 0). now apply Qfloor_resp_le.
  - assert (Qfloor x < k)%Z; [|lia].
    rewrite Zlt_Qlt. eapply Qle_lt_trans; [apply Qfloor_le | exact Hk].
Qed.

(** ** Grids under accumulation *)

Lemma upd_length {B : Type} (n : nat) (f : B -> B) (l : list B) :
  length (upd n f l) = length l.
Proof.
  revert n; induction l as [|x l IH]; intros [|n]; simpl; auto.
Qed.

Lemma upd_Forall {B : Type} (P : B -> Prop) (n : nat) (f : B -> B) l :
  (forall x, P x -> P (f x)) -> Forall P l -> Forall P (upd n f l).
Proof.
  intros Hf H; revert n; induction H as [|x l Hx Hl IH]; intros [|n]; simpl;
    constructor; auto.
Qed.

Lemma Qsum_upd (n : nat) (v : Q) (l : list Q) :
  (n < length l)%nat -> Qsum (upd n (fun x => x + v) l) == Qsum l + v.
Proof.
  revert n; induction l as [|x l IH]; intros [|n] H; simpl in *; try lia.
  - unfold Qsum; simpl. lra.
  - specialize (IH n ltac:(lia)). unfold Qsum in *; simpl. lra.
Qed.

Lemma wrap_index_lt (ks i : Z) (r : nat) :
  wrap_index ks i = Some r -> (r < Z.to_nat ks)%nat.
Proof.
  unfold wrap_index.
  destruct ((0 <=? i) && (i <? ks))%Z eqn:E1.
  - intros [= <-]. apply andb_true_iff in E1 as [? ?]. lia.
  - destruct ((- ks <=? i) && (i <? 0))%Z eqn:E2; [|discriminate].
    intros [= <-]. apply andb_true_iff in E2 as [? ?]. lia.
Qed.

Lemma wrap_index_in_range (ks i : Z) :
  (0 <= i <= ks - 1)%Z -> wrap_index ks i = Some (Z.to_nat i).
Proof.
  intros H. unfold wrap_index.
  replace ((0 <=? i) && (i <? ks))%Z with true; auto.
  symmetry. apply andb_true_iff. split; lia.
Qed.

Lemma wrap_index_empty (i : Z) : wrap_index 0 i = None.
Proof.
  unfold wrap_index.
  replace ((0 <=? i) && (i <? 0))%Z with false
    by (symmetry; apply andb_false_iff; lia).
  replace ((- 0 <=? i) && (i <? 0))%Z with false
    by (symmetry; apply andb_false_iff; lia).
  reflexivity.
Qed.

Section GridFacts.
Context {A : Type}.
Variable add : A -> A -> A.

Lemma add_at_shape (ks : Z) (g : grid) (r c : nat) (v : A) :
  grid_shape ks g -> grid_shape ks (add_at add g r c v).
Proof.
  intros [Hl Hr]. split; unfold add_at.
  - now rewrite upd_length.
  - apply upd_Forall; auto. intros row Hrow. now rewrite upd_length.
Qed.

Lemma accumulate_shape (ks : Z) (iv : list ((Z * Z) * A)) :
  forall g g', grid_shape ks g -> accumulate add ks g iv = Ok g' ->
               grid_shape ks g'.
Proof.
  induction iv as [|[[i j] v] iv IH]; simpl; intros g g' Hg H.
  - now injection H as <-.
  - destruct (wrap_index ks i) as [r|]; [|discriminate].
    destruct (wrap_index ks j) as [c|]; [|discriminate].
    eapply IH; [|exact H]. now apply add_at_shape.
Qed.

(** Indices inside the grid never raise. *)
Lemma accumulate_ok (ks : Z) (iv : list ((Z * Z) * A)) :
  Forall (fun ij => (0 <= fst ij <= ks - 1 /\ 0 <= snd ij <= ks - 1)%Z)
         (map fst iv) ->
  forall g, exists g', accumulate add ks g iv = Ok g'.
Proof.
  induction iv as [|[[i j] v] iv IH]; simpl; intros H g.
  - now exists g.
  - inversion H as [|? ? [Hi Hj] Hrest]; subst; simpl in *.
    rewrite !wrap_index_in_range by assumption. now apply IH.
Qed.

(** An empty grid accepts no index at all. *)
Lemma accumulate_empty_grid (iv : list ((Z * Z) * A)) (g : grid) :
  iv <> [] -> accumulate add 0 g iv = Raise IndexError.
Proof.
  destruct iv as [|[[i j] v] iv]; [congruence|]. intros _. simpl.
  now rewrite wrap_index_empty.
Qed.
End GridFacts.

Lemma zeros_shape {A : Type} (z : A) (ks : Z) (g : grid) :
  zeros z ks = Ok g -> grid_shape ks g.
Proof.
  unfold zeros. destruct (ks <? 0)%Z; [discriminate|]. intros [= <-].
  split; [apply repeat_length|].
  apply Forall_forall. intros row Hrow. apply repeat_spec in Hrow. subst.
  apply repeat_length.
Qed.

Lemma zeros_ok {A : Type} (z : A) (ks : Z) :
  (0 <= ks)%Z ->
  zeros z ks = Ok (repeat (repeat z (Z.to_nat ks)) (Z.to_nat ks)).
Proof.
  intros H. unfold zeros. destruct (ks <? 0)%Z eqn:E; auto. lia.
Qed.

Lemma Qsum_repeat_zero (n : nat) : Qsum (repeat 0 n) == 0.
Proof. induction n; unfold Qsum in *; simpl; lra. Qed.

Lemma grid_sum_zeros (n m : nat) : grid_sum (repeat (repeat 0 n) m) == 0.
Proof.
  unfold grid_sum. induction m; simpl; [reflexivity|].
  pose proof (Qsum_repeat_zero n). unfold Qsum in *; simpl. lra.
Qed.

Lemma grid_all_zeros (P : Q -> Prop) (n m : nat) :
  P 0 -> grid_all P (repeat (repeat 0 n) m).
Proof.
  intros H. apply Forall_forall. intros row Hrow.
  apply repeat_spec in Hrow. subst. apply Forall_forall.
  intros x Hx. apply repeat_spec in Hx. now subst.
Qed.

Lemma grid_sum_add_at (ks : Z) (g : list (list Q)) (r c : nat) (v : Q) :
  grid_shape ks g -> (r < Z.to_nat ks)%nat -> (c < Z.to_nat ks)%nat ->
  grid_sum (add_at Qplus g r c v) == grid_sum g + v.
Proof.
  intros [Hl Hr] Hrk Hck. rewrite <- Hl in Hrk. clear Hl.
  unfold add_at, grid_sum. revert r Hrk.
  induction Hr as [|row g Hrow Hg IH]; intros [|r] Hrk; simpl in *; try lia.
  - pose proof (Qsum_upd c v row ltac:(lia)) as Hs.
    unfold Qsum in *; simpl. lra.
  - specialize (IH r ltac:(lia)). unfold Qsum in *; simpl. lra.
Qed.

(** Accumulation adds exactly the sum of the values to the sum of the
    grid. *)
Lemma accumulate_sum (ks : Z) (iv : list ((Z * Z) * Q)) :
  forall g g', grid_shape ks g -> accumulate Qplus ks g iv = Ok g' ->
               grid_sum g' == grid_sum g + Qsum (map snd iv).
Proof.
  induction iv as [|[[i j] v] iv IH]; simpl; intros g g' Hg H.
  - injection H as <-. unfold Qsum; simpl. lra.
  - destruct (wrap_index ks i) as [r|] eqn:Er; [|discriminate].
    destruct (wrap_index ks j) as [c|] eqn:Ec; [|discriminate].
    apply IH in H; [|now apply add_at_shape].
    apply wrap_index_lt in Er, Ec.
    pose proof (grid_sum_add_at ks g r c v Hg Er Ec).
    unfold Qsum in *; simpl. lra.
Qed.

(** A property of entries that is stable under adding the values is
    stable under accumulation. *)
Lemma accumulate_all (P Pv : Q -> Prop) (ks : Z) (iv : list ((Z * Z) * Q)) :
  (forall x v, P x -> Pv v -> P (x + v)) ->
  Forall Pv (map snd iv) ->
  forall g g', grid_all P g -> accumulate Qplus ks g iv = Ok g' ->
               grid_all P g'.
Proof.
  intros Hstep. induction iv as [|[[i j] v] iv IH]; simpl; intros Hv g g' Hg H.
  - now injection H as <-.
  - destruct (wrap_index ks i) as [r|]; [|discriminate].
    destruct (wrap_index ks j) as [c|]; [|discriminate].
    inversion Hv; subst.
    eapply IH; [assumption| |exact H].
    unfold add_at. apply upd_Forall; auto.
    intros row Hrow. apply upd_Forall; auto.
Qed.

(** ** The Splatter, sample by sample *)

Lemma zipWith_maps {A B C D : Type} (f : B -> C -> D) (g : A -> B)
      (h : A -> C) (l : list A) :
  zipWith f (map g l) (map h l) = map (fun x => f (g x) (h x)) l.
Proof. induction l; simpl; congruence. Qed.

Lemma expand_to_eq {A : Type} (n : nat) (v : list A) :
  length v = n -> expand_to n v = Ok v.
Proof. intros <-. apply expand_to_same_length. Qed.

Lemma pif_length ks xr yr points :
  length (pixel_indices_float ks xr yr points) = length points.
Proof. unfold pixel_indices_float. now rewrite !length_map. Qed.

Lemma values_length (share : vec2 -> Q) (pif : list vec2) (ra : list Q) :
  length pif = length ra ->
  length (zipWith Qmult (map share pif) ra) = length pif.
Proof.
  intros H. rewrite zipWith_length; now rewrite length_map.
Qed.

Section SplatterFacts.
Variable exp_i : Q -> complex.

(** With one weight per sample, the interpolated incoherent branch is four
    accumulations into a zero grid. *)
Lemma assign_interp_eq points ks xr yr ra phase d obliq wvln :
  length points = length ra -> (ks - 1)%Z <> 0%Z ->
  assign_points_to_pixels exp_i points ks xr yr ra true false phase d obliq
                          wvln =
  let pif := pixel_indices_float ks xr yr points in
  (g0 <- zeros 0 ks ;;
   _ <- check_finite (finite_indices xr yr points) ;;
   g1 <- put ks g0 floor_long share_tl pif ra ;;
   g2 <- put ks g1 corner_tr share_tr pif ra ;;
   g3 <- put ks g2 corner_bl share_bl pif ra ;;
   g4 <- put ks g3 corner_br share_br pif ra ;;
   Ok (RealGrid g4)).
Proof.
  intros Hlen Hks. unfold assign_points_to_pixels.
  apply Z.eqb_neq in Hks. rewrite Hks. cbv zeta.
  set (pif := pixel_indices_float ks xr yr points).
  assert (Hp : length pif = length ra)
    by (unfold pif; now rewrite pif_length).
  rewrite !zipWith_maps.
  rewrite !broadcast2_same_length by (now rewrite length_map).
  cbn [bind]. unfold index_put_.
  rewrite !expand_to_eq
    by (rewrite ?length_map; rewrite zipWith_length;
        now rewrite ?length_map).
  cbn [bind]. rewrite map_map. reflexivity.
Qed.

Lemma assign_nearest_eq points ks xr yr ra coherent phase d obliq wvln :
  length points = length ra -> (ks - 1)%Z <> 0%Z ->
  assign_points_to_pixels exp_i points ks xr yr ra false coherent phase d
                          obliq wvln =
  let pif := pixel_indices_float ks xr yr points in
  (g0 <- zeros 0 ks ;;
   _ <- check_finite (finite_indices xr yr points) ;;
   g1 <- accumulate Qplus ks g0 (combine (map floor_long pif) ra) ;;
   Ok (RealGrid g1)).
Proof.
  intros Hlen Hks. unfold assign_points_to_pixels.
  apply Z.eqb_neq in Hks. rewrite Hks. cbv zeta. unfold index_put_.
  rewrite expand_to_eq by (now rewrite length_map, pif_length).
  reflexivity.
Qed.
End SplatterFacts.

Lemma put_sum ks g corner share pif ra g' :
  grid_shape ks g -> length pif = length ra ->
  put ks g corner share pif ra = Ok g' ->
  grid_shape ks g'
  /\ grid_sum g' == grid_sum g + Qsum (zipWith Qmult (map share pif) ra).
Proof.
  intros Hg Hlen H. unfold put in H. split.
  - eapply accumulate_shape; eauto.
  - apply accumulate_sum in H; auto.
    rewrite map_snd_combine in H; auto.
    now rewrite length_map, values_length.
Qed.

Lemma put_all (P Pv : Q -> Prop) ks g corner share pif ra g' :
  (forall x v, P x -> Pv v -> P (x + v)) ->
  Forall Pv (zipWith Qmult (map share pif) ra) ->
  length pif = length ra ->
  grid_all P g -> put ks g corner share pif ra = Ok g' -> grid_all P g'.
Proof.
  intros Hstep Hv Hlen Hg H. unfold put in H.
  eapply accumulate_all; eauto.
  rewrite map_snd_combine; auto. now rewrite length_map, values_length.
Qed.

Lemma put_ok ks g corner share pif ra :
  length pif = length ra ->
  Forall (fun p => in_range ks (corner p)) pif ->
  exists g', put ks g corner share pif ra = Ok g'.
Proof.
  intros Hlen H. unfold put. apply accumulate_ok.
  rewrite map_fst_combine by (now rewrite length_map, values_length).
  now apply Forall_map.
Qed.

(** The four shares of a sample add up to its weight. *)
Lemma shares_total (p : vec2) (r : Q) :
  share_tl p * r + share_tr p * r + share_bl p * r + share_br p * r == r.
Proof. unfold share_tl, share_tr, share_bl, share_br. ring. Qed.

Lemma shares_sum (pif : list vec2) :
  forall ra, length pif = length ra ->
  Qsum (zipWith Qmult (map share_tl pif) ra)
  + Qsum (zipWith Qmult (map share_tr pif) ra)
  + Qsum (zipWith Qmult (map share_bl pif) ra)
  + Qsum (zipWith Qmult (map share_br pif) ra) == Qsum ra.
Proof.
  induction pif as [|p pif IH]; intros [|r ra] H; simpl in *;
    try discriminate; [reflexivity|].
  specialize (IH ra ltac:(lia)). pose proof (shares_total p r).
  unfold Qsum in *; simpl. lra.
Qed.

Lemma share_bounds (p : vec2) :
  0 <= share_tl p /\ 0 <= share_tr p /\ 0 <= share_bl p /\ 0 <= share_br p.
Proof.
  unfold share_tl, share_tr, share_bl, share_br, w_b, w_r.
  pose proof (frac_bounds (fst p)) as [? ?].
  pose proof (frac_bounds (snd p)) as [? ?].
  repeat split; apply Qmult_le_0_compat.
  all: lra.
Qed.

Lemma corners_in_range ks pif :
  Forall (in_grid ks true) pif ->
  Forall (fun p => in_range ks (floor_long p)) pif
  /\ Forall (fun p => in_range ks (corner_tr p)) pif
  /\ Forall (fun p => in_range ks (corner_bl p)) pif
  /\ Forall (fun p => in_range ks (corner_br p)) pif.
Proof.
  intros H.
  repeat split; eapply Forall_impl; try exact H; intros p Hp;
    unfold in_grid, in_range, corner_tr, corner_bl, corner_br, floor_long in *;
    cbn [fst snd] in *; rewrite ?Qfloor_succ; lia.
Qed.

Ltac run_bind H g E :=
  match type of H with
  | bind ?m _ = Ok _ =>
      destruct m as [g|] eqn:E; cbn [bind] in H; [|discriminate H]
  end.

Lemma zeros_inv (ks : Z) (g : list (list Q)) :
  zeros 0 ks = Ok g ->
  grid_shape ks g /\ grid_sum g == 0 /\ forall P : Q -> Prop, P 0 -> grid_all P g.
Proof.
  intros H. split; [now apply zeros_shape in H|].
  unfold zeros in H. destruct (ks <? 0)%Z; [discriminate|].
  injection H as <-. split; [apply grid_sum_zeros|].
  intros P HP. now apply grid_all_zeros.
Qed.

Section SplatterRuns.
Variable exp_i : Q -> complex.

Lemma assign_interp_run points ks xr yr ra phase d obliq wvln G :
  length points = length ra ->
  assign_points_to_pixels exp_i points ks xr yr ra true false phase d obliq
                          wvln = Ok G ->
  let pif := pixel_indices_float ks xr yr points in
  exists g0 g1 g2 g3 g4,
    zeros 0 ks = Ok g0
    /\ put ks g0 floor_long share_tl pif ra = Ok g1
    /\ put ks g1 corner_tr share_tr pif ra = Ok g2
    /\ put ks g2 corner_bl share_bl pif ra = Ok g3
    /\ put ks g3 corner_br share_br pif ra = Ok g4
    /\ G = RealGrid g4.
Proof.
  intros Hlen H.
  destruct (Z.eq_dec (ks - 1) 0) as [E|E].
  { unfold assign_points_to_pixels in H. apply Z.eqb_eq in E.
    rewrite E in H. discriminate. }
  rewrite assign_interp_eq in H by assumption. cbv zeta in *.
  run_bind H g0 E0. run_bind H u Eu.
  run_bind H g1 E1. run_bind H g2 E2. run_bind H g3 E3. run_bind H g4 E4.
  injection H as <-. exists g0, g1, g2, g3, g4. auto 10.
Qed.

Lemma assign_nearest_run points ks xr yr ra coherent phase d obliq wvln G :
  length points = length ra ->
  assign_points_to_pixels exp_i points ks xr yr ra false coherent phase d
                          obliq wvln = Ok G ->
  exists g0 g1,
    zeros 0 ks = Ok g0
    /\ accumulate Qplus ks g0
         (combine (map floor_long (pixel_indices_float ks xr yr points)) ra)
       = Ok g1
    /\ G = RealGrid g1.
Proof.
  intros Hlen H.
  destruct (Z.eq_dec (ks - 1) 0) as [E|E].
  { unfold assign_points_to_pixels in H. apply Z.eqb_eq in E.
    rewrite E in H. discriminate. }
  rewrite assign_nearest_eq in H by assumption. cbv zeta in *.
  run_bind H g0 E0. run_bind H u Eu. run_bind H g1 E1.
  injection H as <-. exists g0, g1. auto.
Qed.

(** Success of the incoherent Splatter on in-grid samples. *)
Lemma splat_returns points ks xr yr ra interpolate phase d obliq wvln :
  length points = length ra -> (2 <= ks)%Z ->
  finite_indices xr yr points = true ->
  Forall (in_grid ks interpolate) (pixel_indices_float ks xr yr points) ->
  exists g,
    assign_points_to_pixels exp_i points ks xr yr ra interpolate false
                            phase d obliq wvln = Ok (RealGrid g).
Proof.
  intros Hlen Hks Hfin Hin.
  assert (Hp : length (pixel_indices_float ks xr yr points) = length ra)
    by now rewrite pif_length.
  destruct interpolate.
  - rewrite assign_interp_eq by (auto; lia). cbv zeta.
    rewrite zeros_ok by lia. rewrite Hfin. cbn [bind check_finite].
    apply corners_in_range in Hin as (H1 & H2 & H3 & H4).
    edestruct put_ok as [g1 E1]; [exact Hp | exact H1 |].
    rewrite E1. cbn [bind].
    edestruct put_ok as [g2 E2]; [exact Hp | exact H2 |].
    rewrite E2. cbn [bind].
    edestruct put_ok as [g3 E3]; [exact Hp | exact H3 |].
    rewrite E3. cbn [bind].
    edestruct put_ok as [g4 E4]; [exact Hp | exact H4 |].
    rewrite E4. cbn [bind]. now exists g4.
  - rewrite assign_nearest_eq by (auto; lia). cbv zeta.
    rewrite zeros_ok by lia. rewrite Hfin. cbn [bind check_finite].
    edestruct (accumulate_ok Qplus ks) as [g1 E1];
      [|rewrite E1; cbn [bind]; now exists g1].
    rewrite map_fst_combine by (now rewrite length_map).
    apply Forall_map. eapply Forall_impl; [|exact Hin].
    intros p Hp'. unfold in_grid, in_range in *. lia.
Qed.

(** The sum of the returned grid is the sum of the weights. *)
Lemma splat_sum points ks xr yr ra interpolate phase d obliq wvln G :
  length points = length ra ->
  assign_points_to_pixels exp_i points ks xr yr ra interpolate false phase
                          d obliq wvln = Ok G ->
  exists g, G = RealGrid g /\ grid_shape ks g /\ grid_sum g == Qsum ra.
Proof.
  intros Hlen H.
  assert (Hp : length (pixel_indices_float ks xr yr points) = length ra)
    by now rewrite pif_length.
  destruct interpolate.
  - apply assign_interp_run in H; auto. cbv zeta in H.
    destruct H as (g0 & g1 & g2 & g3 & g4 & E0 & E1 & E2 & E3 & E4 & ->).
    apply zeros_inv in E0 as (S0 & Z0 & _).
    apply put_sum in E1 as (S1 & Z1); auto.
    apply put_sum in E2 as (S2 & Z2); auto.
    apply put_sum in E3 as (S3 & Z3); auto.
    apply put_sum in E4 as (S4 & Z4); auto.
    exists g4. repeat split; try apply S4.
    pose proof (shares_sum _ _ Hp). lra.
  - apply assign_nearest_run in H; auto.
    destruct H as (g0 & g1 & E0 & E1 & ->).
    apply zeros_inv in E0 as (S0 & Z0 & _).
    exists g1. repeat split; try (eapply accumulate_shape; eauto).
    apply accumulate_sum in E1; auto.
    rewrite map_snd_combine in E1 by (now rewrite length_map). lra.
Qed.

(** A property of the zero entry that is stable under adding any share
    of any weight holds of every entry of the returned grid. *)
Lemma splat_all (P Pv : Q -> Prop) points ks xr yr ra interpolate phase d
      obliq wvln G :
  P 0 -> (forall x v, P x -> Pv v -> P (x + v)) ->
  (forall r, In r ra -> Pv r) ->
  (forall c r, 0 <= c -> In r ra -> Pv (c * r)) ->
  length points = length ra ->
  assign_points_to_pixels exp_i points ks xr yr ra interpolate false phase
                          d obliq wvln = Ok G ->
  exists g, G = RealGrid g /\ grid_all P g.
Proof.
  intros H0 Hstep Hra Hval Hlen H.
  assert (Hp : length (pixel_indices_float ks xr yr points) = length ra)
    by now rewrite pif_length.
  assert (Hv : forall share : vec2 -> Q,
             (forall p, 0 <= share p) ->
             Forall Pv (zipWith Qmult
               (map share (pixel_indices_float ks xr yr points)) ra)).
  { intros share Hs. apply Forall_zipWith. intros c r Hc Hr.
    apply in_map_iff in Hc as (p & <- & _). now apply Hval. }
  destruct interpolate.
  - apply assign_interp_run in H; auto. cbv zeta in H.
    destruct H as (g0 & g1 & g2 & g3 & g4 & E0 & E1 & E2 & E3 & E4 & ->).
    apply zeros_inv in E0 as (_ & _ & A0). specialize (A0 P H0).
    exists g4. split; auto.
    eapply put_all in E1; eauto; [|apply Hv; intro; apply share_bounds].
    eapply put_all in E2; eauto; [|apply Hv; intro; apply share_bounds].
    eapply put_all in E3; eauto; [|apply Hv; intro; apply share_bounds].
    eapply put_all in E4; eauto. apply Hv; intro; apply share_bounds.
  - apply assign_nearest_run in H; auto.
    destruct H as (g0 & g1 & E0 & E1 & ->).
    apply zeros_inv in E0 as (_ & _ & A0). specialize (A0 P H0).
    exists g1. split; auto.
    eapply accumulate_all; eauto.
    rewrite map_snd_combine by (now rewrite length_map).
    now apply Forall_forall.
Qed.
End SplatterRuns.

(** ** The window of the Integrator *)

Lemma inject_Z_ge2 (ks : Z) : (2 <= ks)%Z -> 2 <= inject_Z ks.
Proof. intros H. change 2 with (inject_Z 2). now rewrite <- Zle_Qle. Qed.

Lemma threshold_eq_gen (K ps : Q) :
  (K / 2 - (1#2)) * ps - (1#100) * ps == ps * ((K - 1) * (1#2) - (1#100)).
Proof. field. Qed.

Lemma threshold_eq (ps : Q) (ks : Z) :
  mask_threshold ps ks == ps * ((inject_Z ks - 1) * (1#2) - (1#100)).
Proof.
  unfold mask_threshold, window_half_width, psf_range. cbn [snd].
  apply threshold_eq_gen.
Qed.

Lemma threshold_pos (ps : Q) (ks : Z) (a : Q) :
  (2 <= ks)%Z -> 0 <= a -> a < mask_threshold ps ks -> 0 < ps.
Proof.
  intros Hks Ha Hlt. apply inject_Z_ge2 in Hks.
  rewrite threshold_eq in Hlt. revert Hks Hlt.
  generalize (inject_Z ks) as K. intros K Hks Hlt.
  destruct (Qlt_le_dec 0 ps) as [|Hle]; auto. exfalso.
  assert (0 <= (- ps) * ((K - 1) * (1#2) - (1 # 100))).
  { apply Qmult_le_0_compat.
    all: lra. }
  lra.
Qed.

Lemma col_index_eq (K x ps : Q) :
  ~ ps == 0 -> ~ K - 1 == 0 ->
  (x - (- K / 2 + (1 # 2)) * ps)
  / ((K / 2 - (1 # 2)) * ps - (- K / 2 + (1 # 2)) * ps) * (K - 1)
  == x / ps + (K - 1) * (1 # 2).
Proof.
  intros Hps HK. field. split; auto. intro E. apply HK.
  assert (E' : (K - 1) * ps == 0) by lra.
  apply Qmult_integral in E' as [E'|E']; [lra | contradiction].
Qed.

Lemma row_index_eq (K y ps : Q) :
  ~ ps == 0 -> ~ K - 1 == 0 ->
  (y - (K / 2 - (1 # 2)) * ps)
  / ((- K / 2 + (1 # 2)) * ps - (K / 2 - (1 # 2)) * ps) * (K - 1)
  == (- y) / ps + (K - 1) * (1 # 2).
Proof.
  intros Hps HK. field. split; auto. intro E. apply HK.
  assert (E' : (K - 1) * ps == 0) by lra.
  apply Qmult_integral in E' as [E'|E']; [lra | contradiction].
Qed.

(** A coordinate inside the window, divided by the pixel size and moved by
    half the kernel, lies between the first and the last lattice index. *)
Lemma window_bounds (K ps x : Q) :
  2 <= K -> ~ ps == 0 ->
  x == 0 \/ (0 < ps /\ Qabs x < ps * ((K - 1) * (1#2) - (1#100))) ->
  0 <= x / ps + (K - 1) * (1#2) /\ x / ps + (K - 1) * (1#2) < K - 1.
Proof.
  intros HK Hps [E0 | [Hpos Habs]].
  - rewrite E0. setoid_replace (0 / ps) with 0 by (field; exact Hps).
    split; lra.
  - apply Qabs_Qlt_condition in Habs as [Hl Hu].
    assert (x / ps < (K - 1) * (1#2) - (1 # 100)).
    { apply Qlt_shift_div_r; auto. lra. }
    assert (- ((K - 1) * (1#2) - (1 # 100)) < x / ps).
    { apply Qlt_shift_div_l; auto. lra. }
    split; lra.
Qed.

Lemma windowed_opp (ps : Q) (ks : Z) (x : Q) :
  windowed ps ks x -> windowed ps ks (- x).
Proof.
  intros [E | [Hp Ha]]; [left | right].
  - rewrite E. reflexivity.
  - split; auto. now rewrite Qabs_opp.
Qed.

(** The fractional column and row indices of a windowed coordinate. *)
Lemma window_col (ps : Q) (ks : Z) (x : Q) :
  (2 <= ks)%Z -> ~ ps == 0 -> windowed ps ks x ->
  let f := (x - fst (psf_range ps ks))
           / (snd (psf_range ps ks) - fst (psf_range ps ks))
           * inject_Z (ks - 1) in
  0 <= f /\ f < inject_Z (ks - 1).
Proof.
  intros Hks Hps Hw f. pose proof (inject_Z_ge2 ks Hks) as HK.
  unfold windowed in Hw. rewrite threshold_eq in Hw.
  unfold f, psf_range. cbn [fst snd]. rewrite inject_Z_pred.
  revert HK Hw. generalize (inject_Z ks) as K. intros K HK Hw.
  rewrite col_index_eq by (auto; lra). now apply window_bounds.
Qed.

Lemma window_row (ps : Q) (ks : Z) (y : Q) :
  (2 <= ks)%Z -> ~ ps == 0 -> windowed ps ks y ->
  let f := (y - snd (psf_range ps ks))
           / (fst (psf_range ps ks) - snd (psf_range ps ks))
           * inject_Z (ks - 1) in
  0 <= f /\ f < inject_Z (ks - 1).
Proof.
  intros Hks Hps Hw f. pose proof (inject_Z_ge2 ks Hks) as HK.
  apply windowed_opp in Hw.
  unfold windowed in Hw. rewrite threshold_eq in Hw.
  unfold f, psf_range. cbn [fst snd]. rewrite inject_Z_pred.
  revert HK Hw. generalize (inject_Z ks) as K. intros K HK Hw.
  rewrite row_index_eq by (auto; lra). now apply window_bounds.
Qed.

(** Samples inside the window have all their lattice indices in the grid. *)
Lemma windowed_in_grid (ps : Q) (ks : Z) (interpolate : bool) pts :
  (2 <= ks)%Z -> ~ ps == 0 -> Forall (windowed2 ps ks) pts ->
  Forall (in_grid ks interpolate)
         (pixel_indices_float ks (psf_range ps ks) (psf_range ps ks) pts).
Proof.
  intros Hks Hps H. unfold pixel_indices_float. rewrite map_map.
  apply Forall_map. eapply Forall_impl; [|exact H].
  intros p [Hx Hy]. unfold normalize.
  destruct (psf_range ps ks) as [lo hi] eqn:E.
  pose proof (window_col ps ks (fst p) Hks Hps Hx) as Hc.
  pose proof (window_row ps ks (snd p) Hks Hps Hy) as Hr.
  rewrite E in Hc, Hr. cbn [fst snd] in *.
  destruct Hc as [Hc0 Hc1], Hr as [Hr0 Hr1].
  pose proof (floor_in_range _ _ Hc0 Hc1).
  pose proof (floor_in_range _ _ Hr0 Hr1).
  unfold in_grid, floor_long. cbn [fst snd].
  destruct interpolate; lia.
Qed.

(** ** Masking *)

(** The masked weight is the ray weight when both coordinates pass the
    test, and zero otherwise. *)
Lemma mask_ra_cases (ps : Q) (ks : Z) (r : Q) (s : vec2) :
  (Qabs (fst s) < mask_threshold ps ks /\ Qabs (snd s) < mask_threshold ps ks
   /\ mask_ra ps ks r s == r)
  \/ ((~ Qabs (fst s) < mask_threshold ps ks
       \/ ~ Qabs (snd s) < mask_threshold ps ks)
      /\ mask_ra ps ks r s == 0).
Proof.
  unfold mask_ra, mask_threshold, window_half_width.
  set (t := snd (psf_range ps ks) - (1 # 100) * ps).
  destruct (Qlt_bool (Qabs (fst s)) t) eqn:E1;
    destruct (Qlt_bool (Qabs (snd s)) t) eqn:E2; cbn [b2q].
  - left. apply Qlt_bool_iff in E1, E2. repeat split; auto. ring.
  - right. split; [right|ring].
    intros H. apply Qlt_bool_iff in H. congruence.
  - right. split; [left|ring].
    intros H. apply Qlt_bool_iff in H. congruence.
  - right. split; [left|ring].
    intros H. apply Qlt_bool_iff in H. congruence.
Qed.

Lemma scaled_windowed (ps : Q) (ks : Z) (x r : Q) :
  (2 <= ks)%Z -> 0 <= r <= 1 -> Qabs x < mask_threshold ps ks ->
  windowed ps ks (x * r).
Proof.
  intros Hks [Hr0 Hr1] Hx. right. split.
  - apply (threshold_pos ps ks (Qabs x)); auto. apply Qabs_nonneg.
  - rewrite Qabs_Qmult, (Qabs_pos r) by assumption.
    pose proof (Qabs_nonneg x) as Ha.
    assert (0 <= Qabs x * (1 - r)).
    { apply Qmult_le_0_compat.
      all: lra. }
    lra.
Qed.

Lemma windowed_eq (ps : Q) (ks : Z) (x y : Q) :
  x == y -> windowed ps ks x -> windowed ps ks y.
Proof.
  intros E [E0 | [Hp Ha]]; [left | right].
  - now rewrite <- E.
  - split; auto. now rewrite <- E.
Qed.

(** Every position handed to the Splatter lies inside the window, whether
    its weight survived the mask or was zeroed. *)
Lemma masked_windowed (ps : Q) (ks : Z) (r : Q) (s : vec2) :
  (2 <= ks)%Z -> 0 <= r <= 1 ->
  windowed2 ps ks (vscale s (mask_ra ps ks r s)).
Proof.
  intros Hks Hr. unfold windowed2, vscale. cbn [fst snd].
  destruct (mask_ra_cases ps ks r s) as [(Hx & Hy & E) | [_ E]].
  - split; [apply (windowed_eq ps ks (fst s * r))
            | apply (windowed_eq ps ks (snd s * r))];
      try (now rewrite E); now apply scaled_windowed.
  - split; left; rewrite E; ring.
Qed.

Lemma Forall_zipWith_fused {A B C D : Type} (P : D -> Prop)
      (f : A -> C -> D) (g : B -> A -> C) (a : list A) (b : list B) :
  (forall x y, In x a -> In y b -> P (f x (g y x))) ->
  Forall P (zipWith f a (zipWith g b a)).
Proof.
  revert b; induction a as [|x a IH]; intros [|y b] H; simpl; auto.
  constructor.
  - apply H; simpl; auto.
  - apply IH. intros; apply H; simpl; auto.
Qed.

Lemma Forall_col {A : Type} (P : A -> Prop) (dflt : A) (i : nat) t :
  P dflt -> Forall (Forall P) t -> Forall P (col dflt i t).
Proof.
  intros Hd H. unfold col. apply Forall_map.
  eapply Forall_impl; [|exact H]. intros row Hrow.
  destruct (Nat.lt_ge_cases i (length row)) as [Hi|Hi].
  - eapply Forall_forall; [exact Hrow|]. now apply nth_In.
  - now rewrite nth_overflow.
Qed.

Lemma windowed2_zero (ps : Q) (ks : Z) : windowed2 ps ks vzero.
Proof. split; left; reflexivity. Qed.

Section IntegratorFacts.
Variable EPSILON : Q.

Lemma points_masked1_windowed ps ks samples pointc_ref :
  (2 <= ks)%Z -> Forall unit_weight samples ->
  Forall (windowed2 ps ks) (points_masked1 EPSILON ps ks samples pointc_ref).
Proof.
  intros Hks Hw. unfold points_masked1, ra1.
  apply Forall_zipWith_fused. intros s r _ Hr.
  apply masked_windowed; auto.
  apply in_map_iff in Hr as (x & <- & Hx).
  eapply Forall_forall in Hw; eauto.
Qed.

Lemma points_maskedN_windowed ps ks N samples pointc_ref :
  (2 <= ks)%Z -> Forall (Forall unit_weight) samples ->
  Forall (Forall (windowed2 ps ks))
         (points_maskedN EPSILON ps ks N samples pointc_ref).
Proof.
  intros Hks Hw. unfold points_maskedN, raN.
  apply Forall_zipWith_fused. intros srow rrow _ Hr.
  apply Forall_zipWith_fused. intros s r _ Hr'.
  apply masked_windowed; auto.
  apply in_map_iff in Hr as (row & <- & Hrow).
  apply in_map_iff in Hr' as (x & <- & Hx).
  eapply Forall_forall in Hw; eauto.
  eapply Forall_forall in Hw; eauto.
Qed.

Lemma splatter_points_windowed ray ps ks pointc_ref :
  (2 <= ks)%Z -> weights_in_unit ray ->
  Forall (Forall (windowed2 ps ks))
         (splatter_points EPSILON ray ps ks pointc_ref).
Proof.
  intros Hks Hw. destruct ray as [samples | N samples]; simpl in *.
  - constructor; auto. now apply points_masked1_windowed.
  - apply Forall_map. apply Forall_forall. intros i _.
    apply Forall_col; [apply windowed2_zero|].
    now apply points_maskedN_windowed.
Qed.
End IntegratorFacts.

(** ** Columns of batch tensors *)

Section Columns.
Context {A B C : Type}.

Lemma rows_map (f : A -> B) (N : nat) (t : list (list A)) :
  rows_of_length N t -> rows_of_length N (map (map f) t).
Proof.
  intros H. apply Forall_map. eapply Forall_impl; [|exact H].
  intros row Hrow. now rewrite length_map.
Qed.

Lemma rows_zipWith (f : A -> B -> C) (N : nat) a b :
  rows_of_length N a -> rows_of_length N b ->
  rows_of_length N (zipWith (zipWith f) a b).
Proof.
  intros Ha Hb. apply Forall_zipWith. intros x y Hx Hy.
  eapply Forall_forall in Ha; eauto. eapply Forall_forall in Hb; eauto.
  rewrite zipWith_length; congruence.
Qed.

Lemma col_map (f : A -> B) (d : A) (d' : B) (N i : nat) t :
  rows_of_length N t -> (i < N)%nat ->
  col d' i (map (map f) t) = map f (col d i t).
Proof.
  intros H Hi. unfold col. rewrite !map_map.
  apply map_ext_in. intros row Hrow.
  eapply Forall_forall in H; eauto. cbv beta in H.
  rewrite (nth_indep _ d' (f d)) by (rewrite length_map; lia).
  apply map_nth.
Qed.

Lemma col_zipWith (f : A -> B -> C) da db dc (N i : nat) a b :
  rows_of_length N a -> rows_of_length N b -> (i < N)%nat ->
  col dc i (zipWith (zipWith f) a b) = zipWith f (col da i a) (col db i b).
Proof.
  intros Ha Hb Hi. revert b Hb.
  induction Ha as [|x a Hx Ha IH]; intros [|y b] Hb; simpl; auto.
  inversion Hb; subst. f_equal; [|now apply IH].
  apply nth_zipWith; lia.
Qed.
End Columns.

Lemma sum0_length {A : Type} (add : A -> A -> A) (zero : A) (N : nat) t :
  rows_of_length N t -> length (sum0 add zero N t) = N.
Proof.
  intros H. unfold sum0. induction H as [|row t Hrow Ht IH]; simpl.
  - apply repeat_length.
  - rewrite zipWith_length; congruence.
Qed.

(** Entry [i] of a sum over the sample axis is the sum of column [i]. *)
Lemma nth_sum0 {A : Type} (add : A -> A -> A) (zero : A) (N i : nat) t :
  rows_of_length N t -> (i < N)%nat ->
  nth i (sum0 add zero N t) zero = fold_right add zero (col zero i t).
Proof.
  intros H Hi. induction H as [|row t Hrow Ht IH].
  - unfold sum0; simpl. apply nth_repeat.
  - change (sum0 add zero N (row :: t))
      with (zipWith add row (sum0 add zero N t)).
    simpl. rewrite <- IH.
    apply nth_zipWith; [lia|]. rewrite sum0_length; auto.
Qed.

Lemma mapM_seq_nth {B : Type} (f : nat -> result B) (d : B) (n : nat) :
  forall a ys, mapM f (seq a n) = Ok ys ->
  length ys = n /\ forall i, (i < n)%nat -> f (a + i)%nat = Ok (nth i ys d).
Proof.
  induction n as [|n IH]; simpl; intros a ys H.
  - injection H as <-. split; auto. intros i Hi. lia.
  - destruct (f a) as [y|] eqn:Ef; cbn [bind] in H; [|discriminate].
    destruct (mapM f (seq (S a) n)) as [ys'|] eqn:Em; cbn [bind] in H;
      [|discriminate].
    injection H as <-. apply IH in Em as [Hl Hn]. split; simpl; [lia|].
    intros [|i] Hi.
    + now rewrite Nat.add_0_r.
    + rewrite <- Hn by lia. f_equal. lia.
Qed.

Lemma mapM_seq_ok {B : Type} (f : nat -> result B) (n : nat) :
  forall a, (forall i, (i < n)%nat -> exists y, f (a + i)%nat = Ok y) ->
  exists ys, mapM f (seq a n) = Ok ys /\ length ys = n.
Proof.
  induction n as [|n IH]; simpl; intros a H.
  - now exists [].
  - destruct (H 0%nat ltac:(lia)) as [y Ey]. rewrite Nat.add_0_r in Ey.
    rewrite Ey. cbn [bind].
    destruct (IH (S a)) as (ys & Eys & Hl).
    { intros i Hi. destruct (H (S i) ltac:(lia)) as [z Ez].
      exists z. rewrite <- Ez. f_equal. lia. }
    rewrite Eys. cbn [bind]. exists (y :: ys). simpl. auto.
Qed.

Section BatchColumns.
Variable EPSILON : Q.

Lemma centroids_length N points ra :
  rows_of_length N points -> rows_of_length N ra ->
  length points = length ra ->
  length (centroids EPSILON N points ra) = N.
Proof.
  intros Hp Hr Hl. unfold centroids.
  assert (Hz : rows_of_length N (zipWith (zipWith vscale) points ra))
    by now apply rows_zipWith.
  rewrite zipWith_length.
  - now apply sum0_length.
  - rewrite length_map. now rewrite !sum0_length.
Qed.

Lemma nth_centroids N i points ra :
  rows_of_length N points -> rows_of_length N ra -> (i < N)%nat ->
  nth i (centroids EPSILON N points ra) vzero
  = centroid EPSILON (col vzero i points) (col 0 i ra).
Proof.
  intros Hp Hr Hi. unfold centroids, centroid, centroid_den.
  rewrite (nth_zipWith _ _ _ _ vzero (0 + EPSILON) vzero).
  - rewrite (map_nth (fun s => s + EPSILON)).
    rewrite !nth_sum0; auto; [|now apply rows_zipWith].
    now rewrite (col_zipWith vscale vzero 0 vzero N).
  - rewrite sum0_length; auto. now apply rows_zipWith.
  - rewrite length_map, sum0_length; auto.
Qed.

Lemma rows_shift N points ra pointc_ref :
  rows_of_length N points -> rows_of_length N ra ->
  length points = length ra ->
  rows_of_length N (shift_batch EPSILON N points ra pointc_ref).
Proof.
  intros Hp Hr Hl. destruct pointc_ref as [c|]; simpl.
  - now apply rows_map.
  - apply Forall_map. eapply Forall_impl; [|exact Hp].
    intros row Hrow. cbv beta.
    rewrite zipWith_length; auto. now rewrite centroids_length.
Qed.

Lemma col_shift N i points ra pointc_ref :
  rows_of_length N points -> rows_of_length N ra ->
  length points = length ra -> (i < N)%nat ->
  col vzero i (shift_batch EPSILON N points ra pointc_ref)
  = shift_points EPSILON (col vzero i points) (col 0 i ra) pointc_ref.
Proof.
  intros Hp Hr Hl Hi. destruct pointc_ref as [c|]; simpl.
  - unfold col. rewrite !map_map. apply map_ext_in. intros row Hrow.
    pose proof (proj1 (Forall_forall _ _) Hp row Hrow) as Hlen.
    cbv beta in Hlen.
    rewrite (nth_indep _ vzero (vsub vzero c)) by (rewrite length_map; lia).
    apply (map_nth (fun p => vsub p c)).
  - rewrite <- (nth_centroids N) by assumption.
    unfold col. rewrite !map_map. apply map_ext_in. intros row Hrow.
    pose proof (proj1 (Forall_forall _ _) Hp row Hrow) as Hlen.
    cbv beta in Hlen.
    apply nth_zipWith; [lia|]. rewrite centroids_length; auto.
Qed.
End BatchColumns.

(** ** One call of the Splatter per point *)

Section Calls.
Variable exp_i : Q -> complex.
Variable EPSILON : Q.

Lemma forward_integral_point samples ps ks pointc_ref interpolate :
  forward_integral exp_i EPSILON (RayPoint samples) ps ks pointc_ref
                   interpolate
  = (g <- point_call exp_i EPSILON samples ps ks pointc_ref ;;
     Ok (PsfGrid g)).
Proof. reflexivity. Qed.

Lemma forward_integral_batch N samples ps ks pointc_ref interpolate :
  forward_integral exp_i EPSILON (RayBatch N samples) ps ks pointc_ref
                   interpolate
  = (psf <- mapM (batch_call exp_i EPSILON N samples ps ks pointc_ref)
                 (seq 0 N) ;;
     match psf with
     | [] => Raise RuntimeError
     | _ :: _ => Ok (PsfStack psf)
     end).
Proof. reflexivity. Qed.

Lemma is_nil_map {A B : Type} (f : A -> B) (l : list A) :
  is_nil (map f l) = is_nil l.
Proof. now destruct l. Qed.

Lemma col_masked N i samples ps ks pointc_ref :
  rows_of_length N samples -> (i < N)%nat ->
  col 0 i (raN EPSILON ps ks N samples pointc_ref)
  = ra1 EPSILON ps ks (col dflt_sample i samples) pointc_ref
  /\ col vzero i (points_maskedN EPSILON ps ks N samples pointc_ref)
     = points_masked1 EPSILON ps ks (col dflt_sample i samples) pointc_ref.
Proof.
  intros Hs Hi.
  assert (Hp : rows_of_length N (map (map point_of) samples))
    by now apply rows_map.
  assert (Hr : rows_of_length N (map (map ray_ra) samples))
    by now apply rows_map.
  assert (Hl : length (map (map point_of) samples)
               = length (map (map ray_ra) samples))
    by now rewrite !length_map.
  assert (Hsh : rows_of_length N (points_shiftN EPSILON N samples pointc_ref))
    by now apply rows_shift.
  assert (Era : col 0 i (raN EPSILON ps ks N samples pointc_ref)
                = ra1 EPSILON ps ks (col dflt_sample i samples) pointc_ref).
  { unfold raN, ra1, points_shift1.
    rewrite (col_zipWith (mask_ra ps ks) 0 vzero 0 N) by assumption.
    unfold points_shiftN. rewrite col_shift by assumption.
    now rewrite (col_map point_of dflt_sample vzero N),
                (col_map ray_ra dflt_sample 0 N) by assumption. }
  split; [exact Era|].
  unfold points_maskedN, points_masked1.
  rewrite (col_zipWith vscale vzero 0 vzero N); auto.
  - rewrite Era. f_equal.
    unfold points_shiftN, points_shift1. rewrite col_shift by assumption.
    now rewrite (col_map point_of dflt_sample vzero N),
                (col_map ray_ra dflt_sample 0 N) by assumption.
  - unfold raN. now apply rows_zipWith.
Qed.

Lemma batch_finite_col N i samples pointc_ref :
  rows_of_length N samples -> (i < N)%nat ->
  batch_finite EPSILON N i (map (map ray_ra) samples) pointc_ref
  = centre_finite EPSILON (map ray_ra (col dflt_sample i samples))
                  pointc_ref.
Proof.
  intros Hs Hi. destruct pointc_ref as [c|]; simpl; auto.
  unfold centroid_den, Qsum.
  rewrite nth_sum0 by (auto using rows_map).
  rewrite (col_map ray_ra dflt_sample 0 N) by assumption.
  unfold col. now rewrite !is_nil_map.
Qed.

(** Call [i] of a batch is the single-point call on column [i]. *)
Lemma batch_call_col N i samples ps ks pointc_ref :
  rows_of_length N samples -> (i < N)%nat ->
  batch_call exp_i EPSILON N samples ps ks pointc_ref i
  = point_call exp_i EPSILON (col dflt_sample i samples) ps ks pointc_ref.
Proof.
  intros Hs Hi. unfold batch_call, point_call.
  destruct (col_masked N i samples ps ks pointc_ref Hs Hi) as [-> ->].
  now rewrite batch_finite_col.
Qed.
End Calls.

(** ** Sample [k] of the masked bundle *)

Section Samples.
Variable EPSILON : Q.

Lemma points_shift1_length samples pointc_ref :
  length (points_shift1 EPSILON samples pointc_ref) = length samples.
Proof.
  unfold points_shift1, shift_points.
  destruct pointc_ref; now rewrite !length_map.
Qed.

Lemma ra1_length ps ks samples pointc_ref :
  length (ra1 EPSILON ps ks samples pointc_ref) = length samples.
Proof.
  unfold ra1. rewrite zipWith_length; rewrite length_map; auto.
  now rewrite points_shift1_length.
Qed.

Lemma points_masked1_length ps ks samples pointc_ref :
  length (points_masked1 EPSILON ps ks samples pointc_ref) = length samples.
Proof.
  unfold points_masked1.
  rewrite zipWith_length; rewrite points_shift1_length; auto.
  now rewrite ra1_length.
Qed.

Lemma nth_ra1 ps ks samples pointc_ref k :
  (k < length samples)%nat ->
  nth k (ra1 EPSILON ps ks samples pointc_ref) 0
  = mask_ra ps ks (ray_ra (nth k samples dflt_sample))
            (nth k (points_shift1 EPSILON samples pointc_ref) vzero).
Proof.
  intros Hk. unfold ra1.
  rewrite (nth_zipWith _ _ _ _ 0 vzero 0).
  - now rewrite (map_nth ray_ra samples dflt_sample).
  - now rewrite length_map.
  - now rewrite points_shift1_length.
Qed.


End Samples.

(** ** Behaviour of the mask at the threshold *)

Lemma mask_excludes_edge (ps : Q) (ks : Z) (r : Q) (s : vec2) :
  0 < ps ->
  Qabs (fst s) == window_half_width ps ks
  \/ Qabs (snd s) == window_half_width ps ks ->
  mask_ra ps ks r s == 0.
Proof.
  intros Hps H.
  destruct (mask_ra_cases ps ks r s) as [(Hx & Hy & _) | [_ E]]; auto.
  exfalso. unfold mask_threshold in Hx, Hy.
  destruct H as [E | E]; rewrite E in *; lra.
Qed.

Lemma mask_keeps_inside (ps : Q) (ks : Z) (r : Q) (s : vec2) :
  Qabs (fst s) < mask_threshold ps ks ->
  Qabs (snd s) < mask_threshold ps ks ->
  mask_ra ps ks r s == r.
Proof.
  intros Hx Hy.
  destruct (mask_ra_cases ps ks r s) as [(_ & _ & E) | [[H | H] _]]; tauto.
Qed.

Lemma inside_by_margin (ps : Q) (ks : Z) (a : Q) :
  0 < ps -> a == window_half_width ps ks - (2#100) * ps ->
  a < mask_threshold ps ks.
Proof.
  intros Hps E. unfold mask_threshold. lra.
Qed.

(** ** Grids equal up to [==] *)

Lemma Forall2_Qeq_refl (l : list Q) : Forall2 Qeq l l.
Proof. induction l; constructor; auto. reflexivity. Qed.

Lemma grid_eq_refl (g : list (list Q)) : grid_eq g g.
Proof. induction g; constructor; auto. apply Forall2_Qeq_refl. Qed.

Lemma upd_zero_row (v : Q) (c : nat) (row : list Q) :
  v == 0 -> Forall2 Qeq (upd c (fun x => x + v) row) row.
Proof.
  intros Hv. revert c. induction row as [|x row IH]; intros [|c]; simpl;
    constructor; auto using Forall2_Qeq_refl; try reflexivity.
  rewrite Hv. ring.
Qed.

(** Accumulating a zero value leaves every entry as it was. *)
Lemma add_at_zero (g : list (list Q)) (r c : nat) (v : Q) :
  v == 0 -> grid_eq (add_at Qplus g r c v) g.
Proof.
  intros Hv. unfold add_at, grid_eq. revert r.
  induction g as [|row g IH]; intros [|r]; simpl; constructor;
    auto using Forall2_Qeq_refl.
  - now apply upd_zero_row.
  - apply grid_eq_refl.
Qed.

(** ** The Integrator returns *)

Lemma psf_range_finite (ps : Q) (ks : Z) (pts : list vec2) :
  (2 <= ks)%Z -> ~ ps == 0 ->
  finite_indices (psf_range ps ks) (psf_range ps ks) pts = true.
Proof.
  intros Hks Hps. destruct pts as [|p pts]; auto.
  apply inject_Z_ge2 in Hks. unfold finite_indices, psf_range. cbn [fst snd].
  revert Hks. generalize (inject_Z ks) as K. intros K HK.
  assert (Hne : ~ (K - 1) * ps == 0).
  { intros E. apply Qmult_integral in E as [E|E]; [lra | contradiction]. }
  apply andb_true_iff. split; apply negb_true_iff, Qeq_bool_false_iff;
    intros E; apply Hne.
  - setoid_replace ((K - 1) * ps)
      with (- ((- K / 2 + (1 # 2)) * ps - (K / 2 - (1 # 2)) * ps)) by field.
    rewrite E. reflexivity.
  - setoid_replace ((K - 1) * ps)
      with ((K / 2 - (1 # 2)) * ps - (- K / 2 + (1 # 2)) * ps) by field.
    exact E.
Qed.

Lemma Qsum_nonneg (l : list Q) : Forall (fun r => 0 <= r) l -> 0 <= Qsum l.
Proof.
  induction 1 as [|x l Hx Hl IH]; unfold Qsum in *; simpl; lra.
Qed.

Section Returns.
Variable exp_i : Q -> complex.
Variable EPSILON : Q.
Hypothesis EPSILON_pos : 0 < EPSILON.

(** The epsilon guard: the denominator of the centroid is positive. *)
Lemma centroid_den_pos (samples : list ray_sample) :
  Forall unit_weight samples ->
  0 < centroid_den EPSILON (map ray_ra samples).
Proof.
  intros H. unfold centroid_den.
  assert (0 <= Qsum (map ray_ra samples)); [|lra].
  apply Qsum_nonneg, Forall_map. eapply Forall_impl; [|exact H].
  intros s [? ?]. assumption.
Qed.

Lemma centre_finite_ok samples pointc_ref :
  Forall unit_weight samples ->
  centre_finite EPSILON (map ray_ra samples) pointc_ref = true.
Proof.
  intros H. destruct pointc_ref as [c|]; simpl; auto.
  apply orb_true_iff. right. apply negb_true_iff, Qeq_bool_false_iff.
  pose proof (centroid_den_pos samples H). lra.
Qed.

Lemma point_call_returns samples ps ks pointc_ref :
  (2 <= ks)%Z -> ~ ps == 0 -> Forall unit_weight samples ->
  exists g,
    point_call exp_i EPSILON samples ps ks pointc_ref = Ok (RealGrid g).
Proof.
  intros Hks Hps Hw. unfold point_call.
  rewrite centre_finite_ok by assumption.
  destruct (splat_returns exp_i
              (points_masked1 EPSILON ps ks samples pointc_ref) ks
              (psf_range ps ks) (psf_range ps ks)
              (ra1 EPSILON ps ks samples pointc_ref) true None None
              (Some (map obliq_of samples)) (589#1000)) as [g Eg].
  - rewrite points_masked1_length, ra1_length. reflexivity.
  - exact Hks.
  - now apply psf_range_finite.
  - apply windowed_in_grid; auto.
    now apply points_masked1_windowed.
  - rewrite Eg. now exists g.
Qed.

(** With weights in [0, 1], a valid kernel size and a non-zero pixel
    size, [forward_integral] returns: no call of the Splatter raises. *)
Lemma forward_integral_returns ray ps ks pointc_ref interpolate :
  (2 <= ks)%Z -> ~ ps == 0 -> weights_in_unit ray ->
  match ray with
  | RayPoint _ => True
  | RayBatch N samples => (0 < N)%nat /\ rows_of_length N samples
  end ->
  exists psf,
    forward_integral exp_i EPSILON ray ps ks pointc_ref interpolate = Ok psf.
Proof.
  intros Hks Hps Hw Hshape. destruct ray as [samples | N samples].
  - rewrite forward_integral_point.
    destruct (point_call_returns samples ps ks pointc_ref) as [g Eg]; auto.
    rewrite Eg. cbn [bind]. eauto.
  - destruct Hshape as [HN Hrows]. rewrite forward_integral_batch.
    destruct (mapM_seq_ok
                (batch_call exp_i EPSILON N samples ps ks pointc_ref) N 0)
      as (ys & Eys & Hl).
    { intros i Hi. simpl. rewrite batch_call_col by assumption.
      destruct (point_call_returns (col dflt_sample i samples) ps ks
                                   pointc_ref) as [g Eg]; eauto.
      apply Forall_col; auto. unfold unit_weight; simpl. lra. }
    rewrite Eys. cbn [bind]. destruct ys; [simpl in Hl; lia | eauto].
Qed.
End Returns.

(** ** Points of a ray bundle *)

Lemma nth_map_seq {A : Type} (f : nat -> A) (d : A) (N i : nat) :
  (i < N)%nat -> nth i (map f (seq 0 N)) d = f i.
Proof.
  intros Hi. rewrite (nth_indep _ d (f 0%nat)) by (now rewrite length_map, length_seq).
  rewrite (map_nth f (seq 0 N) 0%nat). now rewrite seq_nth.
Qed.

Section PerPoint.
Variable EPSILON : Q.

Lemma nth_splatter_shifts ray pointc_ref i :
  ray_shape ray -> (i < point_count ray)%nat ->
  nth i (splatter_shifts EPSILON ray pointc_ref) []
  = points_shift1 EPSILON (point_samples ray i) pointc_ref.
Proof.
  intros Hs Hi. destruct ray as [samples | N samples]; simpl in *.
  - now replace i with 0%nat by lia.
  - rewrite nth_map_seq by assumption.
    unfold points_shiftN, points_shift1.
    rewrite col_shift; auto using rows_map.
    + now rewrite (col_map point_of dflt_sample vzero N),
                  (col_map ray_ra dflt_sample 0 N) by assumption.
    + now rewrite !length_map.
Qed.

Lemma nth_splatter_weights ray ps ks pointc_ref i :
  ray_shape ray -> (i < point_count ray)%nat ->
  nth i (splatter_weights EPSILON ray ps ks pointc_ref) []
  = ra1 EPSILON ps ks (point_samples ray i) pointc_ref.
Proof.
  intros Hs Hi. destruct ray as [samples | N samples]; simpl in *.
  - now replace i with 0%nat by lia.
  - rewrite nth_map_seq by assumption. now apply col_masked.
Qed.

Lemma nth_splatter_points ray ps ks pointc_ref i :
  ray_shape ray -> (i < point_count ray)%nat ->
  nth i (splatter_points EPSILON ray ps ks pointc_ref) []
  = points_masked1 EPSILON ps ks (point_samples ray i) pointc_ref.
Proof.
  intros Hs Hi. destruct ray as [samples | N samples]; simpl in *.
  - now replace i with 0%nat by lia.
  - rewrite nth_map_seq by assumption. now apply col_masked.
Qed.
End PerPoint.

(** * The claims *)

(** ** C9 *)

(** C9. The arguments [obliq], [d] and [wvln] have no effect on the result
    of [assign_points_to_pixels]: two calls that agree on [points], [ks],
    the ranges, [ra], [interpolate], [coherent] and [phase] return the same
    grid (or raise the same exception), in every mode. *)
Theorem obliq_d_wvln_unused (exp_i : Q -> complex) points ks x_range y_range
        ra interpolate coherent phase d d' obliq obliq' wvln wvln' :
  assign_points_to_pixels exp_i points ks x_range y_range ra interpolate
                          coherent phase d obliq wvln
  = assign_points_to_pixels exp_i points ks x_range y_range ra interpolate
                            coherent phase d' obliq' wvln'.
Proof. reflexivity. Qed.

(** ** C2 *)

(** C2. Energy conservation of the Splatter (incoherent mode, both values
    of [interpolate]): for a sample set with one weight per point whose
    lattice indices all lie in the grid, every grid returned has the sum of
    the weights as the sum of its entries; and a grid is returned whenever
    the kernel size is at least 2 and the coordinates are finite. *)
Theorem energy_conservation (exp_i : Q -> complex) points ks x_range y_range
        ra interpolate phase d obliq wvln :
  length points = length ra ->
  Forall (in_grid ks interpolate)
         (pixel_indices_float ks x_range y_range points) ->
  (forall G,
      assign_points_to_pixels exp_i points ks x_range y_range ra interpolate
                              false phase d obliq wvln = Ok G ->
      exists g, G = RealGrid g /\ grid_shape ks g /\ grid_sum g == Qsum ra)
  /\ ((2 <= ks)%Z -> finite_indices x_range y_range points = true ->
      exists g,
        assign_points_to_pixels exp_i points ks x_range y_range ra
                                interpolate false phase d obliq wvln
        = Ok (RealGrid g)).
Proof.
  intros Hlen Hin. split.
  - intros G HG. eapply splat_sum; eauto.
  - intros Hks Hfin. now apply splat_returns.
Qed.

(** ** C10 *)

(** C10. Non-negativity of the incoherent output: with one non-negative
    weight per point and all lattice indices in the grid, every entry of a
    returned grid is non-negative, for both values of [interpolate]; and a
    grid is returned whenever the kernel size is at least 2 and the
    coordinates are finite. *)
Theorem incoherent_nonnegative (exp_i : Q -> complex) points ks x_range
        y_range ra interpolate phase d obliq wvln :
  length points = length ra ->
  Forall (fun r => 0 <= r) ra ->
  Forall (in_grid ks interpolate)
         (pixel_indices_float ks x_range y_range points) ->
  (forall G,
      assign_points_to_pixels exp_i points ks x_range y_range ra interpolate
                              false phase d obliq wvln = Ok G ->
      exists g, G = RealGrid g /\ grid_all (fun q => 0 <= q) g)
  /\ ((2 <= ks)%Z -> finite_indices x_range y_range points = true ->
      exists g,
        assign_points_to_pixels exp_i points ks x_range y_range ra
                                interpolate false phase d obliq wvln
        = Ok (RealGrid g)).
Proof.
  intros Hlen Hra Hin. split.
  - intros G HG.
    eapply (splat_all exp_i (fun q => 0 <= q) (fun v => 0 <= v)); eauto.
    + lra.
    + intros x v Hx Hv. lra.
    + intros r Hr. eapply Forall_forall in Hra; eauto.
    + intros c r Hc Hr. apply Qmult_le_0_compat; auto.
      eapply Forall_forall in Hra; eauto.
  - intros Hks Hfin. now apply splat_returns.
Qed.

Ltac in_grid_concrete :=
  repeat (apply Forall_cons || apply Forall_nil);
  unfold in_grid; repeat split; vm_compute; discriminate.

Lemma energy_conservation_witness :
  let points : list vec2 := [(1#4, 0); (-1#2, 1#2)] in
  let ra := [1; 1#2] in
  let range := (-3#2, 3#2) in
  length points = length ra
  /\ Forall (in_grid 4 true) (pixel_indices_float 4 range range points)
  /\ (forall G,
         assign_points_to_pixels exp_i_unit points 4 range range ra true
                                 false None None None (589#1000) = Ok G ->
         exists g, G = RealGrid g /\ grid_shape 4 g /\ grid_sum g == Qsum ra)
  /\ ((2 <= 4)%Z -> finite_indices range range points = true ->
      exists g,
        assign_points_to_pixels exp_i_unit points 4 range range ra true false
                                None None None (589#1000) = Ok (RealGrid g)).
Proof.
  intros points ra range.
  assert (H1 : length points = length ra) by reflexivity.
  assert (H2 : Forall (in_grid 4 true)
                      (pixel_indices_float 4 range range points))
    by in_grid_concrete.
  split; [exact H1|]. split; [exact H2|].
  exact (energy_conservation exp_i_unit points 4 range range ra true None
                             None None (589#1000) H1 H2).
Defined.

Lemma incoherent_nonnegative_witness :
  let points : list vec2 := [(1#4, 0); (-1#2, 1#2)] in
  let ra := [1; 1#2] in
  let range := (-3#2, 3#2) in
  length points = length ra
  /\ Forall (fun r => 0 <= r) ra
  /\ Forall (in_grid 4 false) (pixel_indices_float 4 range range points)
  /\ (forall G,
         assign_points_to_pixels exp_i_unit points 4 range range ra false
                                 false None None None (589#1000) = Ok G ->
         exists g, G = RealGrid g /\ grid_all (fun q => 0 <= q) g)
  /\ ((2 <= 4)%Z -> finite_indices range range points = true ->
      exists g,
        assign_points_to_pixels exp_i_unit points 4 range range ra false
                                false None None None (589#1000)
        = Ok (RealGrid g)).
Proof.
  intros points ra range.
  assert (H1 : length points = length ra) by reflexivity.
  assert (H2 : Forall (fun r => 0 <= r) ra)
    by (repeat constructor; discriminate).
  assert (H3 : Forall (in_grid 4 false)
                      (pixel_indices_float 4 range range points))
    by in_grid_concrete.
  split; [exact H1|]. split; [exact H2|]. split; [exact H3|].
  exact (incoherent_nonnegative exp_i_unit points 4 range range ra false None
                                None None (589#1000) H1 H2 H3).
Defined.

(** ** C3 *)

(** C3. Masking prevents boundary overflow.  For a ray bundle with weights
    in [0, 1], a kernel size of at least 2 and a non-zero pixel size, every
    sample of every call of the Splatter made by [forward_integral]
    (samples with a zeroed weight included) has its lattice indices, the
    floor and in interpolated mode the floor plus one on each axis, within
    [0, ks-1]; hence, with a positive [EPSILON] and a well-shaped bundle of
    at least one point, [forward_integral] returns and no call raises. *)
Theorem masking_prevents_overflow (exp_i : Q -> complex) (EPSILON : Q) ray ps
        ks pointc_ref interpolate :
  (2 <= ks)%Z -> ~ ps == 0 -> weights_in_unit ray ->
  Forall (fun pts =>
            Forall (in_grid ks interpolate)
                   (pixel_indices_float ks (psf_range ps ks) (psf_range ps ks)
                                        pts))
         (splatter_points EPSILON ray ps ks pointc_ref)
  /\ (0 < EPSILON -> ray_shape ray -> (0 < point_count ray)%nat ->
      exists psf,
        forward_integral exp_i EPSILON ray ps ks pointc_ref interpolate
        = Ok psf).
Proof.
  intros Hks Hps Hw. split.
  - pose proof (splatter_points_windowed EPSILON ray ps ks pointc_ref Hks Hw)
      as H.
    eapply Forall_impl; [|exact H].
    intros pts Hpts. now apply windowed_in_grid.
  - intros Heps Hshape Hcount. apply forward_integral_returns; auto.
    destruct ray; simpl in *; auto.
Qed.

Lemma masking_prevents_overflow_witness :
  let ray :=
    RayBatch 2 [[sample_at (1#4) 0 1; sample_at 1 1 (1#2)];
                [sample_at (-7#4) 0 1; sample_at (5#4) 1 (1#2)]] in
  (2 <= 4)%Z /\ ~ 1 == 0 /\ weights_in_unit ray
  /\ (Forall (fun pts =>
                Forall (in_grid 4 true)
                       (pixel_indices_float 4 (psf_range 1 4) (psf_range 1 4)
                                            pts))
             (splatter_points EPS12 ray 1 4 None)
      /\ (0 < EPS12 -> ray_shape ray -> (0 < point_count ray)%nat ->
          exists psf,
            forward_integral exp_i_unit EPS12 ray 1 4 None true = Ok psf)).
Proof.
  intros ray.
  assert (H1 : (2 <= 4)%Z) by discriminate.
  assert (H2 : ~ 1 == 0) by discriminate.
  assert (H3 : weights_in_unit ray).
  { repeat constructor; discriminate. }
  split; [exact H1|]. split; [exact H2|]. split; [exact H3|].
  exact (masking_prevents_overflow exp_i_unit EPS12 ray 1 4 None true
                                   H1 H2 H3).
Defined.

(** The bound on the weights is used: line 38 multiplies the positions by
    the weights, so a weight of 2, outside the data model, carries a sample
    that passed the mask at 1.4 to 2.8 and out of the 4 by 4 grid. *)
Example weight_above_one_overflows :
  forward_integral exp_i_unit EPS12 (RayPoint [sample_at (-14#10) 0 2]) 1 4
                   (Some (0, 0)) true = Raise IndexError.
Proof. vm_compute. reflexivity. Qed.

(** ** C4 *)






(** A sample on the centre is handed over unchanged whatever its weight:
    the extracted point is the centre (0, 0), the weight 1/2. *)
Example sample_on_centre_stays :
  let ray := RayPoint [sample_at 0 0 (1#2)] in
  let w :=
    nth 0 (nth 0 (splatter_weights EPS12 ray 1 4 (Some (0, 0))) []) 0 in
  let p :=
    nth 0 (nth 0 (splatter_points EPS12 ray 1 4 (Some (0, 0))) []) vzero in
  w == 1#2 /\ fst p == 0 /\ snd p == 0.
Proof. vm_compute. repeat split. Qed.

(** ** C6 *)

(** C6. Per-point independence and order preservation.  For a batch whose
    rows all hold [N] samples, a returned result is a stack of [N] grids
    whose entry [i] is the grid [forward_integral] returns for the samples
    of point [i] alone; and the batch returns whenever [N] is positive and
    every point alone returns. *)
Theorem per_point_independence (exp_i : Q -> complex) (EPSILON : Q) N samples
        ps ks pointc_ref interpolate :
  rows_of_length N samples ->
  (forall psf,
      forward_integral exp_i EPSILON (RayBatch N samples) ps ks pointc_ref
                       interpolate = Ok psf ->
      exists l,
        psf = PsfStack l /\ length l = N
        /\ forall i, (i < N)%nat ->
             forward_integral exp_i EPSILON
                              (RayPoint (col dflt_sample i samples)) ps ks
                              pointc_ref interpolate
             = Ok (PsfGrid (nth i l (RealGrid []))))
  /\ ((0 < N)%nat ->
      (forall i, (i < N)%nat ->
         exists g,
           forward_integral exp_i EPSILON
                            (RayPoint (col dflt_sample i samples)) ps ks
                            pointc_ref interpolate = Ok (PsfGrid g)) ->
      exists l,
        forward_integral exp_i EPSILON (RayBatch N samples) ps ks pointc_ref
                         interpolate = Ok (PsfStack l)).
Proof.
  intros Hrows. split.
  - intros psf H. rewrite forward_integral_batch in H.
    run_bind H l El.
    apply (mapM_seq_nth _ (RealGrid [])) in El as [Hl Hn].
    destruct l as [|g l]; [discriminate|]. injection H as <-.
    exists (g :: l). repeat split; auto.
    intros i Hi. rewrite forward_integral_point.
    rewrite <- (batch_call_col exp_i EPSILON N) by assumption.
    specialize (Hn i Hi). simpl in Hn. now rewrite Hn.
  - intros HN Hall. rewrite forward_integral_batch.
    destruct (mapM_seq_ok
                (batch_call exp_i EPSILON N samples ps ks pointc_ref) N 0)
      as (ys & Eys & Hl).
    { intros i Hi. simpl. rewrite batch_call_col by assumption.
      destruct (Hall i Hi) as [g Hg]. rewrite forward_integral_point in Hg.
      run_bind Hg g' Eg'. now exists g'. }
    rewrite Eys. cbn [bind]. destruct ys; [simpl in Hl; lia | eauto].
Qed.

Lemma per_point_independence_witness :
  let samples :=
    [[sample_at (1#4) 0 1; sample_at 1 1 (1#2)];
     [sample_at (-7#4) 0 1; sample_at (5#4) 1 (1#2)]] in
  rows_of_length 2 samples
  /\ (forall psf,
         forward_integral exp_i_unit EPS12 (RayBatch 2 samples) 1 4 None
                          false = Ok psf ->
         exists l,
           psf = PsfStack l /\ length l = 2%nat
           /\ forall i, (i < 2)%nat ->
                forward_integral exp_i_unit EPS12
                                 (RayPoint (col dflt_sample i samples)) 1 4
                                 None false
                = Ok (PsfGrid (nth i l (RealGrid []))))
  /\ ((0 < 2)%nat ->
      (forall i, (i < 2)%nat ->
         exists g,
           forward_integral exp_i_unit EPS12
                            (RayPoint (col dflt_sample i samples)) 1 4 None
                            false = Ok (PsfGrid g)) ->
      exists l,
        forward_integral exp_i_unit EPS12 (RayBatch 2 samples) 1 4 None false
        = Ok (PsfStack l)).
Proof.
  intros samples.
  assert (H1 : rows_of_length 2 samples) by (repeat constructor).
  split; [exact H1|].
  exact (per_point_independence exp_i_unit EPS12 2 samples 1 4 None false H1).
Defined.

(** ** C7 *)

Lemma require_finite_inv {A : Type} (fin : bool) (r : result A) (a : A) :
  require_finite fin r = Ok a -> r = Ok a.
Proof.
  unfold require_finite. destruct r; [|discriminate].
  destruct fin; [auto | discriminate].
Qed.

Lemma zero_weight_unit (s : ray_sample) : ray_ra s == 0 -> unit_weight s.
Proof. unfold unit_weight. intros ->. split; discriminate. Qed.

Lemma ra1_zero (EPSILON : Q) ps ks samples pointc_ref :
  Forall (fun s => ray_ra s == 0) samples ->
  Forall (fun r => r == 0) (ra1 EPSILON ps ks samples pointc_ref).
Proof.
  intros H. unfold ra1. apply Forall_zipWith. intros r s Hr _.
  apply in_map_iff in Hr as (x & <- & Hx).
  eapply Forall_forall in H; eauto. cbv beta in H.
  unfold mask_ra. rewrite H. ring.
Qed.

(** C7. Degenerate inputs degrade to zero without error.  For a kernel
    size of at least 2: an empty sample set makes [assign_points_to_pixels]
    return the all-zero [ks] by [ks] grid, in every mode (the coherent mode
    being given its empty phase tensor); and for a bundle whose weights are
    all zero, a non-zero pixel size and a positive [EPSILON], the
    denominator of the centroid is not zero and [forward_integral] returns
    a [ks] by [ks] grid whose entries are all zero. *)
Theorem degenerate_inputs_give_zero_grid (exp_i : Q -> complex) (EPSILON : Q)
        ks samples ps pointc_ref x_range y_range interpolate interpolate'
        phase d obliq wvln :
  (2 <= ks)%Z -> ~ ps == 0 -> 0 < EPSILON ->
  Forall (fun s => ray_ra s == 0) samples ->
  assign_points_to_pixels exp_i [] ks x_range y_range [] interpolate false
                          phase d obliq wvln
  = Ok (RealGrid (repeat (repeat 0 (Z.to_nat ks)) (Z.to_nat ks)))
  /\ assign_points_to_pixels exp_i [] ks x_range y_range [] interpolate true
                             (Some []) d obliq wvln
     = Ok (if interpolate
           then ComplexGrid (repeat (repeat czero (Z.to_nat ks)) (Z.to_nat ks))
           else RealGrid (repeat (repeat 0 (Z.to_nat ks)) (Z.to_nat ks)))
  /\ ~ centroid_den EPSILON (map ray_ra samples) == 0
  /\ exists g,
      forward_integral exp_i EPSILON (RayPoint samples) ps ks pointc_ref
                       interpolate' = Ok (PsfGrid (RealGrid g))
      /\ grid_shape ks g /\ grid_all (fun q => q == 0) g.
Proof.
  intros Hks Hps Heps Hzero.
  assert (Hk : ((ks - 1 =? 0) = false)%Z) by (apply Z.eqb_neq; lia).
  assert (Hunit : Forall unit_weight samples).
  { eapply Forall_impl; [|exact Hzero]. apply zero_weight_unit. }
  repeat split.
  - unfold assign_points_to_pixels. rewrite Hk. cbv zeta.
    rewrite zeros_ok by lia. now destruct interpolate.
  - unfold assign_points_to_pixels. rewrite Hk. cbv zeta.
    rewrite !zeros_ok by lia. now destruct interpolate.
  - pose proof (centroid_den_pos EPSILON Heps samples Hunit). lra.
  - destruct (point_call_returns exp_i EPSILON Heps samples ps ks pointc_ref)
      as [g Eg]; auto.
    exists g. rewrite forward_integral_point, Eg. cbn [bind].
    split; [reflexivity|].
    apply require_finite_inv in Eg.
    assert (Hlen : length (points_masked1 EPSILON ps ks samples pointc_ref)
                   = length (ra1 EPSILON ps ks samples pointc_ref))
      by now rewrite points_masked1_length, ra1_length.
    pose proof (ra1_zero EPSILON ps ks samples pointc_ref Hzero) as Hra.
    split.
    + destruct (splat_sum exp_i _ _ _ _ _ _ _ _ _ _ _ Hlen Eg)
        as (g' & [= <-] & Hs & _). exact Hs.
    + assert (Hstep : forall x v : Q, x == 0 -> v == 0 -> x + v == 0)
        by (intros x v Hx Hv; lra).
      assert (Hin : forall r, In r (ra1 EPSILON ps ks samples pointc_ref) ->
                              r == 0)
        by (apply Forall_forall; exact Hra).
      assert (Hval : forall c r, 0 <= c ->
                       In r (ra1 EPSILON ps ks samples pointc_ref) ->
                       c * r == 0)
        by (intros c r _ Hr; rewrite (Hin r Hr); ring).
      destruct (splat_all exp_i (fun q => q == 0) (fun v => v == 0)
                          _ _ _ _ _ _ _ _ _ _ _
                          (Qeq_refl 0) Hstep Hin Hval Hlen Eg)
        as (g' & [= <-] & Hall).
      exact Hall.
Qed.

Lemma degenerate_inputs_give_zero_grid_witness :
  let samples := [sample_at (1#4) 0 0; sample_at 3 (-1) 0] in
  (2 <= 4)%Z /\ ~ 1 == 0 /\ 0 < EPS12
  /\ Forall (fun s => ray_ra s == 0) samples
  /\ assign_points_to_pixels exp_i_unit [] 4 (0, 0) (0, 0) [] true false None
                             None None (589#1000)
     = Ok (RealGrid (repeat (repeat 0 (Z.to_nat 4)) (Z.to_nat 4)))
  /\ assign_points_to_pixels exp_i_unit [] 4 (0, 0) (0, 0) [] true true
                             (Some []) None None (589#1000)
     = Ok (if true
           then ComplexGrid (repeat (repeat czero (Z.to_nat 4)) (Z.to_nat 4))
           else RealGrid (repeat (repeat 0 (Z.to_nat 4)) (Z.to_nat 4)))
  /\ ~ centroid_den EPS12 (map ray_ra samples) == 0
  /\ exists g,
      forward_integral exp_i_unit EPS12 (RayPoint samples) 1 4 None false
      = Ok (PsfGrid (RealGrid g))
      /\ grid_shape 4 g /\ grid_all (fun q => q == 0) g.
Proof.
  intros samples.
  assert (H1 : (2 <= 4)%Z) by discriminate.
  assert (H2 : ~ 1 == 0) by discriminate.
  assert (H3 : 0 < EPS12) by reflexivity.
  assert (H4 : Forall (fun s => ray_ra s == 0) samples)
    by (repeat constructor).
  split; [exact H1|]. split; [exact H2|]. split; [exact H3|].
  split; [exact H4|].
  exact (degenerate_inputs_give_zero_grid exp_i_unit EPS12 4 samples 1 None
           (0, 0) (0, 0) true false None None None (589#1000) H1 H2 H3 H4).
Defined.

(** ** C8 *)

Lemma expand_to_length {A : Type} (n : nat) (v a : list A) :
  expand_to n v = Ok a -> length a = n.
Proof.
  unfold expand_to. destruct (length v =? n)%nat eqn:E.
  - intros [= <-]. now apply Nat.eqb_eq.
  - destruct v as [|x [|y v]]; try discriminate.
    intros [= <-]. apply repeat_length.
Qed.

Lemma zeros_negative {A : Type} (z : A) (ks : Z) :
  (ks < 0)%Z -> zeros z ks = Raise RuntimeError.
Proof.
  intros H. unfold zeros. destruct (ks <? 0)%Z eqn:E; auto. lia.
Qed.

(** No [index_put_] with at least one index succeeds on a grid without
    cells. *)
Lemma index_put_empty_grid {A : Type} (add : A -> A -> A) (g : grid)
      (indices : list (Z * Z)) (values : list A) :
  indices <> [] -> exists e, index_put_ add 0 g indices values = Raise e.
Proof.
  intros Hne. unfold index_put_.
  destruct (expand_to (length indices) values) as [vs|e] eqn:E; cbn [bind];
    [|eauto].
  apply expand_to_length in E. rewrite accumulate_empty_grid; eauto.
  destruct indices, vs; simpl in *; congruence.
Qed.

Ltac step_raise :=
  match goal with
  | |- exists e, bind ?m _ = Raise e =>
      let E := fresh "E" in
      destruct m eqn:E; cbn [bind]; [|eexists; reflexivity]
  end.

Ltac put_raises :=
  match goal with
  | |- exists e, bind (index_put_ ?add 0 ?g ?idx ?v) _ = Raise e =>
      let e' := fresh "e" in
      let He := fresh "He" in
      destruct (index_put_empty_grid add g idx v) as [e' He];
      [discriminate | rewrite He; cbn [bind]; eexists; reflexivity]
  end.

(** C8, as stated, fails: with a kernel size of 0 and no sample, the
    Splatter returns the grid without cells, in both incoherent modes. *)
Lemma empty_kernel_empty_samples_returns :
  (0 < 2)%Z
  /\ assign_points_to_pixels exp_i_unit [] 0 (-1#2, 1#2) (-1#2, 1#2) [] true
                             false None None None (589#1000)
     = Ok (RealGrid [])
  /\ assign_points_to_pixels exp_i_unit [] 0 (-1#2, 1#2) (-1#2, 1#2) [] false
                             false None None None (589#1000)
     = Ok (RealGrid []).
Proof. repeat split. Qed.

(** C8, amended.  A kernel size below 2 makes [assign_points_to_pixels]
    raise, except for kernel size 0 with an empty sample set: kernel size 1
    raises [ZeroDivisionError] for every input, a negative kernel size
    raises for every input, and kernel size 0 raises as soon as there is a
    sample. *)
Theorem invalid_kernel_size_fails (exp_i : Q -> complex) points ks x_range
        y_range ra interpolate coherent phase d obliq wvln :
  (ks < 2)%Z -> (ks = 0%Z -> points <> []) ->
  (exists e,
      assign_points_to_pixels exp_i points ks x_range y_range ra interpolate
                              coherent phase d obliq wvln = Raise e)
  /\ (ks = 1%Z ->
      assign_points_to_pixels exp_i points ks x_range y_range ra interpolate
                              coherent phase d obliq wvln
      = Raise ZeroDivisionError).
Proof.
  intros Hks Hpts. split; [|intros ->; reflexivity].
  destruct (Z.eq_dec ks 1) as [-> | H1]; [eexists; reflexivity|].
  unfold assign_points_to_pixels.
  replace (ks - 1 =? 0)%Z with false by (symmetry; apply Z.eqb_neq; lia).
  cbv zeta.
  destruct (Z.eq_dec ks 0) as [-> | H0].
  - destruct points as [|p points]; [now elim Hpts|].
    unfold zeros. cbn [Z.ltb Z.compare Z.to_nat repeat bind].
    destruct interpolate; [destruct coherent|].
    + step_raise. step_raise. step_raise. step_raise. put_raises.
    + step_raise. step_raise. put_raises.
    + step_raise. put_raises.
  - rewrite !zeros_negative by lia.
    destruct interpolate; [destruct coherent|]; eexists; reflexivity.
Qed.

Lemma invalid_kernel_size_fails_witness :
  (0 < 2)%Z /\ (0%Z = 0%Z -> [(0, 0)] <> (@nil vec2))
  /\ (exists e,
         assign_points_to_pixels exp_i_unit [(0, 0)] 0 (-1#2, 1#2)
                                 (-1#2, 1#2) [1] true false None None None
                                 (589#1000) = Raise e)
  /\ (0%Z = 1%Z ->
      assign_points_to_pixels exp_i_unit [(0, 0)] 0 (-1#2, 1#2) (-1#2, 1#2)
                              [1] true false None None None (589#1000)
      = Raise ZeroDivisionError).
Proof.
  assert (H1 : (0 < 2)%Z) by reflexivity.
  assert (H2 : 0%Z = 0%Z -> [(0, 0)] <> (@nil vec2)) by (intros _; discriminate).
  split; [exact H1|]. split; [exact H2|].
  exact (invalid_kernel_size_fails exp_i_unit [(0, 0)] 0 (-1#2, 1#2)
           (-1#2, 1#2) [1] true false None None None (589#1000) H1 H2).
Defined.

(** ** C1 *)

(** With four samples of weight 1 on the four inner lattice points of a
    4 by 4 kernel, [forward_integral] called with [interpolate=False]
    returns 1 at those four cells and 0 elsewhere: on lattice points the
    bilinear shares are 1, 0, 0, 0. *)
Example four_centres_scenario :
  exists g,
    forward_integral exp_i_unit EPS12
      (RayPoint [sample_at (1#2) (1#2) 1; sample_at (-1#2) (1#2) 1;
                 sample_at (1#2) (-1#2) 1; sample_at (-1#2) (-1#2) 1])
      1 4 None false = Ok (PsfGrid (RealGrid g))
    /\ Forall2 (Forall2 Qeq) g
               [[0; 0; 0; 0]; [0; 1; 1; 0]; [0; 1; 1; 0]; [0; 0; 0; 0]].
Proof.
  eexists. split; [vm_compute; reflexivity|].
  repeat constructor.
Qed.

(** C1. [forward_integral] does not forward [interpolate]: its result is
    the one obtained with [interpolate=True], whatever the argument.  On
    one sample of weight 1 at (-1/4, 0), pixel size 1, kernel size 4 and
    reference centre (0, 0), the call with [interpolate=False] spreads the
    weight over four cells (3/8, 1/8, 3/8, 1/8), whereas the nearest-cell
    rasterisation of the samples it hands to the Splatter puts the whole
    weight 1 in cell (1, 1). *)
Theorem forward_integral_ignores_interpolate :
  (forall exp_i EPSILON ray ps ks pointc_ref interpolate,
      forward_integral exp_i EPSILON ray ps ks pointc_ref interpolate
      = forward_integral exp_i EPSILON ray ps ks pointc_ref true)
  /\ let samples := [sample_at (1#4) 0 1] in
     exists g g',
       forward_integral exp_i_unit EPS12 (RayPoint samples) 1 4
                        (Some (0, 0)) false = Ok (PsfGrid (RealGrid g))
       /\ assign_points_to_pixels exp_i_unit
            (points_masked1 EPS12 1 4 samples (Some (0, 0))) 4
            (psf_range 1 4) (psf_range 1 4)
            (ra1 EPS12 1 4 samples (Some (0, 0))) false false None None
            (Some (map obliq_of samples)) (589#1000) = Ok (RealGrid g')
       /\ entry g 1 1 == 3#8 /\ entry g 1 2 == 1#8
       /\ entry g 2 1 == 3#8 /\ entry g 2 2 == 1#8
       /\ entry g' 1 1 == 1 /\ entry g' 1 2 == 0
       /\ entry g' 2 1 == 0 /\ entry g' 2 2 == 0.
Proof.
  split; [reflexivity|].
  eexists. eexists.
  split; [vm_compute; reflexivity|].
  split; [vm_compute; reflexivity|].
  repeat split.
Qed.

(** * Further properties *)

(** ** Entries of an accumulated grid *)

Lemma nth_upd_same {B : Type} (n : nat) (f : B -> B) (l : list B) (d : B) :
  (n < length l)%nat -> nth n (upd n f l) d = f (nth n l d).
Proof.
  revert n; induction l as [|x l IH]; intros [|n] H; simpl in *; try lia; auto.
  apply IH. lia.
Qed.

Lemma nth_upd_other {B : Type} (m n : nat) (f : B -> B) (l : list B) (d : B) :
  m <> n -> nth n (upd m f l) d = nth n l d.
Proof.
  revert m n; induction l as [|x l IH]; intros [|m] [|n] H; simpl; auto;
    try congruence.
Qed.

Lemma entry_add_at (ks : Z) (g : list (list Q)) (r' c' r c : nat) (v : Q) :
  grid_shape ks g -> (r' < Z.to_nat ks)%nat -> (c' < Z.to_nat ks)%nat ->
  entry (add_at Qplus g r' c' v) r c
  == entry g r c + (if (r' =? r)%nat && (c' =? c)%nat then v else 0).
Proof.
  intros [Hl Hrows] Hr Hc. unfold entry, add_at.
  destruct (Nat.eqb_spec r' r) as [-> | Hne]; cbn [andb].
  - rewrite nth_upd_same by lia.
    destruct (Nat.eqb_spec c' c) as [-> | Hnc].
    + rewrite nth_upd_same; [reflexivity|].
      assert (Hin : In (nth r g []) g) by (apply nth_In; lia).
      rewrite (proj1 (Forall_forall _ _) Hrows _ Hin). exact Hc.
    + rewrite nth_upd_other by assumption. ring.
  - rewrite nth_upd_other by assumption. ring.
Qed.

Lemma cell_is_wrapped (ks : Z) (r c r' c' : nat) (i j : Z) :
  wrap_index ks i = Some r' -> wrap_index ks j = Some c' ->
  cell_is ks r c (i, j) = (r' =? r)%nat && (c' =? c)%nat.
Proof. intros Hi Hj. unfold cell_is. cbn [fst snd]. now rewrite Hi, Hj. Qed.

(** After an accumulation, every entry has grown by the values addressed
    to it. *)
Lemma accumulate_entry (ks : Z) (r c : nat) indices :
  forall values g g',
    grid_shape ks g ->
    accumulate Qplus ks g (combine indices values) = Ok g' ->
    entry g' r c == entry g r c + hits ks r c indices values.
Proof.
  induction indices as [|[i j] indices IH]; intros [|v values] g g' Hg H;
    simpl in H; try (injection H as <-; simpl; ring).
  destruct (wrap_index ks i) as [r'|] eqn:Er; [|discriminate].
  destruct (wrap_index ks j) as [c'|] eqn:Ec; [|discriminate].
  apply IH in H; [|now apply add_at_shape].
  rewrite H.
  rewrite (entry_add_at ks g r' c' r c v Hg (wrap_index_lt _ _ _ Er)
                        (wrap_index_lt _ _ _ Ec)).
  cbn [hits]. rewrite (cell_is_wrapped ks r c r' c' i j Er Ec). ring.
Qed.

Lemma entry_zeros (n m r c : nat) : entry (repeat (repeat 0 n) m) r c == 0.
Proof.
  unfold entry.
  destruct (Nat.lt_ge_cases r m) as [Hr|Hr].
  - rewrite nth_repeat_lt by assumption.
    destruct (Nat.lt_ge_cases c n) as [Hc|Hc].
    + now rewrite nth_repeat_lt.
    + rewrite nth_overflow; [reflexivity | now rewrite repeat_length].
  - rewrite (nth_overflow _ _ (n := r)) by (now rewrite repeat_length).
    now destruct c.
Qed.

Lemma hits_ext (ks : Z) (r c : nat) indices :
  forall values values',
    Forall2 Qeq values values' ->
    hits ks r c indices values == hits ks r c indices values'.
Proof.
  induction indices as [|ij indices IH]; intros values values' H;
    [destruct values, values'; reflexivity|].
  destruct H as [|v v' values values' Hv H]; [reflexivity|].
  cbn [hits]. rewrite (IH _ _ H). destruct (cell_is ks r c ij); rewrite ?Hv;
    reflexivity.
Qed.


Lemma hits_app (ks : Z) (r c : nat) i1 :
  forall v1 i2 v2, length i1 = length v1 ->
    hits ks r c (i1 ++ i2) (v1 ++ v2)
    == hits ks r c i1 v1 + hits ks r c i2 v2.
Proof.
  induction i1 as [|ij i1 IH]; intros [|v v1] i2 v2 H; simpl in *;
    try discriminate; [ring|].
  rewrite IH by lia. ring.
Qed.

(** ** When the Splatter returns *)

Lemma wrap_index_accepts (ks i : Z) :
  (0 <= ks)%Z ->
  (exists r, wrap_index ks i = Some r) <-> (- ks <= i <= ks - 1)%Z.
Proof.
  intros Hks. unfold wrap_index.
  destruct ((0 <=? i) && (i <? ks))%Z eqn:E1.
  - apply andb_true_iff in E1 as [? ?]. split; [lia | eauto].
  - destruct ((- ks <=? i) && (i <? 0))%Z eqn:E2.
    + apply andb_true_iff in E2 as [? ?]. split; [lia | eauto].
    + apply andb_false_iff in E1, E2. split.
      * intros [r Hr]. discriminate.
      * intros H. exfalso. destruct E1, E2; lia.
Qed.

(** An accumulation returns when every index pair is accepted and raises
    [IndexError] otherwise. *)
Lemma accumulate_result (ks : Z) indices :
  (0 <= ks)%Z ->
  forall (values : list Q) g,
    length indices = length values ->
    (Forall (accepted_index ks) indices
     /\ exists g', accumulate Qplus ks g (combine indices values) = Ok g')
    \/ (~ Forall (accepted_index ks) indices
        /\ accumulate Qplus ks g (combine indices values) = Raise IndexError).
Proof.
  intros Hks. induction indices as [|[i j] indices IH];
    intros [|v values] g Hlen; simpl in Hlen; try discriminate.
  - left. split; [constructor | now exists g].
  - simpl.
    destruct (wrap_index ks i) as [r|] eqn:Er.
    + destruct (wrap_index ks j) as [c|] eqn:Ec.
      * assert (Hij : accepted_index ks (i, j)).
        { split; apply wrap_index_accepts; eauto. }
        destruct (IH values (add_at Qplus g r c v) ltac:(lia))
          as [[HF Hok] | [HF Hraise]].
        -- left. split; [now constructor | exact Hok].
        -- right. split; [|exact Hraise].
           intros HF'. apply HF. now inversion HF'.
      * right. split; [|reflexivity]. intros HF. inversion HF as [|? ? [_ Hj] _].
        apply (wrap_index_accepts ks j Hks) in Hj as [c Hc]. cbn [snd] in Hc.
        congruence.
    + right. split; [|reflexivity]. intros HF. inversion HF as [|? ? [Hi _] _].
      apply (wrap_index_accepts ks i Hks) in Hi as [r Hr]. cbn [fst] in Hr.
      congruence.
Qed.

Lemma put_result ks g corner share pif ra :
  (0 <= ks)%Z -> length pif = length ra ->
  (Forall (fun p => accepted_index ks (corner p)) pif
   /\ exists g', put ks g corner share pif ra = Ok g')
  \/ (~ Forall (fun p => accepted_index ks (corner p)) pif
      /\ put ks g corner share pif ra = Raise IndexError).
Proof.
  intros Hks Hlen. unfold put.
  destruct (accumulate_result ks (map corner pif) Hks
              (zipWith Qmult (map share pif) ra) g)
    as [[HF Hok] | [HF Hraise]].
  - now rewrite length_map, values_length.
  - left. split; [now apply Forall_map | exact Hok].
  - right. split; [|exact Hraise]. intros H. apply HF. now apply Forall_map.
Qed.

Lemma accepted_corners ks pif :
  Forall (accepted ks true) pif <->
  Forall (fun p => accepted_index ks (floor_long p)) pif
  /\ Forall (fun p => accepted_index ks (corner_tr p)) pif
  /\ Forall (fun p => accepted_index ks (corner_bl p)) pif
  /\ Forall (fun p => accepted_index ks (corner_br p)) pif.
Proof.
  split.
  - intros H.
    repeat split; eapply Forall_impl; try exact H; intros p Hp;
      unfold accepted, accepted_index, corner_tr, corner_bl, corner_br,
        floor_long in *;
      cbn [fst snd] in *; rewrite ?Qfloor_succ; lia.
  - intros (Htl & _ & _ & Hbr). rewrite Forall_forall in *.
    intros p Hp. specialize (Htl p Hp). specialize (Hbr p Hp).
    unfold accepted, accepted_index, corner_br, floor_long in *.
    cbn [fst snd] in *. lia.
Qed.

Lemma accepted_nearest ks pif :
  Forall (accepted ks false) pif <->
  Forall (fun p => accepted_index ks (floor_long p)) pif.
Proof.
  split; intros H; eapply Forall_impl; try exact H; intros p Hp;
    unfold accepted, accepted_index in *; lia.
Qed.

Section SplatterResult.
Variable exp_i : Q -> complex.

Lemma assign_incoherent_result points ks xr yr ra interpolate phase d obliq
      wvln :
  length points = length ra -> (2 <= ks)%Z ->
  finite_indices xr yr points = true ->
  let pif := pixel_indices_float ks xr yr points in
  (Forall (accepted ks interpolate) pif
   /\ exists g,
       assign_points_to_pixels exp_i points ks xr yr ra interpolate false
                               phase d obliq wvln = Ok (RealGrid g))
  \/ (~ Forall (accepted ks interpolate) pif
      /\ assign_points_to_pixels exp_i points ks xr yr ra interpolate false
                                 phase d obliq wvln = Raise IndexError).
Proof.
  intros Hlen Hks Hfin pif.
  assert (Hp : length pif = length ra) by (unfold pif; now rewrite pif_length).
  assert (H0 : (0 <= ks)%Z) by lia.
  destruct interpolate.
  - rewrite assign_interp_eq by (auto; lia). cbv zeta. fold pif.
    rewrite zeros_ok by lia. rewrite Hfin. cbn [bind check_finite].
    rewrite accepted_corners.
    set (g0 := repeat _ _).
    destruct (put_result ks g0 floor_long share_tl pif ra H0 Hp)
      as [[F1 [g1 E1]] | [F1 E1]]; rewrite E1; cbn [bind];
      [|right; split; [tauto | reflexivity]].
    destruct (put_result ks g1 corner_tr share_tr pif ra H0 Hp)
      as [[F2 [g2 E2]] | [F2 E2]]; rewrite E2; cbn [bind];
      [|right; split; [tauto | reflexivity]].
    destruct (put_result ks g2 corner_bl share_bl pif ra H0 Hp)
      as [[F3 [g3 E3]] | [F3 E3]]; rewrite E3; cbn [bind];
      [|right; split; [tauto | reflexivity]].
    destruct (put_result ks g3 corner_br share_br pif ra H0 Hp)
      as [[F4 [g4 E4]] | [F4 E4]]; rewrite E4; cbn [bind];
      [|right; split; [tauto | reflexivity]].
    left. split; [tauto | now exists g4].
  - rewrite assign_nearest_eq by (auto; lia). cbv zeta. fold pif.
    rewrite zeros_ok by lia. rewrite Hfin. cbn [bind check_finite].
    rewrite accepted_nearest.
    set (g0 := repeat _ _).
    destruct (accumulate_result ks (map floor_long pif) H0 ra g0)
      as [[F1 [g1 E1]] | [F1 E1]]; try (now rewrite length_map);
      rewrite E1; cbn [bind].
    + left. split; [|now exists g1].
      exact (proj1 (Forall_map _ _ _) F1).
    + right. split; [|reflexivity]. intros H. apply F1.
      exact (proj2 (Forall_map _ _ _) H).
Qed.
End SplatterResult.

(** ** Entries of the grid of the Splatter *)

Lemma put_entry ks g corner share pif ra g' r c :
  grid_shape ks g -> put ks g corner share pif ra = Ok g' ->
  grid_shape ks g'
  /\ entry g' r c
     == entry g r c
        + hits ks r c (map corner pif) (zipWith Qmult (map share pif) ra).
Proof.
  intros Hg H. unfold put in H. split.
  - eapply accumulate_shape; eauto.
  - now apply accumulate_entry.
Qed.

Section SplatterEntries.
Variable exp_i : Q -> complex.

Lemma splat_entries points ks xr yr ra interpolate phase d obliq wvln G :
  length points = length ra ->
  assign_points_to_pixels exp_i points ks xr yr ra interpolate false phase d
                          obliq wvln = Ok G ->
  exists g,
    G = RealGrid g /\ grid_shape ks g
    /\ forall r c,
        entry g r c
        == cell_value ks interpolate (pixel_indices_float ks xr yr points)
                      ra r c.
Proof.
  intros Hlen H. unfold cell_value. destruct interpolate.
  - apply assign_interp_run in H; auto. cbv zeta in H.
    destruct H as (g0 & g1 & g2 & g3 & g4 & E0 & E1 & E2 & E3 & E4 & ->).
    exists g4. split; [reflexivity|].
    assert (S0 : grid_shape ks g0) by (now apply zeros_inv in E0).
    assert (Z0 : forall r c, entry g0 r c == 0).
    { unfold zeros in E0. destruct (ks <? 0)%Z; [discriminate|].
      injection E0 as <-. intros r c. apply entry_zeros. }
    split.
    + apply (put_entry _ _ _ _ _ _ _ 0%nat 0%nat) in E1 as [S1 _]; auto.
      apply (put_entry _ _ _ _ _ _ _ 0%nat 0%nat) in E2 as [S2 _]; auto.
      apply (put_entry _ _ _ _ _ _ _ 0%nat 0%nat) in E3 as [S3 _]; auto.
      apply (put_entry _ _ _ _ _ _ _ 0%nat 0%nat) in E4 as [S4 _]; auto.
    + intros r c.
      apply (put_entry _ _ _ _ _ _ _ r c) in E1 as [S1 V1]; auto.
      apply (put_entry _ _ _ _ _ _ _ r c) in E2 as [S2 V2]; auto.
      apply (put_entry _ _ _ _ _ _ _ r c) in E3 as [S3 V3]; auto.
      apply (put_entry _ _ _ _ _ _ _ r c) in E4 as [S4 V4]; auto.
      rewrite V4, V3, V2, V1, Z0. ring.
  - apply assign_nearest_run in H; auto.
    destruct H as (g0 & g1 & E0 & E1 & ->).
    exists g1. split; [reflexivity|].
    assert (S0 : grid_shape ks g0) by (now apply zeros_inv in E0).
    assert (Z0 : forall r c, entry g0 r c == 0).
    { unfold zeros in E0. destruct (ks <? 0)%Z; [discriminate|].
      injection E0 as <-. intros r c. apply entry_zeros. }
    split; [eapply accumulate_shape; eauto|].
    intros r c. rewrite (accumulate_entry ks r c _ _ _ _ S0 E1), Z0. ring.
Qed.

(** On accepted samples the Splatter returns the grid of the cell
    values. *)
Lemma splat_cell_values points ks xr yr ra interpolate phase d obliq wvln :
  length points = length ra -> (2 <= ks)%Z ->
  finite_indices xr yr points = true ->
  Forall (accepted ks interpolate) (pixel_indices_float ks xr yr points) ->
  exists g,
    assign_points_to_pixels exp_i points ks xr yr ra interpolate false phase
                            d obliq wvln = Ok (RealGrid g)
    /\ grid_shape ks g
    /\ forall r c,
        entry g r c
        == cell_value ks interpolate (pixel_indices_float ks xr yr points)
                      ra r c.
Proof.
  intros Hlen Hks Hfin Hacc.
  destruct (assign_incoherent_result exp_i points ks xr yr ra interpolate
              phase d obliq wvln Hlen Hks Hfin) as [[_ [g Eg]] | [Hn _]];
    [|contradiction].
  destruct (splat_entries _ _ _ _ _ _ _ _ _ _ _ Hlen Eg)
    as (g' & [= <-] & Hs & He).
  exists g. auto.
Qed.
End SplatterEntries.

Lemma finite_indices_tail xr yr (p : vec2) pts :
  finite_indices xr yr (p :: pts) = true -> finite_indices xr yr pts = true.
Proof. destruct pts; auto. Qed.

Lemma finite_indices_app xr yr (a b : list vec2) :
  finite_indices xr yr (a ++ b) = true ->
  finite_indices xr yr a = true /\ finite_indices xr yr b = true.
Proof. destruct a, b; simpl; auto. Qed.

Lemma finite_indices_perm xr yr (a b : list vec2) :
  Permutation a b -> finite_indices xr yr a = finite_indices xr yr b.
Proof.
  intros H. destruct a, b; auto.
  - now apply Permutation_nil_cons in H.
  - symmetry in H. now apply Permutation_nil_cons in H.
Qed.

Lemma pif_app ks xr yr (a b : list vec2) :
  pixel_indices_float ks xr yr (a ++ b)
  = pixel_indices_float ks xr yr a ++ pixel_indices_float ks xr yr b.
Proof. unfold pixel_indices_float. now rewrite !map_app. Qed.

Lemma zipWith_app {A B C : Type} (f : A -> B -> C) a1 :
  forall b1 a2 b2, length a1 = length b1 ->
    zipWith f (a1 ++ a2) (b1 ++ b2) = zipWith f a1 b1 ++ zipWith f a2 b2.
Proof.
  induction a1 as [|x a1 IH]; intros [|y b1] a2 b2 H; simpl in *;
    try discriminate; auto.
  f_equal. apply IH. lia.
Qed.

Lemma Qsum_perm (l l' : list Q) : Permutation l l' -> Qsum l == Qsum l'.
Proof.
  induction 1 as [| x l l' _ IH | x y l | l l' l'' _ IH1 _ IH2];
    unfold Qsum in *; simpl; try lra.
Qed.

Lemma hits_maps {A : Type} (ks : Z) (r c : nat) (f : A -> Z * Z)
      (g : A -> Q) (l : list A) :
  hits ks r c (map f l) (map g l)
  = Qsum (map (fun x => if cell_is ks r c (f x) then g x else 0) l).
Proof. induction l as [|x l IH]; simpl; [reflexivity|]. now rewrite IH. Qed.

Lemma cell_value_app ks interpolate pif1 pif2 ra1 ra2 r c :
  length pif1 = length ra1 ->
  cell_value ks interpolate (pif1 ++ pif2) (ra1 ++ ra2) r c
  == cell_value ks interpolate pif1 ra1 r c
     + cell_value ks interpolate pif2 ra2 r c.
Proof.
  intros Hlen. unfold cell_value. destruct interpolate.
  - rewrite !map_app, !zipWith_app by (now rewrite length_map).
    rewrite !hits_app
      by (rewrite length_map, zipWith_length; now rewrite length_map).
    ring.
  - rewrite map_app, hits_app by (now rewrite length_map). ring.
Qed.

Lemma cell_value_pairs ks interpolate (F : vec2 -> vec2)
      (l : list (vec2 * Q)) r c :
  cell_value ks interpolate (map F (map fst l)) (map snd l) r c
  == if interpolate then
       Qsum (map (fun x => if cell_is ks r c (floor_long (F (fst x)))
                           then share_tl (F (fst x)) * snd x else 0) l)
       + Qsum (map (fun x => if cell_is ks r c (corner_tr (F (fst x)))
                             then share_tr (F (fst x)) * snd x else 0) l)
       + Qsum (map (fun x => if cell_is ks r c (corner_bl (F (fst x)))
                             then share_bl (F (fst x)) * snd x else 0) l)
       + Qsum (map (fun x => if cell_is ks r c (corner_br (F (fst x)))
                             then share_br (F (fst x)) * snd x else 0) l)
     else
       Qsum (map (fun x => if cell_is ks r c (floor_long (F (fst x)))
                           then snd x else 0) l).
Proof.
  unfold cell_value. destruct interpolate.
  - rewrite !map_map.
    rewrite !(zipWith_maps Qmult).
    rewrite <- !(hits_maps ks r c). reflexivity.
  - rewrite !map_map. rewrite <- (hits_maps ks r c). reflexivity.
Qed.

Lemma cell_value_perm ks interpolate (F : vec2 -> vec2)
      (l l' : list (vec2 * Q)) r c :
  Permutation l l' ->
  cell_value ks interpolate (map F (map fst l)) (map snd l) r c
  == cell_value ks interpolate (map F (map fst l')) (map snd l') r c.
Proof.
  intros H. rewrite !cell_value_pairs. destruct interpolate.
  - rewrite (Qsum_perm _ _ (Permutation_map
       (fun x => if cell_is ks r c (floor_long (F (fst x)))
                 then share_tl (F (fst x)) * snd x else 0) H)).
    rewrite (Qsum_perm _ _ (Permutation_map
       (fun x => if cell_is ks r c (corner_tr (F (fst x)))
                 then share_tr (F (fst x)) * snd x else 0) H)).
    rewrite (Qsum_perm _ _ (Permutation_map
       (fun x => if cell_is ks r c (corner_bl (F (fst x)))
                 then share_bl (F (fst x)) * snd x else 0) H)).
    rewrite (Qsum_perm _ _ (Permutation_map
       (fun x => if cell_is ks r c (corner_br (F (fst x)))
                 then share_br (F (fst x)) * snd x else 0) H)).
    reflexivity.
  - apply Qsum_perm. now apply Permutation_map.
Qed.

Lemma pif_as_map ks xr yr points :
  pixel_indices_float ks xr yr points
  = map (fun p => (fst (normalize xr yr p) * inject_Z (ks - 1),
                   snd (normalize xr yr p) * inject_Z (ks - 1))) points.
Proof. unfold pixel_indices_float. now rewrite map_map. Qed.

Lemma cell_value_zero_head ks interpolate p pif w ra r c :
  w == 0 ->
  cell_value ks interpolate (p :: pif) (w :: ra) r c
  == cell_value ks interpolate pif ra r c.
Proof.
  intros Hw. unfold cell_value. destruct interpolate; cbn [map zipWith hits].
  - destruct (cell_is ks r c (floor_long p)), (cell_is ks r c (corner_tr p)),
      (cell_is ks r c (corner_bl p)), (cell_is ks r c (corner_br p));
      rewrite ?Hw; ring.
  - destruct (cell_is ks r c (floor_long p)); rewrite ?Hw; ring.
Qed.


(** ** When the incoherent Splatter returns *)

(** X1. The incoherent Splatter, given one weight per sample, a kernel size of
    at least 2 and finite coordinates, returns a grid exactly when every
    lattice index it computes (the floor and, in interpolated mode, the
    floor plus one) lies in [-ks, ks-1], and raises [IndexError]
    otherwise: indices from -ks to -1 are not refused, they address the
    grid from its far edge. *)
Theorem splatter_returns_iff_accepted (exp_i : Q -> complex) points ks
        x_range y_range ra interpolate phase d obliq wvln :
  length points = length ra -> (2 <= ks)%Z ->
  finite_indices x_range y_range points = true ->
  ((exists G,
       assign_points_to_pixels exp_i points ks x_range y_range ra
                               interpolate false phase d obliq wvln = Ok G)
   <-> Forall (accepted ks interpolate)
              (pixel_indices_float ks x_range y_range points))
  /\ (~ Forall (accepted ks interpolate)
               (pixel_indices_float ks x_range y_range points) ->
      assign_points_to_pixels exp_i points ks x_range y_range ra interpolate
                              false phase d obliq wvln = Raise IndexError).
Proof.
  intros Hlen Hks Hfin.
  destruct (assign_incoherent_result exp_i points ks x_range y_range ra
              interpolate phase d obliq wvln Hlen Hks Hfin)
    as [[HF [g Eg]] | [HF Er]].
  - split; [|contradiction]. split; eauto.
  - split; [|auto]. split; [|contradiction].
    intros [G EG]. rewrite Er in EG. discriminate.
Qed.

Lemma splatter_returns_iff_accepted_witness :
  let points : list vec2 := [(1#4, 0); (-2, 1#2)] in
  let ra := [1; 1#2] in
  let range := (-3#2, 3#2) in
  length points = length ra /\ (2 <= 4)%Z
  /\ finite_indices range range points = true
  /\ ((exists G,
          assign_points_to_pixels exp_i_unit points 4 range range ra false
                                  false None None None (589#1000) = Ok G)
      <-> Forall (accepted 4 false)
                 (pixel_indices_float 4 range range points))
  /\ (~ Forall (accepted 4 false)
               (pixel_indices_float 4 range range points) ->
      assign_points_to_pixels exp_i_unit points 4 range range ra false false
                              None None None (589#1000) = Raise IndexError).
Proof.
  intros points ra range.
  assert (H1 : length points = length ra) by reflexivity.
  assert (H2 : (2 <= 4)%Z) by discriminate.
  assert (H3 : finite_indices range range points = true) by reflexivity.
  split; [exact H1|]. split; [exact H2|]. split; [exact H3|].
  exact (splatter_returns_iff_accepted exp_i_unit points 4 range range ra
           false None None None (589#1000) H1 H2 H3).
Defined.

(** A sample half a pixel left of the window has column index -1: it is
    not refused, its weight lands in the last column. *)
Example left_of_window_wraps :
  exists g,
    assign_points_to_pixels exp_i_unit [(-2, 1#2)] 4 (-3#2, 3#2) (-3#2, 3#2)
                            [1] false false None None None (589#1000)
    = Ok (RealGrid g)
    /\ Forall2 (Forall2 Qeq) g
               [[0; 0; 0; 0]; [0; 0; 0; 1]; [0; 0; 0; 0]; [0; 0; 0; 0]].
Proof.
  eexists. split; [vm_compute; reflexivity|]. repeat constructor.
Qed.

(** ** The grid as a histogram *)

(** X2. Nearest-cell mode ([interpolate=False], whatever [coherent] and
    [phase]): on accepted samples the Splatter returns a real [ks] by [ks]
    grid whose entry (r, c) is the sum of the weights of the samples whose
    floor index addresses cell (r, c). *)
Theorem nearest_cell_histogram (exp_i : Q -> complex) points ks x_range
        y_range ra coherent phase d obliq wvln :
  length points = length ra -> (2 <= ks)%Z ->
  finite_indices x_range y_range points = true ->
  Forall (accepted ks false)
         (pixel_indices_float ks x_range y_range points) ->
  exists g,
    assign_points_to_pixels exp_i points ks x_range y_range ra false coherent
                            phase d obliq wvln = Ok (RealGrid g)
    /\ grid_shape ks g
    /\ forall r c,
        entry g r c
        == hits ks r c
                (map floor_long
                     (pixel_indices_float ks x_range y_range points)) ra.
Proof.
  intros Hlen Hks Hfin Hacc.
  exact (splat_cell_values exp_i points ks x_range y_range ra false phase d
                           obliq wvln Hlen Hks Hfin Hacc).
Qed.

Lemma nearest_cell_histogram_witness :
  let points : list vec2 := [(1#4, 0); (-1#2, 1#2); (1#3, 1#5)] in
  let ra := [1; 1#2; 1#4] in
  let range := (-3#2, 3#2) in
  length points = length ra /\ (2 <= 4)%Z
  /\ finite_indices range range points = true
  /\ Forall (accepted 4 false) (pixel_indices_float 4 range range points)
  /\ exists g,
      assign_points_to_pixels exp_i_unit points 4 range range ra false true
                              None None None (589#1000) = Ok (RealGrid g)
      /\ grid_shape 4 g
      /\ forall r c,
          entry g r c
          == hits 4 r c
                  (map floor_long (pixel_indices_float 4 range range points))
                  ra.
Proof.
  intros points ra range.
  assert (H1 : length points = length ra) by reflexivity.
  assert (H2 : (2 <= 4)%Z) by discriminate.
  assert (H3 : finite_indices range range points = true) by reflexivity.
  assert (H4 : Forall (accepted 4 false)
                      (pixel_indices_float 4 range range points)).
  { repeat (apply Forall_cons || apply Forall_nil);
      unfold accepted; repeat split; vm_compute; discriminate. }
  split; [exact H1|]. split; [exact H2|]. split; [exact H3|].
  split; [exact H4|].
  exact (nearest_cell_histogram exp_i_unit points 4 range range ra true None
                                None None (589#1000) H1 H2 H3 H4).
Defined.

(** X3. Interpolated incoherent mode: on accepted samples the Splatter returns
    a real [ks] by [ks] grid whose entry (r, c) is the sum of the bilinear
    shares addressed to the cell: (1-w_b)(1-w_r) ra from the samples whose
    top-left corner it is, (1-w_b) w_r ra from those whose top-right corner
    it is, w_b (1-w_r) ra for bottom-left and w_b w_r ra for
    bottom-right. *)
Theorem bilinear_cell_values (exp_i : Q -> complex) points ks x_range
        y_range ra phase d obliq wvln :
  length points = length ra -> (2 <= ks)%Z ->
  finite_indices x_range y_range points = true ->
  Forall (accepted ks true)
         (pixel_indices_float ks x_range y_range points) ->
  let pif := pixel_indices_float ks x_range y_range points in
  exists g,
    assign_points_to_pixels exp_i points ks x_range y_range ra true false
                            phase d obliq wvln = Ok (RealGrid g)
    /\ grid_shape ks g
    /\ forall r c,
        entry g r c
        == hits ks r c (map floor_long pif)
                (zipWith Qmult (map share_tl pif) ra)
           + hits ks r c (map corner_tr pif)
                  (zipWith Qmult (map share_tr pif) ra)
           + hits ks r c (map corner_bl pif)
                  (zipWith Qmult (map share_bl pif) ra)
           + hits ks r c (map corner_br pif)
                  (zipWith Qmult (map share_br pif) ra).
Proof.
  intros Hlen Hks Hfin Hacc.
  exact (splat_cell_values exp_i points ks x_range y_range ra true phase d
                           obliq wvln Hlen Hks Hfin Hacc).
Qed.

Lemma bilinear_cell_values_witness :
  let points : list vec2 := [(1#4, 0); (-1#2, 1#2); (1#3, 1#5)] in
  let ra := [1; 1#2; 1#4] in
  let range := (-3#2, 3#2) in
  let pif := pixel_indices_float 4 range range points in
  length points = length ra /\ (2 <= 4)%Z
  /\ finite_indices range range points = true
  /\ Forall (accepted 4 true) pif
  /\ exists g,
      assign_points_to_pixels exp_i_unit points 4 range range ra true false
                              None None None (589#1000) = Ok (RealGrid g)
      /\ grid_shape 4 g
      /\ forall r c,
          entry g r c
          == hits 4 r c (map floor_long pif)
                  (zipWith Qmult (map share_tl pif) ra)
             + hits 4 r c (map corner_tr pif)
                    (zipWith Qmult (map share_tr pif) ra)
             + hits 4 r c (map corner_bl pif)
                    (zipWith Qmult (map share_bl pif) ra)
             + hits 4 r c (map corner_br pif)
                    (zipWith Qmult (map share_br pif) ra).
Proof.
  intros points ra range pif.
  assert (H1 : length points = length ra) by reflexivity.
  assert (H2 : (2 <= 4)%Z) by discriminate.
  assert (H3 : finite_indices range range points = true) by reflexivity.
  assert (H4 : Forall (accepted 4 true) pif).
  { repeat (apply Forall_cons || apply Forall_nil);
      unfold accepted; repeat split; vm_compute; discriminate. }
  split; [exact H1|]. split; [exact H2|]. split; [exact H3|].
  split; [exact H4|].
  exact (bilinear_cell_values exp_i_unit points 4 range range ra None None
                              None (589#1000) H1 H2 H3 H4).
Defined.

(** ** Samples on lattice points *)




(** ** Superposition and order of the samples *)

(** X5. Superposition.  The grid of two sample sets taken together has, entry
    by entry, the sum of the grids of each set alone, in both incoherent
    modes; the two partial runs return whenever the joint run does. *)
Theorem splat_superposition (exp_i : Q -> complex) points1 points2 ks x_range
        y_range ra1 ra2 interpolate phase d obliq wvln :
  length points1 = length ra1 -> length points2 = length ra2 ->
  (2 <= ks)%Z ->
  finite_indices x_range y_range (points1 ++ points2) = true ->
  Forall (accepted ks interpolate)
         (pixel_indices_float ks x_range y_range (points1 ++ points2)) ->
  exists g g1 g2,
    assign_points_to_pixels exp_i (points1 ++ points2) ks x_range y_range
                            (ra1 ++ ra2) interpolate false phase d obliq wvln
    = Ok (RealGrid g)
    /\ assign_points_to_pixels exp_i points1 ks x_range y_range ra1
                               interpolate false phase d obliq wvln
       = Ok (RealGrid g1)
    /\ assign_points_to_pixels exp_i points2 ks x_range y_range ra2
                               interpolate false phase d obliq wvln
       = Ok (RealGrid g2)
    /\ forall r c, entry g r c == entry g1 r c + entry g2 r c.
Proof.
  intros Hl1 Hl2 Hks Hfin Hacc.
  assert (Hl : length (points1 ++ points2) = length (ra1 ++ ra2))
    by (rewrite !length_app; lia).
  destruct (finite_indices_app _ _ _ _ Hfin) as [Hf1 Hf2].
  pose proof Hacc as Hacc'. rewrite pif_app in Hacc'.
  apply Forall_app in Hacc' as [Ha1 Ha2].
  destruct (splat_cell_values exp_i _ ks x_range y_range _ interpolate phase d
              obliq wvln Hl Hks Hfin Hacc) as (g & Eg & _ & Vg).
  destruct (splat_cell_values exp_i _ ks x_range y_range _ interpolate phase d
              obliq wvln Hl1 Hks Hf1 Ha1) as (g1 & Eg1 & _ & Vg1).
  destruct (splat_cell_values exp_i _ ks x_range y_range _ interpolate phase d
              obliq wvln Hl2 Hks Hf2 Ha2) as (g2 & Eg2 & _ & Vg2).
  exists g, g1, g2. repeat split; auto.
  intros r c. rewrite Vg, Vg1, Vg2, pif_app.
  apply cell_value_app. now rewrite pif_length.
Qed.

Lemma splat_superposition_witness :
  let points1 : list vec2 := [(1#4, 0); (-1#2, 1#2)] in
  let points2 : list vec2 := [(1#3, 1#5)] in
  let ra1 := [1; 1#2] in
  let ra2 := [1#4] in
  let range := (-3#2, 3#2) in
  length points1 = length ra1 /\ length points2 = length ra2 /\ (2 <= 4)%Z
  /\ finite_indices range range (points1 ++ points2) = true
  /\ Forall (accepted 4 true)
            (pixel_indices_float 4 range range (points1 ++ points2))
  /\ exists g g1 g2,
      assign_points_to_pixels exp_i_unit (points1 ++ points2) 4 range range
                              (ra1 ++ ra2) true false None None None
                              (589#1000) = Ok (RealGrid g)
      /\ assign_points_to_pixels exp_i_unit points1 4 range range ra1 true
                                 false None None None (589#1000)
         = Ok (RealGrid g1)
      /\ assign_points_to_pixels exp_i_unit points2 4 range range ra2 true
                                 false None None None (589#1000)
         = Ok (RealGrid g2)
      /\ forall r c, entry g r c == entry g1 r c + entry g2 r c.
Proof.
  intros points1 points2 ra1 ra2 range.
  assert (H1 : length points1 = length ra1) by reflexivity.
  assert (H2 : length points2 = length ra2) by reflexivity.
  assert (H3 : (2 <= 4)%Z) by discriminate.
  assert (H4 : finite_indices range range (points1 ++ points2) = true)
    by reflexivity.
  assert (H5 : Forall (accepted 4 true)
                 (pixel_indices_float 4 range range (points1 ++ points2))).
  { repeat (apply Forall_cons || apply Forall_nil);
      unfold accepted; repeat split; vm_compute; discriminate. }
  split; [exact H1|]. split; [exact H2|]. split; [exact H3|].
  split; [exact H4|]. split; [exact H5|].
  exact (splat_superposition exp_i_unit points1 points2 4 range range ra1 ra2
           true None None None (589#1000) H1 H2 H3 H4 H5).
Defined.

(** X6. The order of the samples is irrelevant: two runs of the incoherent
    Splatter on the same (point, weight) pairs listed in different orders
    return grids with the same entries. *)
Theorem splat_order_irrelevant (exp_i : Q -> complex)
        (samples samples' : list (vec2 * Q)) ks x_range y_range interpolate
        phase d obliq wvln :
  Permutation samples samples' -> (2 <= ks)%Z ->
  finite_indices x_range y_range (map fst samples) = true ->
  Forall (accepted ks interpolate)
         (pixel_indices_float ks x_range y_range (map fst samples)) ->
  exists g g',
    assign_points_to_pixels exp_i (map fst samples) ks x_range y_range
                            (map snd samples) interpolate false phase d obliq
                            wvln = Ok (RealGrid g)
    /\ assign_points_to_pixels exp_i (map fst samples') ks x_range y_range
                               (map snd samples') interpolate false phase d
                               obliq wvln = Ok (RealGrid g')
    /\ forall r c, entry g r c == entry g' r c.
Proof.
  intros Hperm Hks Hfin Hacc.
  assert (Hl : length (map fst samples) = length (map snd samples))
    by now rewrite !length_map.
  assert (Hl' : length (map fst samples') = length (map snd samples'))
    by now rewrite !length_map.
  assert (Hfin' : finite_indices x_range y_range (map fst samples') = true).
  { rewrite <- Hfin. symmetry. apply finite_indices_perm.
    now apply Permutation_map. }
  assert (Hacc' : Forall (accepted ks interpolate)
                    (pixel_indices_float ks x_range y_range
                                         (map fst samples'))).
  { rewrite pif_as_map in *.
    eapply Permutation_Forall; [|exact Hacc].
    now apply Permutation_map, Permutation_map. }
  destruct (splat_cell_values exp_i _ ks x_range y_range _ interpolate phase d
              obliq wvln Hl Hks Hfin Hacc) as (g & Eg & _ & Vg).
  destruct (splat_cell_values exp_i _ ks x_range y_range _ interpolate phase d
              obliq wvln Hl' Hks Hfin' Hacc') as (g' & Eg' & _ & Vg').
  exists g, g'. repeat split; auto.
  intros r c. rewrite Vg, Vg', !pif_as_map.
  now apply cell_value_perm.
Qed.

Lemma splat_order_irrelevant_witness :
  let samples : list (vec2 * Q) :=
    [((1#4, 0), 1); ((-1#2, 1#2), 1#2); ((1#3, 1#5), 1#4)] in
  let samples' : list (vec2 * Q) :=
    [((-1#2, 1#2), 1#2); ((1#4, 0), 1); ((1#3, 1#5), 1#4)] in
  let range := (-3#2, 3#2) in
  Permutation samples samples' /\ (2 <= 4)%Z
  /\ finite_indices range range (map fst samples) = true
  /\ Forall (accepted 4 true)
            (pixel_indices_float 4 range range (map fst samples))
  /\ exists g g',
      assign_points_to_pixels exp_i_unit (map fst samples) 4 range range
                              (map snd samples) true false None None None
                              (589#1000) = Ok (RealGrid g)
      /\ assign_points_to_pixels exp_i_unit (map fst samples') 4 range range
                                 (map snd samples') true false None None None
                                 (589#1000) = Ok (RealGrid g')
      /\ forall r c, entry g r c == entry g' r c.
Proof.
  intros samples samples' range.
  assert (H1 : Permutation samples samples') by apply perm_swap.
  assert (H2 : (2 <= 4)%Z) by discriminate.
  assert (H3 : finite_indices range range (map fst samples) = true)
    by reflexivity.
  assert (H4 : Forall (accepted 4 true)
                 (pixel_indices_float 4 range range (map fst samples))).
  { repeat (apply Forall_cons || apply Forall_nil);
      unfold accepted; repeat split; vm_compute; discriminate. }
  split; [exact H1|]. split; [exact H2|]. split; [exact H3|].
  split; [exact H4|].
  exact (splat_order_irrelevant exp_i_unit samples samples' 4 range range
           true None None None (589#1000) H1 H2 H3 H4).
Defined.

(** ** Samples of weight zero *)

(** X7. A sample of weight zero whose indices are accepted changes no entry of
    the grid, in both incoherent modes. *)
Theorem zero_weight_sample_adds_nothing (exp_i : Q -> complex) p points w ra
        ks x_range y_range interpolate phase d obliq wvln :
  w == 0 -> length points = length ra -> (2 <= ks)%Z ->
  finite_indices x_range y_range (p :: points) = true ->
  Forall (accepted ks interpolate)
         (pixel_indices_float ks x_range y_range (p :: points)) ->
  exists g g',
    assign_points_to_pixels exp_i (p :: points) ks x_range y_range (w :: ra)
                            interpolate false phase d obliq wvln
    = Ok (RealGrid g)
    /\ assign_points_to_pixels exp_i points ks x_range y_range ra interpolate
                               false phase d obliq wvln = Ok (RealGrid g')
    /\ forall r c, entry g r c == entry g' r c.
Proof.
  intros Hw Hlen Hks Hfin Hacc.
  assert (Hl : length (p :: points) = length (w :: ra)) by (simpl; lia).
  pose proof (finite_indices_tail _ _ _ _ Hfin) as Hfin'.
  assert (Hacc' : Forall (accepted ks interpolate)
                    (pixel_indices_float ks x_range y_range points)).
  { rewrite pif_as_map in *. now inversion Hacc. }
  destruct (splat_cell_values exp_i _ ks x_range y_range _ interpolate phase d
              obliq wvln Hl Hks Hfin Hacc) as (g & Eg & _ & Vg).
  destruct (splat_cell_values exp_i _ ks x_range y_range _ interpolate phase d
              obliq wvln Hlen Hks Hfin' Hacc') as (g' & Eg' & _ & Vg').
  exists g, g'. repeat split; auto.
  intros r c. rewrite Vg, Vg', !pif_as_map. cbn [map].
  now apply cell_value_zero_head.
Qed.

Lemma zero_weight_sample_adds_nothing_witness :
  let points : list vec2 := [(1#4, 0); (-1#2, 1#2)] in
  let ra := [1; 1#2] in
  let range := (-3#2, 3#2) in
  0 == 0 /\ length points = length ra /\ (2 <= 4)%Z
  /\ finite_indices range range ((1#3, 1#5) :: points) = true
  /\ Forall (accepted 4 true)
            (pixel_indices_float 4 range range ((1#3, 1#5) :: points))
  /\ exists g g',
      assign_points_to_pixels exp_i_unit ((1#3, 1#5) :: points) 4 range range
                              (0 :: ra) true false None None None (589#1000)
      = Ok (RealGrid g)
      /\ assign_points_to_pixels exp_i_unit points 4 range range ra true false
                                 None None None (589#1000) = Ok (RealGrid g')
      /\ forall r c, entry g r c == entry g' r c.
Proof.
  intros points ra range.
  assert (H0 : 0 == 0) by reflexivity.
  assert (H1 : length points = length ra) by reflexivity.
  assert (H2 : (2 <= 4)%Z) by discriminate.
  assert (H3 : finite_indices range range ((1#3, 1#5) :: points) = true)
    by reflexivity.
  assert (H4 : Forall (accepted 4 true)
                 (pixel_indices_float 4 range range ((1#3, 1#5) :: points))).
  { repeat (apply Forall_cons || apply Forall_nil);
      unfold accepted; repeat split; vm_compute; discriminate. }
  split; [exact H0|]. split; [exact H1|]. split; [exact H2|].
  split; [exact H3|]. split; [exact H4|].
  exact (zero_weight_sample_adds_nothing exp_i_unit (1#3, 1#5) points 0 ra 4
           range range true None None None (589#1000) H0 H1 H2 H3 H4).
Defined.

(** ** The shape of the weights *)

Lemma zipWith_repeat_r {A B C : Type} (f : A -> B -> C) (a : list A) (y : B) :
  zipWith f a (repeat y (length a)) = map (fun x => f x y) a.
Proof. induction a as [|x a IH]; simpl; congruence. Qed.

Lemma broadcast2_scalar {A B C : Type} (f : A -> B -> C) (a : list A) (y : B) :
  broadcast2 f a [y] = broadcast2 f a (repeat y (length a)).
Proof.
  destruct a as [|x [|x' a]]; try reflexivity.
  unfold broadcast2. rewrite repeat_length, Nat.eqb_refl.
  rewrite zipWith_repeat_r. reflexivity.
Qed.

Lemma expand_to_scalar {A : Type} (n : nat) (y : A) :
  expand_to n [y] = expand_to n (repeat y n).
Proof.
  unfold expand_to. rewrite repeat_length, Nat.eqb_refl. simpl length.
  destruct (1 =? n)%nat eqn:E; auto.
  apply Nat.eqb_eq in E. now subst.
Qed.

(** X8. A weight tensor of length 1 is applied to every sample: the Splatter
    behaves, in every mode, as on the tensor that repeats the weight once
    per sample. *)
Theorem scalar_weight_broadcast (exp_i : Q -> complex) points ks x_range
        y_range w interpolate coherent phase d obliq wvln :
  assign_points_to_pixels exp_i points ks x_range y_range [w] interpolate
                          coherent phase d obliq wvln
  = assign_points_to_pixels exp_i points ks x_range y_range
                            (repeat w (length points)) interpolate coherent
                            phase d obliq wvln.
Proof.
  unfold assign_points_to_pixels.
  destruct (ks - 1 =? 0)%Z; [reflexivity|]. cbv zeta.
  set (pif := pixel_indices_float ks x_range y_range points).
  assert (Hp : length pif = length points) by apply pif_length.
  assert (Hc : forall f : Q -> Q -> Q,
             broadcast2 Qmult
               (zipWith f (map (fun p => fst p - inject_Z (Qfloor (fst p))) pif)
                        (map (fun p => snd p - inject_Z (Qfloor (snd p))) pif))
               [w]
             = broadcast2 Qmult
                 (zipWith f
                    (map (fun p => fst p - inject_Z (Qfloor (fst p))) pif)
                    (map (fun p => snd p - inject_Z (Qfloor (snd p))) pif))
                 (repeat w (length points))).
  { intros f. rewrite broadcast2_scalar. do 2 f_equal.
    rewrite zipWith_length; now rewrite !length_map. }
  destruct interpolate.
  - rewrite !Hc. reflexivity.
  - unfold index_put_. rewrite length_map, Hp.
    now rewrite expand_to_scalar.
Qed.

Lemma expand_to_mismatch {A : Type} (n : nat) (v : list A) :
  length v <> n -> length v <> 1%nat -> expand_to n v = Raise RuntimeError.
Proof.
  intros Hn H1. unfold expand_to.
  destruct (length v =? n)%nat eqn:E; [apply Nat.eqb_eq in E; contradiction|].
  destruct v as [|x [|y v]]; auto. now elim H1.
Qed.

Lemma broadcast2_mismatch {A B C : Type} (f : A -> B -> C) a b :
  length a <> length b -> length b <> 1%nat ->
  broadcast2 f a b = Raise RuntimeError
  \/ (length a = 1%nat
      /\ exists v, broadcast2 f a b = Ok v /\ length v = length b).
Proof.
  intros Hn H1. unfold broadcast2.
  destruct (length a =? length b)%nat eqn:E;
    [apply Nat.eqb_eq in E; contradiction|].
  destruct a as [|x [|x' a]], b as [|y [|y' b]]; simpl in *;
    try (now elim H1); try (now elim Hn); auto.
  - right. split; auto. exists []. auto.
  - right. split; auto. eexists. split; [reflexivity|].
    simpl. now rewrite length_map.
Qed.

(** X9. A weight tensor that has neither one weight per sample nor a single
    weight is refused: for a kernel size of at least 2 and finite
    coordinates the incoherent Splatter raises [RuntimeError], in both
    modes. *)
Theorem weight_shape_mismatch_raises (exp_i : Q -> complex) points ks x_range
        y_range ra interpolate phase d obliq wvln :
  (2 <= ks)%Z -> finite_indices x_range y_range points = true ->
  length ra <> length points -> length ra <> 1%nat ->
  assign_points_to_pixels exp_i points ks x_range y_range ra interpolate
                          false phase d obliq wvln = Raise RuntimeError.
Proof.
  intros Hks Hfin Hn H1. unfold assign_points_to_pixels.
  replace (ks - 1 =? 0)%Z with false by (symmetry; apply Z.eqb_neq; lia).
  cbv zeta. rewrite !zeros_ok by lia. rewrite Hfin.
  set (pif := pixel_indices_float ks x_range y_range points).
  assert (Hp : length pif = length points) by apply pif_length.
  destruct interpolate; cbn [bind check_finite].
  - set (c_tl := zipWith (fun b r => (1 - b) * (1 - r)) _ _).
    assert (Hc : length c_tl = length points).
    { unfold c_tl. rewrite zipWith_length; now rewrite !length_map. }
    destruct (broadcast2_mismatch Qmult c_tl ra) as [E | (_ & v & E & Hv)];
      try congruence; rewrite E; cbn [bind]; [reflexivity|].
    unfold index_put_.
    rewrite expand_to_mismatch; [reflexivity | | congruence].
    rewrite length_map. congruence.
  - unfold index_put_.
    rewrite expand_to_mismatch; [reflexivity | | assumption].
    rewrite length_map. congruence.
Qed.

Lemma weight_shape_mismatch_raises_witness :
  let points : list vec2 := [(1#4, 0); (-1#2, 1#2)] in
  let ra := [1; 1#2; 1#4] in
  let range := (-3#2, 3#2) in
  (2 <= 4)%Z /\ finite_indices range range points = true
  /\ length ra <> length points /\ length ra <> 1%nat
  /\ assign_points_to_pixels exp_i_unit points 4 range range ra true false
                             None None None (589#1000) = Raise RuntimeError.
Proof.
  intros points ra range.
  assert (H1 : (2 <= 4)%Z) by discriminate.
  assert (H2 : finite_indices range range points = true) by reflexivity.
  assert (H3 : length ra <> length points) by discriminate.
  assert (H4 : length ra <> 1%nat) by discriminate.
  split; [exact H1|]. split; [exact H2|]. split; [exact H3|].
  split; [exact H4|].
  exact (weight_shape_mismatch_raises exp_i_unit points 4 range range ra true
           None None None (589#1000) H1 H2 H3 H4).
Defined.

(** ** The coherent branch *)

Lemma upd_map {A B : Type} (h : A -> B) (f : A -> A) (f' : B -> B) (n : nat)
      (l : list A) :
  (forall x, h (f x) = f' (h x)) -> map h (upd n f l) = upd n f' (map h l).
Proof.
  intros Hf. revert n. induction l as [|x l IH]; intros [|n]; simpl; auto.
  - now rewrite Hf.
  - now rewrite IH.
Qed.

Lemma accumulate_accepts {A : Type} (add : A -> A -> A) (ks : Z) indices :
  (0 <= ks)%Z -> Forall (accepted_index ks) indices ->
  forall (values : list A) g,
    exists g', accumulate add ks g (combine indices values) = Ok g'.
Proof.
  intros Hks H. induction H as [|[i j] indices [Hi Hj] _ IH];
    intros [|v values] g; simpl; eauto.
  apply (wrap_index_accepts ks i Hks) in Hi as [r Hr].
  apply (wrap_index_accepts ks j Hks) in Hj as [c Hc].
  cbn [fst snd] in *. rewrite Hr, Hc. apply IH.
Qed.

Section Projection.
Variable pr : complex -> Q.
Hypothesis pr_add : forall a b, pr (cadd a b) = pr a + pr b.
Hypothesis pr_scale : forall a z, pr (cscale a z) = a * pr z.
Hypothesis pr_zero : pr czero = 0.

Lemma add_at_proj (g : list (list complex)) (r c : nat) (v : complex) :
  map (map pr) (add_at cadd g r c v)
  = add_at Qplus (map (map pr) g) r c (pr v).
Proof.
  unfold add_at. apply upd_map. intros row. apply upd_map.
  intros x. apply pr_add.
Qed.

Lemma accumulate_proj (ks : Z) indices :
  forall values g g',
    accumulate cadd ks g (combine indices values) = Ok g' ->
    accumulate Qplus ks (map (map pr) g) (combine indices (map pr values))
    = Ok (map (map pr) g').
Proof.
  induction indices as [|[i j] indices IH]; intros [|v values] g g' H;
    simpl in *; try (now injection H as <-).
  destruct (wrap_index ks i) as [r|]; [|discriminate].
  destruct (wrap_index ks j) as [c|]; [|discriminate].
  rewrite <- add_at_proj. now apply IH.
Qed.

Lemma entry_proj (g : list (list complex)) (r c : nat) :
  entry (map (map pr) g) r c = pr (centry g r c).
Proof.
  unfold entry, centry.
  change (@nil Q) with (map pr []). rewrite map_nth.
  rewrite <- pr_zero. apply map_nth.
Qed.

Lemma proj_shape (ks : Z) (g : list (list complex)) :
  grid_shape ks g -> grid_shape ks (map (map pr) g).
Proof.
  intros [Hl Hr]. split; [now rewrite length_map|].
  apply Forall_map. eapply Forall_impl; [|exact Hr].
  intros row Hrow. now rewrite length_map.
Qed.

Lemma proj_values (share : vec2 -> Q) (exp_i : Q -> complex) pif :
  forall ra ph,
    Forall2 Qeq
      (map pr (zipWith cscale (zipWith Qmult (map share pif) ra)
                       (map exp_i ph)))
      (zipWith Qmult (map share pif)
               (zipWith (fun r phi => r * pr (exp_i phi)) ra ph)).
Proof.
  induction pif as [|p pif IH]; intros [|r ra] [|phi ph]; simpl;
    try constructor; auto.
  rewrite pr_scale. ring.
Qed.

Lemma cput_entry ks g corner share pif ra (exp_i : Q -> complex)
      (ph : list Q) g' r c :
  grid_shape ks g ->
  cput ks g corner share pif ra (map exp_i ph) = Ok g' ->
  grid_shape ks g'
  /\ pr (centry g' r c)
     == pr (centry g r c)
        + hits ks r c (map corner pif)
               (zipWith Qmult (map share pif)
                        (zipWith (fun r phi => r * pr (exp_i phi)) ra ph)).
Proof.
  intros Hg H. unfold cput in H. split.
  - eapply accumulate_shape; eauto.
  - apply accumulate_proj in H.
    apply (accumulate_entry ks r c) in H; [|now apply proj_shape].
    rewrite !entry_proj in H. rewrite H.
    now rewrite (hits_ext ks r c _ _ _ (proj_values share exp_i pif ra ph)).
Qed.
End Projection.

Section Coherent.
Variable exp_i : Q -> complex.

Lemma assign_coherent_eq points ks xr yr ra ph d obliq wvln :
  length points = length ra -> length points = length ph ->
  (ks - 1)%Z <> 0%Z ->
  assign_points_to_pixels exp_i points ks xr yr ra true true (Some ph) d
                          obliq wvln =
  let pif := pixel_indices_float ks xr yr points in
  let e := map exp_i ph in
  (g0 <- zeros czero ks ;;
   _ <- check_finite (finite_indices xr yr points) ;;
   g1 <- cput ks g0 floor_long share_tl pif ra e ;;
   g2 <- cput ks g1 corner_tr share_tr pif ra e ;;
   g3 <- cput ks g2 corner_bl share_bl pif ra e ;;
   g4 <- cput ks g3 corner_br share_br pif ra e ;;
   Ok (ComplexGrid g4)).
Proof.
  intros Hlen Hph Hks. unfold assign_points_to_pixels.
  apply Z.eqb_neq in Hks. rewrite Hks. cbv zeta.
  set (pif := pixel_indices_float ks xr yr points).
  assert (Hp : length pif = length ra)
    by (unfold pif; now rewrite pif_length).
  assert (Hq : length pif = length ph)
    by (unfold pif; now rewrite pif_length).
  clearbody pif.
  assert (Hv : forall share : vec2 -> Q,
             length (zipWith Qmult (map share pif) ra) = length pif)
    by (intros share; now apply values_length).
  rewrite !zipWith_maps.
  rewrite !(broadcast2_same_length Qmult) by (now rewrite length_map).
  cbn [bind].
  rewrite !(broadcast2_same_length cscale)
    by (now rewrite Hv, length_map).
  cbn [bind]. unfold index_put_.
  rewrite !expand_to_eq
    by (rewrite ?length_map; rewrite zipWith_length;
        [apply Hv | now rewrite Hv, length_map]).
  cbn [bind]. rewrite map_map. reflexivity.
Qed.
End Coherent.

Lemma cput_ok ks g corner share pif ra e :
  (0 <= ks)%Z -> Forall (fun p => accepted_index ks (corner p)) pif ->
  exists g', cput ks g corner share pif ra e = Ok g'.
Proof.
  intros Hks H. unfold cput. apply accumulate_accepts; auto.
  exact (proj2 (Forall_map _ _ _) H).
Qed.

Lemma Qsum_ext (l l' : list Q) : Forall2 Qeq l l' -> Qsum l == Qsum l'.
Proof.
  induction 1 as [|x y l l' Hxy _ IH]; unfold Qsum in *; simpl; lra.
Qed.

Lemma fst_add (a b : complex) : fst (cadd a b) = fst a + fst b.
Proof. reflexivity. Qed.

Lemma snd_add (a b : complex) : snd (cadd a b) = snd a + snd b.
Proof. reflexivity. Qed.

Lemma fst_scale (a : Q) (z : complex) : fst (cscale a z) = a * fst z.
Proof. reflexivity. Qed.

Lemma snd_scale (a : Q) (z : complex) : snd (cscale a z) = a * snd z.
Proof. reflexivity. Qed.

Lemma czeros_inv (ks : Z) (g : list (list complex)) :
  zeros czero ks = Ok g ->
  grid_shape ks g /\ forall r c, centry g r c = czero.
Proof.
  intros H. split; [now apply zeros_shape in H|].
  unfold zeros in H. destruct (ks <? 0)%Z; [discriminate|].
  injection H as <-. intros r c. unfold centry.
  destruct (Nat.lt_ge_cases r (Z.to_nat ks)) as [Hr|Hr].
  - rewrite nth_repeat_lt by assumption.
    destruct (Nat.lt_ge_cases c (Z.to_nat ks)) as [Hc|Hc].
    + now rewrite nth_repeat_lt.
    + rewrite nth_overflow; [reflexivity | now rewrite repeat_length].
  - rewrite (nth_overflow _ _ (n := r)) by (now rewrite repeat_length).
    now destruct c.
Qed.

Section CoherentRuns.
Variable exp_i : Q -> complex.

(** The coherent run on accepted samples, with the entries of one
    projection of its grid. *)
Lemma coherent_run (pr : complex -> Q) points ks xr yr ra ph d obliq wvln :
  (forall a b, pr (cadd a b) = pr a + pr b) ->
  (forall a z, pr (cscale a z) = a * pr z) ->
  pr czero = 0 ->
  length points = length ra -> length points = length ph -> (2 <= ks)%Z ->
  finite_indices xr yr points = true ->
  Forall (accepted ks true) (pixel_indices_float ks xr yr points) ->
  exists g,
    assign_points_to_pixels exp_i points ks xr yr ra true true (Some ph) d
                            obliq wvln = Ok (ComplexGrid g)
    /\ grid_shape ks g
    /\ forall r c,
        pr (centry g r c)
        == cell_value ks true (pixel_indices_float ks xr yr points)
                      (zipWith (fun r phi => r * pr (exp_i phi)) ra ph) r c.
Proof.
  intros Hadd Hscale Hzero Hlen Hph Hks Hfin Hacc.
  rewrite assign_coherent_eq by (auto; lia). cbv zeta.
  set (pif := pixel_indices_float ks xr yr points) in *.
  set (e := map exp_i ph).
  assert (H0 : (0 <= ks)%Z) by lia.
  apply accepted_corners in Hacc as (A1 & A2 & A3 & A4).
  rewrite zeros_ok by lia. rewrite Hfin. cbn [bind check_finite].
  set (g0 := repeat _ _).
  assert (E0 : zeros czero ks = Ok g0) by (now apply zeros_ok).
  apply czeros_inv in E0 as [S0 Z0].
  destruct (cput_ok ks g0 floor_long share_tl pif ra e H0 A1) as [g1 E1].
  destruct (cput_ok ks g1 corner_tr share_tr pif ra e H0 A2) as [g2 E2].
  destruct (cput_ok ks g2 corner_bl share_bl pif ra e H0 A3) as [g3 E3].
  destruct (cput_ok ks g3 corner_br share_br pif ra e H0 A4) as [g4 E4].
  rewrite E1. cbn [bind]. rewrite E2. cbn [bind]. rewrite E3. cbn [bind].
  rewrite E4. cbn [bind]. exists g4. split; [reflexivity|].
  assert (S1 : grid_shape ks g1)
    by (eapply accumulate_shape; [exact S0 | exact E1]).
  assert (S2 : grid_shape ks g2)
    by (eapply accumulate_shape; [exact S1 | exact E2]).
  assert (S3 : grid_shape ks g3)
    by (eapply accumulate_shape; [exact S2 | exact E3]).
  split; [eapply accumulate_shape; [exact S3 | exact E4]|].
  intros r c. unfold cell_value.
  destruct (cput_entry pr Hadd Hscale Hzero ks g0 floor_long share_tl pif ra
                       exp_i ph g1 r c S0 E1) as [_ V1].
  destruct (cput_entry pr Hadd Hscale Hzero ks g1 corner_tr share_tr pif ra
                       exp_i ph g2 r c S1 E2) as [_ V2].
  destruct (cput_entry pr Hadd Hscale Hzero ks g2 corner_bl share_bl pif ra
                       exp_i ph g3 r c S2 E3) as [_ V3].
  destruct (cput_entry pr Hadd Hscale Hzero ks g3 corner_br share_br pif ra
                       exp_i ph g4 r c S3 E4) as [_ V4].
  rewrite V4, V3, V2, V1, Z0, Hzero. ring.
Qed.
End CoherentRuns.

Lemma coherent_splits_into_incoherent_aux (exp_i : Q -> complex) points ks
      x_range y_range ra phase d obliq wvln :
  length points = length ra -> length points = length phase ->
  (2 <= ks)%Z -> finite_indices x_range y_range points = true ->
  Forall (accepted ks true)
         (pixel_indices_float ks x_range y_range points) ->
  exists g g_re g_im,
    assign_points_to_pixels exp_i points ks x_range y_range ra true true
                            (Some phase) d obliq wvln = Ok (ComplexGrid g)
    /\ grid_shape ks g
    /\ assign_points_to_pixels exp_i points ks x_range y_range
         (zipWith (fun r phi => r * fst (exp_i phi)) ra phase) true false
         None d obliq wvln = Ok (RealGrid g_re)
    /\ assign_points_to_pixels exp_i points ks x_range y_range
         (zipWith (fun r phi => r * snd (exp_i phi)) ra phase) true false
         None d obliq wvln = Ok (RealGrid g_im)
    /\ forall r c,
        fst (centry g r c) == entry g_re r c
        /\ snd (centry g r c) == entry g_im r c.
Proof.
  intros Hlen Hph Hks Hfin Hacc.
  destruct (coherent_run exp_i fst points ks x_range y_range ra phase d obliq
              wvln fst_add fst_scale eq_refl Hlen Hph Hks Hfin Hacc)
    as (g & Eg & Sg & Vre).
  destruct (coherent_run exp_i snd points ks x_range y_range ra phase d obliq
              wvln snd_add snd_scale eq_refl Hlen Hph Hks Hfin Hacc)
    as (g' & Eg' & _ & Vim).
  rewrite Eg in Eg'. injection Eg' as <-.
  assert (Lre : length points
                = length (zipWith (fun r phi => r * fst (exp_i phi)) ra phase))
    by (rewrite zipWith_length; congruence).
  assert (Lim : length points
                = length (zipWith (fun r phi => r * snd (exp_i phi)) ra phase))
    by (rewrite zipWith_length; congruence).
  destruct (splat_cell_values exp_i points ks x_range y_range _ true None d
              obliq wvln Lre Hks Hfin Hacc) as (g_re & Ere & _ & Wre).
  destruct (splat_cell_values exp_i points ks x_range y_range _ true None d
              obliq wvln Lim Hks Hfin Hacc) as (g_im & Eim & _ & Wim).
  exists g, g_re, g_im. repeat split; auto; try apply Sg.
  - now rewrite Vre, Wre.
  - now rewrite Vim, Wim.
Qed.

(** ** The coherent grid *)

(** X10. The coherent branch is two incoherent splats.  With one weight and one
    phase per sample, on accepted samples, the coherent Splatter returns a
    complex [ks] by [ks] grid whose real part is, entry by entry, the
    incoherent interpolated grid of the weights [ra * Re(exp(i phase))],
    and whose imaginary part is that of the weights
    [ra * Im(exp(i phase))]. *)
Theorem coherent_splits_into_incoherent (exp_i : Q -> complex) points ks
        x_range y_range ra phase d obliq wvln :
  length points = length ra -> length points = length phase ->
  (2 <= ks)%Z -> finite_indices x_range y_range points = true ->
  Forall (accepted ks true)
         (pixel_indices_float ks x_range y_range points) ->
  exists g g_re g_im,
    assign_points_to_pixels exp_i points ks x_range y_range ra true true
                            (Some phase) d obliq wvln = Ok (ComplexGrid g)
    /\ grid_shape ks g
    /\ assign_points_to_pixels exp_i points ks x_range y_range
         (zipWith (fun r phi => r * fst (exp_i phi)) ra phase) true false
         None d obliq wvln = Ok (RealGrid g_re)
    /\ assign_points_to_pixels exp_i points ks x_range y_range
         (zipWith (fun r phi => r * snd (exp_i phi)) ra phase) true false
         None d obliq wvln = Ok (RealGrid g_im)
    /\ forall r c,
        fst (centry g r c) == entry g_re r c
        /\ snd (centry g r c) == entry g_im r c.
Proof.
  exact (coherent_splits_into_incoherent_aux exp_i points ks x_range y_range
           ra phase d obliq wvln).
Qed.

(** A rational point of the unit circle for each phase, to evaluate the
    coherent branch: phase 0 gives 1, phase 1 gives 3/5 + 4/5 i, any other
    phase gives i. *)
Lemma coherent_splits_into_incoherent_witness :
  let e := fun phi : Q =>
             if Qeq_bool phi 0 then (1, 0)
             else if Qeq_bool phi 1 then (3#5, 4#5) else (0, 1) in
  let points : list vec2 := [(1#4, 0); (-1#2, 1#2); (1#3, 1#5)] in
  let ra := [1; 1#2; 1#4] in
  let phase := [0; 1; 2] in
  let range := (-3#2, 3#2) in
  length points = length ra /\ length points = length phase /\ (2 <= 4)%Z
  /\ finite_indices range range points = true
  /\ Forall (accepted 4 true) (pixel_indices_float 4 range range points)
  /\ exists g g_re g_im,
      assign_points_to_pixels e points 4 range range ra true true
                              (Some phase) None None (589#1000)
      = Ok (ComplexGrid g)
      /\ grid_shape 4 g
      /\ assign_points_to_pixels e points 4 range range
           (zipWith (fun r phi => r * fst (e phi)) ra phase) true false
           None None None (589#1000) = Ok (RealGrid g_re)
      /\ assign_points_to_pixels e points 4 range range
           (zipWith (fun r phi => r * snd (e phi)) ra phase) true false
           None None None (589#1000) = Ok (RealGrid g_im)
      /\ forall r c,
          fst (centry g r c) == entry g_re r c
          /\ snd (centry g r c) == entry g_im r c.
Proof.
  intros e points ra phase range.
  assert (H1 : length points = length ra) by reflexivity.
  assert (H2 : length points = length phase) by reflexivity.
  assert (H3 : (2 <= 4)%Z) by discriminate.
  assert (H4 : finite_indices range range points = true) by reflexivity.
  assert (H5 : Forall (accepted 4 true)
                      (pixel_indices_float 4 range range points)).
  { repeat (apply Forall_cons || apply Forall_nil);
      unfold accepted; repeat split; vm_compute; discriminate. }
  split; [exact H1|]. split; [exact H2|]. split; [exact H3|].
  split; [exact H4|]. split; [exact H5|].
  exact (coherent_splits_into_incoherent e points 4 range range ra phase None
           None (589#1000) H1 H2 H3 H4 H5).
Defined.

(** ** Energy of the PSF *)

Lemma mask_ra_bounds (ps : Q) (ks : Z) (r : Q) (s : vec2) :
  0 <= r -> 0 <= mask_ra ps ks r s /\ mask_ra ps ks r s <= r.
Proof.
  intros Hr.
  destruct (mask_ra_cases ps ks r s) as [(_ & _ & E) | [_ E]]; rewrite E;
    split; lra.
Qed.

Lemma masked_sum_bounds (ps : Q) (ks : Z) (rs : list Q) :
  Forall (fun r => 0 <= r) rs ->
  forall ss : list vec2,
    Forall (fun r => 0 <= r) (zipWith (mask_ra ps ks) rs ss)
    /\ Qsum (zipWith (mask_ra ps ks) rs ss) <= Qsum rs.
Proof.
  induction 1 as [|r rs Hr Hrs IH]; intros [|s ss]; simpl.
  - split; [constructor | apply Qle_refl].
  - split; [constructor | apply Qle_refl].
  - split; [constructor|]. pose proof (Qsum_nonneg rs Hrs).
    unfold Qsum in *; simpl. lra.
  - destruct (IH ss) as [IH1 IH2].
    destruct (mask_ra_bounds ps ks r s Hr) as [B1 B2].
    split; [now constructor|]. unfold Qsum in *; simpl. lra.
Qed.

Lemma masked_sum_inside (ps : Q) (ks : Z) (ss : list vec2) :
  Forall (fun s => Qabs (fst s) < mask_threshold ps ks
                   /\ Qabs (snd s) < mask_threshold ps ks) ss ->
  forall rs, length rs = length ss ->
             Qsum (zipWith (mask_ra ps ks) rs ss) == Qsum rs.
Proof.
  induction 1 as [|s ss [Hx Hy] _ IH]; intros [|r rs] Hlen; simpl in *;
    try discriminate; try reflexivity.
  specialize (IH rs ltac:(lia)).
  pose proof (mask_keeps_inside ps ks r s Hx Hy).
  unfold Qsum in *; simpl. lra.
Qed.

Section PsfEnergy.
Variable exp_i : Q -> complex.
Variable EPSILON : Q.
Hypothesis EPSILON_pos : 0 < EPSILON.

Lemma ra1_nonneg ps ks samples pointc_ref :
  Forall unit_weight samples ->
  Forall (fun r => 0 <= r) (ra1 EPSILON ps ks samples pointc_ref)
  /\ Qsum (ra1 EPSILON ps ks samples pointc_ref)
     <= Qsum (map ray_ra samples).
Proof.
  intros Hw. unfold ra1. apply masked_sum_bounds.
  apply Forall_map. eapply Forall_impl; [|exact Hw].
  intros s [H _]. exact H.
Qed.

Lemma point_call_facts samples ps ks pointc_ref :
  (2 <= ks)%Z -> ~ ps == 0 -> Forall unit_weight samples ->
  exists g,
    point_call exp_i EPSILON samples ps ks pointc_ref = Ok (RealGrid g)
    /\ grid_shape ks g
    /\ grid_all (fun q => 0 <= q) g
    /\ grid_sum g == Qsum (ra1 EPSILON ps ks samples pointc_ref).
Proof.
  intros Hks Hps Hw.
  destruct (point_call_returns exp_i EPSILON EPSILON_pos samples ps ks
                               pointc_ref Hks Hps Hw) as [g Eg].
  exists g. split; [exact Eg|].
  apply require_finite_inv in Eg.
  assert (Hlen : length (points_masked1 EPSILON ps ks samples pointc_ref)
                 = length (ra1 EPSILON ps ks samples pointc_ref))
    by now rewrite points_masked1_length, ra1_length.
  destruct (ra1_nonneg ps ks samples pointc_ref Hw) as [Hnn _].
  destruct (splat_sum exp_i _ _ _ _ _ _ _ _ _ _ _ Hlen Eg)
    as (g' & [= <-] & Hs & Hsum).
  split; [exact Hs|]. split; [|exact Hsum].
  assert (Hstep : forall x v : Q, 0 <= x -> 0 <= v -> 0 <= x + v)
    by (intros; lra).
  assert (Hin : forall r, In r (ra1 EPSILON ps ks samples pointc_ref) ->
                          0 <= r)
    by (apply Forall_forall; exact Hnn).
  assert (Hval : forall c r, 0 <= c ->
                   In r (ra1 EPSILON ps ks samples pointc_ref) -> 0 <= c * r)
    by (intros c r Hc Hr; apply Qmult_le_0_compat; auto).
  destruct (splat_all exp_i (fun q => 0 <= q) (fun v => 0 <= v)
                      _ _ _ _ _ _ _ _ _ _ _
                      (Qle_refl 0) Hstep Hin Hval Hlen Eg)
    as (g' & [= <-] & Hall).
  exact Hall.
Qed.
End PsfEnergy.

(** ** Energy and shape of the PSF *)

(** X12. Energy of a single-point PSF.  For weights in [0, 1], a kernel size of
    at least 2, a non-zero pixel size and a positive [EPSILON],
    [forward_integral] returns a real [ks] by [ks] grid with non-negative
    entries whose sum is the sum of the masked weights: never more than the
    total weight of the rays, and exactly the total weight when every
    shifted sample lies strictly inside the masking threshold. *)
Theorem psf_energy (exp_i : Q -> complex) (EPSILON : Q) samples ps ks
        pointc_ref interpolate :
  0 < EPSILON -> (2 <= ks)%Z -> ~ ps == 0 -> Forall unit_weight samples ->
  exists g,
    forward_integral exp_i EPSILON (RayPoint samples) ps ks pointc_ref
                     interpolate = Ok (PsfGrid (RealGrid g))
    /\ grid_shape ks g
    /\ grid_all (fun q => 0 <= q) g
    /\ grid_sum g == Qsum (ra1 EPSILON ps ks samples pointc_ref)
    /\ 0 <= grid_sum g /\ grid_sum g <= Qsum (map ray_ra samples)
    /\ (Forall (fun s => Qabs (fst s) < mask_threshold ps ks
                         /\ Qabs (snd s) < mask_threshold ps ks)
               (points_shift1 EPSILON samples pointc_ref) ->
        grid_sum g == Qsum (map ray_ra samples)).
Proof.
  intros Heps Hks Hps Hw.
  destruct (point_call_facts exp_i EPSILON Heps samples ps ks pointc_ref
                             Hks Hps Hw) as (g & Eg & Hs & Hall & Hsum).
  destruct (ra1_nonneg EPSILON ps ks samples pointc_ref Hw) as [Hnn Hle].
  exists g. rewrite forward_integral_point, Eg. cbn [bind].
  split; [reflexivity|]. split; [exact Hs|]. split; [exact Hall|].
  split; [exact Hsum|]. split; [|split].
  - rewrite Hsum. now apply Qsum_nonneg.
  - now rewrite Hsum.
  - intros Hin. rewrite Hsum. unfold ra1. apply masked_sum_inside; auto.
    now rewrite length_map, points_shift1_length.
Qed.

Lemma psf_energy_witness :
  let samples :=
    [sample_at (1#4) 0 1; sample_at (-1) 1 (1#2); sample_at 3 0 1] in
  0 < EPS12 /\ (2 <= 4)%Z /\ ~ 1 == 0 /\ Forall unit_weight samples
  /\ exists g,
      forward_integral exp_i_unit EPS12 (RayPoint samples) 1 4 (Some (0, 0))
                       false = Ok (PsfGrid (RealGrid g))
      /\ grid_shape 4 g
      /\ grid_all (fun q => 0 <= q) g
      /\ grid_sum g == Qsum (ra1 EPS12 1 4 samples (Some (0, 0)))
      /\ 0 <= grid_sum g /\ grid_sum g <= Qsum (map ray_ra samples)
      /\ (Forall (fun s => Qabs (fst s) < mask_threshold 1 4
                           /\ Qabs (snd s) < mask_threshold 1 4)
                 (points_shift1 EPS12 samples (Some (0, 0))) ->
          grid_sum g == Qsum (map ray_ra samples)).
Proof.
  intros samples.
  assert (H1 : 0 < EPS12) by reflexivity.
  assert (H2 : (2 <= 4)%Z) by discriminate.
  assert (H3 : ~ 1 == 0) by discriminate.
  assert (H4 : Forall unit_weight samples)
    by (repeat constructor; discriminate).
  split; [exact H1|]. split; [exact H2|]. split; [exact H3|].
  split; [exact H4|].
  exact (psf_energy exp_i_unit EPS12 samples 1 4 (Some (0, 0)) false
                    H1 H2 H3 H4).
Defined.

(** X13. Shape of a batch PSF.  For a batch of [N >= 1] points whose rows all
    hold [N] samples, with weights in [0, 1], a kernel size of at least 2,
    a non-zero pixel size and a positive [EPSILON], [forward_integral]
    returns a stack of exactly [N] real [ks] by [ks] grids with
    non-negative entries, and grid [i] sums to the masked weights of
    point [i]. *)
Theorem psf_stack_shape (exp_i : Q -> complex) (EPSILON : Q) N samples ps ks
        pointc_ref interpolate :
  0 < EPSILON -> (2 <= ks)%Z -> ~ ps == 0 -> (0 < N)%nat ->
  rows_of_length N samples -> Forall (Forall unit_weight) samples ->
  exists l,
    forward_integral exp_i EPSILON (RayBatch N samples) ps ks pointc_ref
                     interpolate = Ok (PsfStack l)
    /\ length l = N
    /\ forall i, (i < N)%nat ->
         exists g,
           nth i l (RealGrid []) = RealGrid g
           /\ grid_shape ks g
           /\ grid_all (fun q => 0 <= q) g
           /\ grid_sum g
              == Qsum (col 0 i (raN EPSILON ps ks N samples pointc_ref)).
Proof.
  intros Heps Hks Hps HN Hrows Hw.
  assert (Hcall : forall i, (i < N)%nat ->
            exists g,
              batch_call exp_i EPSILON N samples ps ks pointc_ref i
              = Ok (RealGrid g)
              /\ grid_shape ks g /\ grid_all (fun q => 0 <= q) g
              /\ grid_sum g
                 == Qsum (col 0 i (raN EPSILON ps ks N samples pointc_ref))).
  { intros i Hi. rewrite batch_call_col by assumption.
    destruct (col_masked EPSILON N i samples ps ks pointc_ref Hrows Hi)
      as [-> _].
    apply point_call_facts; auto.
    apply Forall_col; auto. unfold unit_weight; simpl. lra. }
  rewrite forward_integral_batch.
  destruct (mapM_seq_ok
              (batch_call exp_i EPSILON N samples ps ks pointc_ref) N 0)
    as (l & El & Hl).
  { intros i Hi. destruct (Hcall i Hi) as (g & Eg & _). simpl. eauto. }
  rewrite El. cbn [bind].
  destruct l as [|G l]; [simpl in Hl; lia|].
  exists (G :: l). split; [reflexivity|]. split; [exact Hl|].
  intros i Hi.
  apply (mapM_seq_nth _ (RealGrid [])) in El as [_ Hn].
  specialize (Hn i Hi). simpl in Hn.
  destruct (Hcall i Hi) as (g & Eg & Hfacts).
  rewrite Eg in Hn. injection Hn as Hn. exists g. split; auto.
Qed.

Lemma psf_stack_shape_witness :
  let samples :=
    [[sample_at (1#4) 0 1; sample_at 1 1 (1#2)];
     [sample_at (-7#4) 0 1; sample_at (5#4) 1 (1#2)]] in
  0 < EPS12 /\ (2 <= 4)%Z /\ ~ 1 == 0 /\ (0 < 2)%nat
  /\ rows_of_length 2 samples /\ Forall (Forall unit_weight) samples
  /\ exists l,
      forward_integral exp_i_unit EPS12 (RayBatch 2 samples) 1 4 None false
      = Ok (PsfStack l)
      /\ length l = 2%nat
      /\ forall i, (i < 2)%nat ->
           exists g,
             nth i l (RealGrid []) = RealGrid g
             /\ grid_shape 4 g
             /\ grid_all (fun q => 0 <= q) g
             /\ grid_sum g == Qsum (col 0 i (raN EPS12 1 4 2 samples None)).
Proof.
  intros samples.
  assert (H1 : 0 < EPS12) by reflexivity.
  assert (H2 : (2 <= 4)%Z) by discriminate.
  assert (H3 : ~ 1 == 0) by discriminate.
  assert (H4 : (0 < 2)%nat) by lia.
  assert (H5 : rows_of_length 2 samples) by (repeat constructor).
  assert (H6 : Forall (Forall unit_weight) samples)
    by (repeat constructor; discriminate).
  split; [exact H1|]. split; [exact H2|]. split; [exact H3|].
  split; [exact H4|]. split; [exact H5|]. split; [exact H6|].
  exact (psf_stack_shape exp_i_unit EPS12 2 samples 1 4 None false
                         H1 H2 H3 H4 H5 H6).
Defined.

(** ** The lattice of the window *)

(** X14. The window handed to the Splatter keeps the pixel size, as the comment
    on line 25 says: for a kernel size of at least 2 and a non-zero pixel
    size, the pixel size the Splatter recomputes on line 80 is [ps], the
    fractional index of a shifted point (x, y) is
    ((ks-1)/2 - y/ps, x/ps + (ks-1)/2), so that one pixel to the right is
    one column further and one pixel up is one row less. *)
Theorem window_keeps_pixel_size (ps : Q) (ks : Z) (x y : Q) :
  (2 <= ks)%Z -> ~ ps == 0 ->
  (exists q, splatter_ps ks (psf_range ps ks) = Ok q /\ q == ps)
  /\ exists row col row_up col_right,
      pixel_indices_float ks (psf_range ps ks) (psf_range ps ks) [(x, y)]
      = [(row, col)]
      /\ pixel_indices_float ks (psf_range ps ks) (psf_range ps ks)
                             [(x + ps, y + ps)]
         = [(row_up, col_right)]
      /\ row == (inject_Z ks - 1) * (1#2) - y / ps
      /\ col == x / ps + (inject_Z ks - 1) * (1#2)
      /\ row_up == row - 1
      /\ col_right == col + 1.
Proof.
  intros Hks Hps. pose proof (inject_Z_ge2 ks Hks) as HK.
  assert (Hk : ((ks - 1 =? 0) = false)%Z) by (apply Z.eqb_neq; lia).
  split.
  - unfold splatter_ps. rewrite Hk. eexists. split; [reflexivity|].
    unfold psf_range. cbn [fst snd]. rewrite inject_Z_pred.
    revert HK. generalize (inject_Z ks) as K. intros K HK.
    field. lra.
  - unfold pixel_indices_float, normalize, psf_range. cbn [map fst snd].
    do 4 eexists. split; [reflexivity|]. split; [reflexivity|].
    rewrite !inject_Z_pred.
    revert HK. generalize (inject_Z ks) as K. intros K HK.
    assert (HK1 : ~ K - 1 == 0) by lra.
    rewrite !row_index_eq, !col_index_eq by assumption.
    repeat split; field; assumption.
Qed.

Lemma window_keeps_pixel_size_witness :
  (2 <= 4)%Z /\ ~ (1#2) == 0
  /\ (exists q, splatter_ps 4 (psf_range (1#2) 4) = Ok q /\ q == 1#2)
  /\ exists row col row_up col_right,
      pixel_indices_float 4 (psf_range (1#2) 4) (psf_range (1#2) 4)
                          [(1#4, 1#3)]
      = [(row, col)]
      /\ pixel_indices_float 4 (psf_range (1#2) 4) (psf_range (1#2) 4)
                             [((1#4) + (1#2), (1#3) + (1#2))]
         = [(row_up, col_right)]
      /\ row == (inject_Z 4 - 1) * (1#2) - (1#3) / (1#2)
      /\ col == (1#4) / (1#2) + (inject_Z 4 - 1) * (1#2)
      /\ row_up == row - 1
      /\ col_right == col + 1.
Proof.
  assert (H1 : (2 <= 4)%Z) by discriminate.
  assert (H2 : ~ (1#2) == 0) by discriminate.
  split; [exact H1|]. split; [exact H2|].
  exact (window_keeps_pixel_size (1#2) 4 (1#4) (1#3) H1 H2).
Defined.

(** ** The automatic centre under translation *)

Lemma Forall2_maps {A B C : Type} (R : B -> C -> Prop) (f : A -> B)
      (g : A -> C) (l : list A) :
  (forall x, In x l -> R (f x) (g x)) -> Forall2 R (map f l) (map g l).
Proof.
  induction l as [|x l IH]; intros H; simpl; constructor.
  - apply H. simpl; auto.
  - apply IH. intros y Hy. apply H. simpl; auto.
Qed.

Lemma point_of_move (t : vec2) (s : ray_sample) :
  fst (point_of (move_sample t s)) == fst (point_of s) + fst t
  /\ snd (point_of (move_sample t s)) == snd (point_of s) + snd t.
Proof.
  unfold point_of, move_sample. destruct (ray_o s) as [[x y] z].
  cbn [ray_o fst snd]. split; ring.
Qed.

Lemma ray_ra_move (t : vec2) (samples : list ray_sample) :
  map ray_ra (map (move_sample t) samples) = map ray_ra samples.
Proof.
  rewrite map_map. apply map_ext. intros s. unfold move_sample.
  now destruct (ray_o s) as [[x y] z].
Qed.

Lemma weighted_sum_move (t : vec2) (samples : list ray_sample) :
  let S := fun l => fold_right vadd vzero
                      (zipWith vscale (map point_of l) (map ray_ra l)) in
  fst (S (map (move_sample t) samples))
  == fst (S samples) + fst t * Qsum (map ray_ra samples)
  /\ snd (S (map (move_sample t) samples))
     == snd (S samples) + snd t * Qsum (map ray_ra samples).
Proof.
  cbv zeta. induction samples as [|s samples [IH1 IH2]]; simpl.
  - unfold Qsum; simpl. split; ring.
  - destruct (point_of_move t s) as [P1 P2].
    assert (Hr : ray_ra (move_sample t s) = ray_ra s).
    { unfold move_sample. now destruct (ray_o s) as [[x y] z]. }
    unfold Qsum in *. cbn [fst snd fold_right vadd vscale].
    rewrite IH1, IH2, P1, P2, Hr. split; ring.
Qed.

(** X15. Translation and the automatic centre.  When every image point of a
    single-point bundle is moved by [t], the automatically centred points
    move by [t * EPSILON / (sum of ra + EPSILON)]: the centroid follows the
    translation only up to the epsilon of its denominator, exactly when the
    epsilon is zero, and not at all when all weights are zero. *)
Theorem auto_centre_translation (EPSILON : Q) (t : vec2) samples :
  ~ centroid_den EPSILON (map ray_ra samples) == 0 ->
  Forall2 (fun s' s =>
             fst s' == fst s + fst t
                       * (EPSILON
                          / centroid_den EPSILON (map ray_ra samples))
             /\ snd s' == snd s + snd t
                          * (EPSILON
                             / centroid_den EPSILON (map ray_ra samples)))
          (points_shift1 EPSILON (map (move_sample t) samples) None)
          (points_shift1 EPSILON samples None).
Proof.
  intros Hden. unfold points_shift1, shift_points, centroid.
  rewrite ray_ra_move.
  destruct (weighted_sum_move t samples) as [S1 S2]. cbv zeta in S1, S2.
  rewrite ray_ra_move in S1, S2.
  set (S' := fold_right vadd vzero
               (zipWith vscale (map point_of (map (move_sample t) samples))
                        (map ray_ra samples))) in *.
  set (S := fold_right vadd vzero
              (zipWith vscale (map point_of samples) (map ray_ra samples)))
    in *.
  rewrite !map_map. apply Forall2_maps. intros s _.
  destruct (point_of_move t s) as [P1 P2].
  unfold vsub, vdiv. cbn [fst snd]. rewrite P1, P2, S1, S2.
  unfold centroid_den in *.
  set (R := Qsum (map ray_ra samples)) in *.
  split; field; exact Hden.
Qed.

Lemma auto_centre_translation_witness :
  let samples := [sample_at (1#4) 0 1; sample_at (-1) 1 (1#2)] in
  ~ centroid_den EPS12 (map ray_ra samples) == 0
  /\ Forall2 (fun s' s =>
                fst s' == fst s + fst (3, -2)
                          * (EPS12 / centroid_den EPS12 (map ray_ra samples))
                /\ snd s' == snd s + snd (3, -2)
                             * (EPS12
                                / centroid_den EPS12 (map ray_ra samples)))
             (points_shift1 EPS12 (map (move_sample (3, -2)) samples) None)
             (points_shift1 EPS12 samples None).
Proof.
  intros samples.
  assert (H1 : ~ centroid_den EPS12 (map ray_ra samples) == 0)
    by (vm_compute; discriminate).
  split; [exact H1|].
  exact (auto_centre_translation EPS12 (3, -2) samples H1).
Defined.

(** ** Coherent energy *)

Lemma Qsum_nth_ext (l : list Q) :
  forall l', length l = length l' ->
             (forall i, nth i l 0 == nth i l' 0) -> Qsum l == Qsum l'.
Proof.
  induction l as [|x l IH]; intros [|y l'] Hlen H; simpl in Hlen;
    try discriminate; [reflexivity|].
  pose proof (H 0%nat) as H0. simpl in H0.
  assert (IH' : Qsum l == Qsum l').
  { apply IH; [lia|]. intros i. exact (H (S i)). }
  unfold Qsum in *; simpl. lra.
Qed.

Lemma grid_sum_ext (ks : Z) (g g' : list (list Q)) :
  grid_shape ks g -> grid_shape ks g' ->
  (forall r c, entry g r c == entry g' r c) -> grid_sum g == grid_sum g'.
Proof.
  intros [Hl Hr] [Hl' Hr'] H. unfold grid_sum.
  apply Qsum_nth_ext; [rewrite !length_map; congruence|].
  intros r. change 0 with (Qsum []).
  rewrite !(map_nth Qsum).
  destruct (Nat.lt_ge_cases r (length g)) as [Hlt|Hge].
  - apply Qsum_nth_ext.
    + assert (In (nth r g []) g) by (apply nth_In; lia).
      assert (In (nth r g' []) g') by (apply nth_In; lia).
      rewrite (proj1 (Forall_forall _ _) Hr _ H0).
      now rewrite (proj1 (Forall_forall _ _) Hr' _ H1).
    + intros c. apply H.
  - rewrite !nth_overflow by lia. reflexivity.
Qed.

(** X11. Coherent energy.  With one weight and one phase per sample, on accepted
    samples, the entries of the coherent grid add up to the complex number
    [sum of ra * exp(i phase)]: the real parts of the entries sum to
    [sum of ra * Re(exp(i phase))] and the imaginary parts to
    [sum of ra * Im(exp(i phase))]. *)
Theorem coherent_energy (exp_i : Q -> complex) points ks x_range y_range ra
        phase d obliq wvln :
  length points = length ra -> length points = length phase ->
  (2 <= ks)%Z -> finite_indices x_range y_range points = true ->
  Forall (accepted ks true)
         (pixel_indices_float ks x_range y_range points) ->
  exists g,
    assign_points_to_pixels exp_i points ks x_range y_range ra true true
                            (Some phase) d obliq wvln = Ok (ComplexGrid g)
    /\ grid_sum (map (map fst) g)
       == Qsum (zipWith (fun r phi => r * fst (exp_i phi)) ra phase)
    /\ grid_sum (map (map snd) g)
       == Qsum (zipWith (fun r phi => r * snd (exp_i phi)) ra phase).
Proof.
  intros Hlen Hph Hks Hfin Hacc.
  destruct (coherent_splits_into_incoherent_aux exp_i points ks x_range
              y_range ra phase d obliq wvln Hlen Hph Hks Hfin Hacc)
    as (g & g_re & g_im & Eg & Sg & Ere & Eim & Hent).
  exists g. split; [exact Eg|].
  assert (Lre : length points
                = length (zipWith (fun r phi => r * fst (exp_i phi)) ra phase))
    by (rewrite zipWith_length; congruence).
  assert (Lim : length points
                = length (zipWith (fun r phi => r * snd (exp_i phi)) ra phase))
    by (rewrite zipWith_length; congruence).
  destruct (splat_sum exp_i _ _ _ _ _ _ _ _ _ _ _ Lre Ere)
    as (g1 & [= <-] & S1 & Sum1).
  destruct (splat_sum exp_i _ _ _ _ _ _ _ _ _ _ _ Lim Eim)
    as (g2 & [= <-] & S2 & Sum2).
  split.
  - rewrite <- Sum1. apply (grid_sum_ext ks); auto.
    + now apply proj_shape.
    + intros r c. rewrite (entry_proj fst eq_refl). apply Hent.
  - rewrite <- Sum2. apply (grid_sum_ext ks); auto.
    + now apply proj_shape.
    + intros r c. rewrite (entry_proj snd eq_refl). apply Hent.
Qed.

Lemma coherent_energy_witness :
  let e := fun phi : Q =>
             if Qeq_bool phi 0 then (1, 0)
             else if Qeq_bool phi 1 then (3#5, 4#5) else (0, 1) in
  let points : list vec2 := [(1#4, 0); (-1#2, 1#2); (1#3, 1#5)] in
  let ra := [1; 1#2; 1#4] in
  let phase := [0; 1; 2] in
  let range := (-3#2, 3#2) in
  length points = length ra /\ length points = length phase /\ (2 <= 4)%Z
  /\ finite_indices range range points = true
  /\ Forall (accepted 4 true) (pixel_indices_float 4 range range points)
  /\ exists g,
      assign_points_to_pixels e points 4 range range ra true true
                              (Some phase) None None (589#1000)
      = Ok (ComplexGrid g)
      /\ grid_sum (map (map fst) g)
         == Qsum (zipWith (fun r phi => r * fst (e phi)) ra phase)
      /\ grid_sum (map (map snd) g)
         == Qsum (zipWith (fun r phi => r * snd (e phi)) ra phase).
Proof.
  intros e points ra phase range.
  assert (H1 : length points = length ra) by reflexivity.
  assert (H2 : length points = length phase) by reflexivity.
  assert (H3 : (2 <= 4)%Z) by discriminate.
  assert (H4 : finite_indices range range points = true) by reflexivity.
  assert (H5 : Forall (accepted 4 true)
                      (pixel_indices_float 4 range range points)).
  { repeat (apply Forall_cons || apply Forall_nil);
      unfold accepted; repeat split; vm_compute; discriminate. }
  split; [exact H1|]. split; [exact H2|]. split; [exact H3|].
  split; [exact H4|]. split; [exact H5|].
  exact (coherent_energy e points 4 range range ra phase None None
                         (589#1000) H1 H2 H3 H4 H5).
Defined.

(** ** C5 *)

Lemma Qsum_app (a b : list Q) : Qsum (a ++ b) == Qsum a + Qsum b.
Proof.
  unfold Qsum. induction a as [|x a IH]; simpl; [ring|].
  rewrite IH. ring.
Qed.

Lemma split_at {A : Type} (d : A) (k : nat) (l : list A) :
  (k < length l)%nat -> l = firstn k l ++ nth k l d :: skipn (S k) l.
Proof.
  revert k. induction l as [|x l IH]; intros [|k] H; simpl in *;
    try lia; auto.
  f_equal. apply IH. lia.
Qed.

Lemma point_samples_unit (ray : Ray) (i : nat) :
  weights_in_unit ray -> Forall unit_weight (point_samples ray i).
Proof.
  destruct ray as [samples | N samples]; simpl; auto.
  intros H. apply Forall_col; [|exact H].
  apply zero_weight_unit. reflexivity.
Qed.

(** [forward_integral] returns, and the grid of point [i] in its result is
    the grid of the call of the Splatter made for the samples of
    point [i]. *)
Lemma forward_integral_grids (exp_i : Q -> complex) (EPSILON : Q) ray ps ks
      pointc_ref interpolate :
  0 < EPSILON -> (2 <= ks)%Z -> ~ ps == 0 -> ray_shape ray ->
  weights_in_unit ray -> (0 < point_count ray)%nat ->
  exists psf,
    forward_integral exp_i EPSILON ray ps ks pointc_ref interpolate = Ok psf
    /\ forall i, (i < point_count ray)%nat ->
         point_call exp_i EPSILON (point_samples ray i) ps ks pointc_ref
         = Ok (psf_grid psf i).
Proof.
  intros He Hks Hps Hshape Hunit Hn.
  destruct ray as [samples | N samples]; cbn [point_count point_samples] in *.
  - destruct (point_call_facts exp_i EPSILON He samples ps ks pointc_ref
                               Hks Hps Hunit) as (g & E & _).
    exists (PsfGrid (RealGrid g)). rewrite forward_integral_point, E.
    split; [reflexivity|]. intros i _. reflexivity.
  - rewrite forward_integral_batch.
    destruct (mapM_seq_ok (batch_call exp_i EPSILON N samples ps ks
                                      pointc_ref) N 0) as (ys & E & Ly).
    { intros i Hi. cbn [Nat.add].
      rewrite (batch_call_col exp_i EPSILON N i samples ps ks pointc_ref
                              Hshape Hi).
      destruct (point_call_facts exp_i EPSILON He
                  (col dflt_sample i samples) ps ks pointc_ref Hks Hps
                  (point_samples_unit (RayBatch N samples) i Hunit))
        as (g & Eg & _).
      eauto. }
    rewrite E. cbn [bind].
    destruct ys as [|y ys]; [simpl in Ly; lia|].
    exists (PsfStack (y :: ys)). split; [reflexivity|].
    intros i Hi.
    destruct (mapM_seq_nth _ (RealGrid []) N 0 (y :: ys) E) as [_ Hnth].
    rewrite <- (batch_call_col exp_i EPSILON N i samples ps ks pointc_ref
                               Hshape Hi).
    exact (Hnth i Hi).
Qed.

(** The grid of one call of the Splatter is the grid of the call without
    sample [k] plus the grid of sample [k] alone. *)
Lemma splat_window_split (exp_i : Q -> complex) (ps : Q) (ks : Z)
      (points : list vec2) (ra : list Q) (k : nat) (g : list (list Q)) :
  (2 <= ks)%Z -> ~ ps == 0 -> length points = length ra ->
  (k < length points)%nat -> Forall (windowed2 ps ks) points ->
  splat_window exp_i ps ks points ra = Ok (RealGrid g) ->
  exists g_rest g_own,
    splat_window exp_i ps ks (without k points) (without k ra)
    = Ok (RealGrid g_rest)
    /\ splat_window exp_i ps ks [nth k points vzero] [nth k ra 0]
       = Ok (RealGrid g_own)
    /\ grid_shape ks g /\ grid_shape ks g_rest /\ grid_shape ks g_own
    /\ (forall row column,
          entry g row column
          == entry g_rest row column + entry g_own row column)
    /\ (nth k ra 0 == 0 -> forall row column, entry g_own row column == 0)
    /\ grid_sum g_own == nth k ra 0
    /\ grid_sum g == grid_sum g_rest + nth k ra 0.
Proof.
  intros Hks Hps Hlen Hk Hwin Hg. unfold splat_window in *.
  set (xr := psf_range ps ks) in *.
  set (a := firstn k points). set (b := skipn (S k) points).
  set (wa := firstn k ra). set (wb := skipn (S k) ra).
  set (pk := nth k points vzero). set (w := nth k ra 0).
  assert (Ep : points = a ++ pk :: b) by (apply split_at; exact Hk).
  assert (Er : ra = wa ++ w :: wb) by (apply split_at; lia).
  assert (La : length a = length wa).
  { unfold a, wa. rewrite !length_firstn. lia. }
  assert (Lb : length b = length wb).
  { unfold b, wb. rewrite !length_skipn. lia. }
  assert (Hw : Forall (windowed2 ps ks) a /\ windowed2 ps ks pk
               /\ Forall (windowed2 ps ks) b).
  { rewrite Ep in Hwin. apply Forall_app in Hwin.
    destruct Hwin as [Ha Hb].
    split; [exact Ha|].
    split; [exact (Forall_inv Hb) | exact (Forall_inv_tail Hb)]. }
  destruct Hw as (Wa & Wk & Wb).
  assert (Lr : length (a ++ b) = length (wa ++ wb))
    by (rewrite !length_app; lia).
  destruct (splat_returns exp_i (a ++ b) ks xr xr (wa ++ wb) true None None
              None (589#1000) Lr Hks (psf_range_finite ps ks _ Hks Hps))
    as (g_rest & Erest).
  { apply windowed_in_grid; auto. apply Forall_app. auto. }
  destruct (splat_returns exp_i [pk] ks xr xr [w] true None None None
              (589#1000) eq_refl Hks (psf_range_finite ps ks _ Hks Hps))
    as (g_own & Eown).
  { apply windowed_in_grid; auto. }
  exists g_rest, g_own.
  split; [exact Erest|]. split; [exact Eown|].
  destruct (splat_entries exp_i _ _ _ _ _ _ _ _ _ _ _ Hlen Hg)
    as (g0 & E0 & S0 & V0).
  injection E0 as <-.
  destruct (splat_entries exp_i _ _ _ _ _ _ _ _ _ _ _ Lr Erest)
    as (g1 & E1 & S1 & V1).
  injection E1 as <-.
  destruct (splat_entries exp_i [pk] ks xr xr [w] true None None None
              (589#1000) (RealGrid g_own) eq_refl Eown)
    as (g2 & E2 & S2 & V2).
  injection E2 as <-.
  destruct (splat_sum exp_i _ _ _ _ _ _ _ _ _ _ _ Hlen Hg)
    as (g0 & E0 & _ & T0).
  injection E0 as <-.
  destruct (splat_sum exp_i _ _ _ _ _ _ _ _ _ _ _ Lr Erest)
    as (g1 & E1 & _ & T1).
  injection E1 as <-.
  destruct (splat_sum exp_i [pk] ks xr xr [w] true None None None
              (589#1000) (RealGrid g_own) eq_refl Eown)
    as (g2 & E2 & _ & T2).
  injection E2 as <-.
  split; [exact S0|]. split; [exact S1|]. split; [exact S2|].
  assert (Lpa : length (pixel_indices_float ks xr xr a) = length wa)
    by (now rewrite pif_length).
  split.
  { intros row column. rewrite V0, V1, V2.
    rewrite Ep, Er at 1.
    rewrite !pif_app.
    rewrite (cell_value_app ks true _ _ wa (w :: wb) row column Lpa).
    rewrite (cell_value_app ks true _ _ wa wb row column Lpa).
    change (pk :: b) with ([pk] ++ b).
    change (w :: wb) with ([w] ++ wb).
    rewrite pif_app.
    rewrite (cell_value_app ks true _ _ [w] wb row column)
      by (now rewrite pif_length).
    ring. }
  split.
  { intros Hz row column. rewrite V2. rewrite pif_as_map. cbn [map].
    rewrite (cell_value_zero_head ks true _ [] w [] row column Hz).
    unfold cell_value. simpl. ring. }
  assert (Town : grid_sum g_own == w).
  { rewrite T2. unfold Qsum. simpl. ring. }
  split; [exact Town|].
  rewrite T0, T1. rewrite Er at 1. rewrite !Qsum_app.
  unfold Qsum at 2. simpl fold_right. fold (Qsum wb). ring.
Qed.

(** C5. Masking threshold.  For a bundle of the data model, a positive
    pixel size and a kernel size of at least 2, [forward_integral] returns,
    and the grid [g] it returns for point [i] is, entry by entry, the grid
    [g_rest] the Splatter gives for the other samples of the point plus the
    grid [g_own] it gives for sample [k] alone.  When the shifted sample
    [k] lies at distance [window_half_width] from the centre along one
    axis, its weight is zero, [g_own] is zero everywhere and [g] is
    [g_rest]: the sample contributes nothing to the output.  When it lies
    at distance [window_half_width - 0.02*ps] along one axis and below the
    threshold on the other, it keeps the weight [r] of its ray, [g_own]
    sums to [r], and the output holds [r] more than [g_rest]. *)
Theorem masking_threshold (exp_i : Q -> complex) (EPSILON : Q) ray ps ks
        pointc_ref interpolate i k :
  0 < EPSILON -> 0 < ps -> (2 <= ks)%Z -> ray_shape ray ->
  weights_in_unit ray -> (i < point_count ray)%nat ->
  (k < length (point_samples ray i))%nat ->
  let s := nth k (nth i (splatter_shifts EPSILON ray pointc_ref) []) vzero in
  let points := nth i (splatter_points EPSILON ray ps ks pointc_ref) [] in
  let weights := nth i (splatter_weights EPSILON ray ps ks pointc_ref) [] in
  let w := nth k weights 0 in
  let r := ray_ra (nth k (point_samples ray i) dflt_sample) in
  exists psf g g_rest g_own,
    forward_integral exp_i EPSILON ray ps ks pointc_ref interpolate = Ok psf
    /\ psf_grid psf i = RealGrid g
    /\ grid_shape ks g
    /\ splat_window exp_i ps ks (without k points) (without k weights)
       = Ok (RealGrid g_rest)
    /\ splat_window exp_i ps ks [nth k points vzero] [w]
       = Ok (RealGrid g_own)
    /\ (forall row column,
          entry g row column
          == entry g_rest row column + entry g_own row column)
    /\ (Qabs (fst s) == window_half_width ps ks
        \/ Qabs (snd s) == window_half_width ps ks ->
        w == 0
        /\ (forall row column, entry g_own row column == 0)
        /\ (forall row column,
              entry g row column == entry g_rest row column)
        /\ grid_sum g == grid_sum g_rest)
    /\ (Qabs (fst s) == window_half_width ps ks - (2#100) * ps
        /\ Qabs (snd s) < mask_threshold ps ks ->
        w == r /\ grid_sum g_own == r
        /\ grid_sum g == grid_sum g_rest + r)
    /\ (Qabs (snd s) == window_half_width ps ks - (2#100) * ps
        /\ Qabs (fst s) < mask_threshold ps ks ->
        w == r /\ grid_sum g_own == r
        /\ grid_sum g == grid_sum g_rest + r).
Proof.
  intros He Hps Hks Hshape Hunit Hi Hk s points weights w r.
  assert (Hps0 : ~ ps == 0) by lra.
  subst s points weights w r.
  rewrite nth_splatter_shifts, nth_splatter_weights, nth_splatter_points
    by assumption.
  set (samples := point_samples ray i) in *.
  assert (Hu : Forall unit_weight samples)
    by (apply point_samples_unit; exact Hunit).
  destruct (forward_integral_grids exp_i EPSILON ray ps ks pointc_ref
              interpolate He Hks Hps0 Hshape Hunit)
    as (psf & Epsf & Hcall); [lia|].
  specialize (Hcall i Hi). fold samples in Hcall.
  destruct (point_call_facts exp_i EPSILON He samples ps ks pointc_ref
              Hks Hps0 Hu) as (g & Eg & Sg & _).
  assert (Egrid : psf_grid psf i = RealGrid g) by congruence.
  unfold point_call in Eg. apply require_finite_inv in Eg.
  assert (Eg' : splat_window exp_i ps ks
                  (points_masked1 EPSILON ps ks samples pointc_ref)
                  (ra1 EPSILON ps ks samples pointc_ref)
                = Ok (RealGrid g)).
  { unfold splat_window. rewrite <- Eg. reflexivity. }
  destruct (splat_window_split exp_i ps ks _ _ k g Hks Hps0
              (eq_trans (points_masked1_length EPSILON ps ks samples
                                               pointc_ref)
                        (eq_sym (ra1_length EPSILON ps ks samples
                                            pointc_ref)))
              (eq_ind_r (fun n => (k < n)%nat) Hk
                        (points_masked1_length EPSILON ps ks samples
                                               pointc_ref))
              (points_masked1_windowed EPSILON ps ks samples pointc_ref
                                       Hks Hu)
              Eg')
    as (g_rest & g_own & Erest & Eown & _ & Srest & Sown & Hent & Hzero
        & Hown & Hsum).
  exists psf, g, g_rest, g_own.
  split; [exact Epsf|]. split; [exact Egrid|]. split; [exact Sg|].
  split; [exact Erest|]. split; [exact Eown|]. split; [exact Hent|].
  rewrite nth_ra1 in * by assumption.
  set (sk := nth k (points_shift1 EPSILON samples pointc_ref) vzero) in *.
  set (rk := ray_ra (nth k samples dflt_sample)) in *.
  assert (Hin : forall a b : Q,
             a == window_half_width ps ks - (2#100) * ps ->
             b < mask_threshold ps ks ->
             a < mask_threshold ps ks /\ b < mask_threshold ps ks).
  { intros a b Ha Hb. split; [|exact Hb].
    now apply inside_by_margin. }
  split; [|split].
  - intros Hedge.
    pose proof (mask_excludes_edge ps ks rk sk Hps Hedge) as Hw.
    split; [exact Hw|]. split; [exact (Hzero Hw)|].
    assert (Hsame : forall row column,
               entry g row column == entry g_rest row column).
    { intros row column. rewrite Hent, (Hzero Hw). ring. }
    split; [exact Hsame|].
    exact (grid_sum_ext ks g g_rest Sg Srest Hsame).
  - intros [Ex Hy]. destruct (Hin _ _ Ex Hy) as [Hx Hy'].
    pose proof (mask_keeps_inside ps ks rk sk Hx Hy') as Hw.
    split; [exact Hw|].
    split; [now rewrite Hown | now rewrite Hsum, Hw].
  - intros [Ey Hx]. destruct (Hin _ _ Ey Hx) as [Hy Hx'].
    pose proof (mask_keeps_inside ps ks rk sk Hx' Hy) as Hw.
    split; [exact Hw|].
    split; [now rewrite Hown | now rewrite Hsum, Hw].
Qed.

Lemma masking_threshold_witness :
  let ray := RayPoint [sample_at (-3#2) 0 1; sample_at (-148#100) 0 1] in
  let s := nth 1 (nth 0 (splatter_shifts EPS12 ray (Some (0, 0))) []) vzero in
  let points := nth 0 (splatter_points EPS12 ray 1 4 (Some (0, 0))) [] in
  let weights := nth 0 (splatter_weights EPS12 ray 1 4 (Some (0, 0))) [] in
  let w := nth 1 weights 0 in
  let r := ray_ra (nth 1 (point_samples ray 0) dflt_sample) in
  0 < EPS12 /\ 0 < 1 /\ (2 <= 4)%Z /\ ray_shape ray /\ weights_in_unit ray
  /\ (0 < point_count ray)%nat /\ (1 < length (point_samples ray 0))%nat
  /\ exists psf g g_rest g_own,
      forward_integral exp_i_unit EPS12 ray 1 4 (Some (0, 0)) false = Ok psf
      /\ psf_grid psf 0 = RealGrid g
      /\ grid_shape 4 g
      /\ splat_window exp_i_unit 1 4 (without 1 points) (without 1 weights)
         = Ok (RealGrid g_rest)
      /\ splat_window exp_i_unit 1 4 [nth 1 points vzero] [w]
         = Ok (RealGrid g_own)
      /\ (forall row column,
            entry g row column
            == entry g_rest row column + entry g_own row column)
      /\ (Qabs (fst s) == window_half_width 1 4
          \/ Qabs (snd s) == window_half_width 1 4 ->
          w == 0
          /\ (forall row column, entry g_own row column == 0)
          /\ (forall row column,
                entry g row column == entry g_rest row column)
          /\ grid_sum g == grid_sum g_rest)
      /\ (Qabs (fst s) == window_half_width 1 4 - (2#100) * 1
          /\ Qabs (snd s) < mask_threshold 1 4 ->
          w == r /\ grid_sum g_own == r
          /\ grid_sum g == grid_sum g_rest + r)
      /\ (Qabs (snd s) == window_half_width 1 4 - (2#100) * 1
          /\ Qabs (fst s) < mask_threshold 1 4 ->
          w == r /\ grid_sum g_own == r
          /\ grid_sum g == grid_sum g_rest + r).
Proof.
  intros ray.
  assert (H1 : 0 < EPS12) by reflexivity.
  assert (H2 : 0 < 1) by reflexivity.
  assert (H3 : (2 <= 4)%Z) by discriminate.
  assert (H4 : ray_shape ray) by exact I.
  assert (H5 : weights_in_unit ray).
  { repeat constructor; discriminate. }
  assert (H6 : (0 < point_count ray)%nat) by (simpl; lia).
  assert (H7 : (1 < length (point_samples ray 0))%nat) by (simpl; lia).
  split; [exact H1|]. split; [exact H2|]. split; [exact H3|].
  split; [exact H4|]. split; [exact H5|]. split; [exact H6|].
  split; [exact H7|].
  exact (masking_threshold exp_i_unit EPS12 ray 1 4 (Some (0, 0)) false 0 1
                           H1 H2 H3 H4 H5 H6 H7).
Defined.

(** On a bundle of two samples, sample 0 sits at the half width and is
    zeroed, sample 1 sits 0.02 pixel inside and keeps its weight 1. *)
Example masking_threshold_run :
  let ray := RayPoint [sample_at (-3#2) 0 1; sample_at (-148#100) 0 1] in
  let shifts := nth 0 (splatter_shifts EPS12 ray (Some (0, 0))) [] in
  let weights := nth 0 (splatter_weights EPS12 ray 1 4 (Some (0, 0))) [] in
  Qabs (fst (nth 0 shifts vzero)) == window_half_width 1 4
  /\ nth 0 weights 0 == 0
  /\ Qabs (fst (nth 1 shifts vzero)) == window_half_width 1 4 - (2#100) * 1
  /\ nth 1 weights 0 == 1.
Proof. vm_compute. repeat split. Qed.

(** The grid [forward_integral] returns for that bundle holds the weight 1
    of sample 1 alone, spread over the four cells around its index
    (1.5, 2.98); the sample on the edge adds nothing. *)
Example masking_threshold_grid :
  exists g,
    forward_integral exp_i_unit EPS12
      (RayPoint [sample_at (-3#2) 0 1; sample_at (-148#100) 0 1]) 1 4
      (Some (0, 0)) false = Ok (PsfGrid (RealGrid g))
    /\ entry g 1 2 == 1#100 /\ entry g 1 3 == 49#100
    /\ entry g 2 2 == 1#100 /\ entry g 2 3 == 49#100
    /\ grid_sum g == 1.
Proof.
  eexists. split; [vm_compute; reflexivity|].
  vm_compute. repeat split.
Qed.

(** * [psfnet_arch.py] *)

(** ** The position grid *)

Lemma linspace_length (a b : Q) (n : nat) : length (linspace a b n) = n.
Proof.
  destruct n as [|[|n]]; simpl; auto.
  now rewrite length_map, length_seq.
Qed.

Lemma linspace_nth (a b : Q) (n i : nat) :
  (i < n)%nat ->
  nth i (linspace a b n) 0
  = if (n =? 1)%nat then a
    else a + inject_Z (Z.of_nat i)
             * ((b - a) / inject_Z (Z.of_nat n - 1)).
Proof.
  intros Hi. destruct n as [|[|n]]; [lia | |].
  - now replace i with 0%nat by lia.
  - cbn [linspace Nat.eqb].
    set (f := fun k : nat => a + inject_Z (Z.of_nat k) * _).
    rewrite (nth_indep _ 0 (f 0%nat)) by (now rewrite length_map, length_seq).
    rewrite (map_nth f). now rewrite seq_nth.
Qed.

Lemma inject_Z_nat_le (i n : nat) :
  (i <= n)%nat -> inject_Z (Z.of_nat i) <= inject_Z (Z.of_nat n).
Proof. intros H. rewrite <- Zle_Qle. lia. Qed.

(** Every point of [linspace(-1, 1, steps)] lies in [-1, 1]. *)
Lemma linspace_unit_bounds (n i : nat) :
  (i < n)%nat ->
  -1 <= nth i (linspace (-1) 1 n) 0 /\ nth i (linspace (-1) 1 n) 0 <= 1.
Proof.
  intros Hi. rewrite linspace_nth by assumption.
  destruct (Nat.eqb_spec n 1) as [-> | Hn]; [split; discriminate|].
  assert (Hm : (i <= n - 1)%nat) by lia.
  apply inject_Z_nat_le in Hm.
  assert (H0 : 0 <= inject_Z (Z.of_nat i))
    by (change 0 with (inject_Z 0); rewrite <- Zle_Qle; lia).
  assert (Hpos : 0 < inject_Z (Z.of_nat n - 1))
    by (change 0 with (inject_Z 0); rewrite <- Zlt_Qlt; lia).
  replace (Z.of_nat (n - 1)) with (Z.of_nat n - 1)%Z in Hm by lia.
  revert Hm H0 Hpos.
  generalize (inject_Z (Z.of_nat i)) as k, (inject_Z (Z.of_nat n - 1)) as m.
  intros k m Hm H0 Hpos.
  setoid_replace (-1 + k * ((1 - -1) / m)) with (-1 + (2 * k) / m)
    by (field; lra).
  assert (0 <= 2 * k / m) by (apply Qle_shift_div_l; lra).
  assert (2 * k / m <= 2) by (apply Qle_shift_div_r; lra).
  split; lra.
Qed.

Lemma nth_concat_uniform {A : Type} (w : nat) (d : A) (rows : list (list A)) :
  Forall (fun row => length row = w) rows ->
  forall i j, (i < length rows)%nat -> (j < w)%nat ->
              nth (i * w + j) (concat rows) d = nth j (nth i rows []) d.
Proof.
  induction 1 as [|row rows Hrow _ IH]; intros i j Hi Hj; simpl in *;
    [lia|].
  destruct i as [|i].
  - simpl. rewrite app_nth1 by lia. reflexivity.
  - rewrite app_nth2 by (rewrite Hrow; simpl; lia).
    replace (S i * w + j - length row)%nat with (i * w + j)%nat
      by (rewrite Hrow; simpl; lia).
    apply IH; lia.
Qed.

Lemma concat_uniform_length {A : Type} (w : nat) (rows : list (list A)) :
  Forall (fun row => length row = w) rows ->
  length (concat rows) = (length rows * w)%nat.
Proof.
  induction 1 as [|row rows Hrow _ IH]; simpl; auto.
  rewrite length_app, IH, Hrow. reflexivity.
Qed.

(** X16. The position grid of [ModulateSiren] (lines 225-227).  It holds
    [image_height * image_width] points; the point at index [i * width + j]
    is (y_i, x_j), the row coordinate first, where y_i is point [i] of
    [linspace(-1, 1, image_height)] and x_j point [j] of
    [linspace(-1, 1, image_width)]; both coordinates lie in [-1, 1], and a
    side of a single pixel has the coordinate -1, not 0. *)
Theorem position_grid_layout (image_height image_width i j : nat) :
  (i < image_height)%nat -> (j < image_width)%nat ->
  let p := nth (i * image_width + j)
               (position_grid image_height image_width) vzero in
  length (position_grid image_height image_width)
  = (image_height * image_width)%nat
  /\ p = (nth i (linspace (-1) 1 image_height) 0,
          nth j (linspace (-1) 1 image_width) 0)
  /\ fst p = (if (image_height =? 1)%nat then -1
              else -1 + inject_Z (Z.of_nat i)
                        * ((1 - -1) / inject_Z (Z.of_nat image_height - 1)))
  /\ snd p = (if (image_width =? 1)%nat then -1
              else -1 + inject_Z (Z.of_nat j)
                        * ((1 - -1) / inject_Z (Z.of_nat image_width - 1)))
  /\ -1 <= fst p /\ fst p <= 1 /\ -1 <= snd p /\ snd p <= 1.
Proof.
  intros Hi Hj p.
  set (rows := map (fun y => map (fun x => (y, x))
                                 (linspace (-1) 1 image_width))
                   (linspace (-1) 1 image_height)).
  assert (Hrows : Forall (fun row => length row = image_width) rows).
  { apply Forall_map, Forall_forall. intros y _.
    now rewrite length_map, linspace_length. }
  assert (Hlen : length rows = image_height)
    by (unfold rows; now rewrite length_map, linspace_length).
  assert (Hp : p = (nth i (linspace (-1) 1 image_height) 0,
                    nth j (linspace (-1) 1 image_width) 0)).
  { assert (Hi' : (i < length rows)%nat) by (rewrite Hlen; exact Hi).
    transitivity (nth j (nth i rows []) vzero);
      [exact (nth_concat_uniform image_width vzero rows Hrows i j Hi' Hj)|].
    unfold rows.
    set (f := fun y : Q => map (fun x : Q => (y, x))
                               (linspace (-1) 1 image_width)).
    rewrite (nth_indep _ [] (f 0))
      by (now rewrite length_map, linspace_length).
    rewrite (map_nth f). unfold f.
    set (y := nth i (linspace (-1) 1 image_height) 0).
    rewrite (nth_indep _ vzero (y, 0))
      by (now rewrite length_map, linspace_length).
    apply (map_nth (fun x : Q => (y, x))). }
  split.
  { transitivity (length rows * image_width)%nat;
      [exact (concat_uniform_length image_width rows Hrows)|].
    now rewrite Hlen. }
  split; [exact Hp|]. rewrite Hp. cbn [fst snd].
  split; [now apply linspace_nth|]. split; [now apply linspace_nth|].
  destruct (linspace_unit_bounds image_height i Hi).
  destruct (linspace_unit_bounds image_width j Hj).
  auto.
Qed.

Lemma position_grid_layout_witness :
  let p := nth (1 * 3 + 2) (position_grid 2 3) vzero in
  (1 < 2)%nat /\ (2 < 3)%nat
  /\ length (position_grid 2 3) = (2 * 3)%nat
  /\ p = (nth 1 (linspace (-1) 1 2) 0, nth 2 (linspace (-1) 1 3) 0)
  /\ fst p = (if (2 =? 1)%nat then -1
              else -1 + inject_Z (Z.of_nat 1)
                        * ((1 - -1) / inject_Z (Z.of_nat 2 - 1)))
  /\ snd p = (if (3 =? 1)%nat then -1
              else -1 + inject_Z (Z.of_nat 2)
                        * ((1 - -1) / inject_Z (Z.of_nat 3 - 1)))
  /\ -1 <= fst p /\ fst p <= 1 /\ -1 <= snd p /\ snd p <= 1.
Proof.
  assert (H1 : (1 < 2)%nat) by lia.
  assert (H2 : (2 < 3)%nat) by lia.
  split; [exact H1|]. split; [exact H2|].
  exact (position_grid_layout 2 3 1 2 H1 H2).
Defined.

(** ** The all-linear network *)

Lemma linear_returns (i o : nat) (l : Linear) (x : list Q) :
  linear_shape i o l -> length x = i ->
  exists y, linear l x = Ok y /\ length y = o.
Proof.
  intros (Hi & _ & Hw & _ & Hb) Hx. unfold linear.
  rewrite Hx, Hi, Nat.eqb_refl. eexists; split; [reflexivity|].
  rewrite zipWith_length; congruence.
Qed.

Lemma linear_refuses (i o : nat) (l : Linear) (x : list Q) :
  linear_shape i o l -> length x <> i -> linear l x = Raise RuntimeError.
Proof.
  intros (Hi & _) Hx. unfold linear. rewrite Hi.
  destruct (Nat.eqb_spec (length x) i); [contradiction | reflexivity].
Qed.

Lemma relu_length (x : list Q) : length (relu x) = length x.
Proof. apply length_map. Qed.

Lemma hidden_blocks_returns (h : nat) (ls : list Linear) :
  Forall (linear_shape h h) ls ->
  forall x, length x = h ->
            exists y, hidden_blocks ls x = Ok y /\ length y = h.
Proof.
  induction 1 as [|l ls Hl _ IH]; intros x Hx; simpl.
  - now exists x.
  - destruct (linear_returns h h l x Hl Hx) as (y & -> & Hy). simpl.
    apply IH. now rewrite relu_length.
Qed.

Lemma Qsum_map_div (d : Q) (s : list Q) :
  Qsum (map (fun v => v / d) s) == Qsum s / d.
Proof.
  unfold Qsum, Qdiv. induction s as [|v s IH]; simpl; [ring|].
  rewrite IH. ring.
Qed.

Lemma Qsum_abs_nonneg (s : list Q) :
  Forall (fun v => 0 <= v) s -> Qsum (map Qabs s) == Qsum s.
Proof.
  unfold Qsum. induction 1 as [|v s Hv _ IH]; simpl; [reflexivity|].
  rewrite IH, (Qabs_pos v Hv). reflexivity.
Qed.

Lemma Qsum_member_le (s : list Q) (v : Q) :
  Forall (fun r => 0 <= r) s -> In v s -> v <= Qsum s.
Proof.
  induction 1 as [|r s Hr Hs IH]; intros Hin; [destruct Hin|].
  destruct Hin as [-> | Hin]; unfold Qsum in *; simpl.
  - apply Qsum_nonneg in Hs. unfold Qsum in Hs. lra.
  - specialize (IH Hin). lra.
Qed.

(** [nnF.normalize(., p=1)] on a vector of non-negative entries. *)
Lemma normalize_l1_nonneg (s : list Q) :
  Forall (fun v => 0 <= v) s ->
  length (normalize_l1 s) = length s
  /\ Forall (fun v => 0 <= v /\ v <= 1) (normalize_l1 s)
  /\ Qsum (normalize_l1 s) <= 1
  /\ (normalize_eps <= Qsum s -> Qsum (normalize_l1 s) == 1)
  /\ (Qsum s < normalize_eps ->
      Qsum (normalize_l1 s) == Qsum s / normalize_eps).
Proof.
  intros Hs. unfold normalize_l1.
  set (n := Qsum (map Qabs s)).
  assert (Hn : n == Qsum s) by (apply Qsum_abs_nonneg, Hs).
  assert (Heps : 0 < normalize_eps) by reflexivity.
  set (den := if Qle_bool normalize_eps n then n else normalize_eps).
  assert (Hden : 0 < den /\ Qsum s <= den
                 /\ (normalize_eps <= Qsum s -> den == Qsum s)
                 /\ (Qsum s < normalize_eps -> den == normalize_eps)).
  { unfold den. destruct (Qle_bool normalize_eps n) eqn:E.
    - apply Qle_bool_iff in E.
      split; [lra|]. split; [lra|]. split; intros; lra.
    - assert (~ normalize_eps <= n)
        by (intros H; apply Qle_bool_iff in H; congruence).
      split; [lra|]. split; [lra|]. split; intros; lra. }
  clearbody den. destruct Hden as (Hpos & Hle & Hbig & Hsmall).
  split; [apply length_map|].
  split.
  { apply Forall_map, Forall_forall. intros v Hv.
    pose proof (proj1 (Forall_forall _ _) Hs v Hv) as Hv0.
    cbv beta in Hv0.
    pose proof (Qsum_member_le s v Hs Hv) as Hv1.
    split.
    - apply Qle_shift_div_l; lra.
    - apply Qle_shift_div_r; lra. }
  rewrite Qsum_map_div.
  split; [apply Qle_shift_div_r; lra|].
  split.
  - intros H. rewrite (Hbig H). field.
    apply Qsum_nonneg in Hs. lra.
  - intros H. rewrite (Hsmall H). reflexivity.
Qed.

Lemma hard_sigmoid_unit (v : Q) : 0 <= hard_sigmoid v /\ hard_sigmoid v <= 1.
Proof.
  unfold hard_sigmoid.
  destruct (Qle_bool v (-2)) eqn:E1; [split; discriminate|].
  destruct (Qle_bool 2 v) eqn:E2; [split; discriminate|].
  assert (Hlo : ~ v <= -2)
    by (intros H; apply Qle_bool_iff in H; congruence).
  assert (Hhi : ~ 2 <= v)
    by (intros H; apply Qle_bool_iff in H; congruence).
  split; lra.
Qed.

Lemma mlp_net_returns (sigmoid : Q -> Q)
      (in_f out_f hidden_features hidden_layers : nat) (m : MLP)
      (x : list Q) :
  mlp_shape in_f out_f hidden_features hidden_layers m ->
  length x = in_f ->
  exists s, length s = out_f /\ mlp_net sigmoid m x = Ok (map sigmoid s).
Proof.
  intros (H1 & H2 & _ & H3 & H4) Hx. unfold mlp_net.
  destruct (linear_returns _ _ _ x H1 Hx) as (x1 & -> & L1). simpl.
  destruct (linear_returns _ _ _ (relu x1) H2) as (x2 & -> & L2);
    [now rewrite relu_length|]. simpl.
  destruct (hidden_blocks_returns _ _ H3 (relu x2)) as (x3 & -> & L3);
    [now rewrite relu_length|]. simpl.
  destruct (linear_returns _ _ _ x3 H4 L3) as (x4 & -> & L4).
  exists x4. simpl. auto.
Qed.

(** X17. [MLP.forward] (lines 44-47) on a 1-D input of [in_features] entries, for
    a sigmoid with values in [0, 1]: the network returns [out_features]
    values, each in [0, 1], whose sum is at most 1; the sum is 1 as soon as
    the sigmoid outputs add up to at least the [eps = 1e-12] of
    [nnF.normalize], and is their sum divided by [eps] below that. *)
Theorem mlp_forward_is_distribution (sigmoid : Q -> Q)
        (in_f out_f hidden_features hidden_layers : nat) (m : MLP)
        (x : list Q) :
  (forall v, 0 <= sigmoid v /\ sigmoid v <= 1) ->
  mlp_shape in_f out_f hidden_features hidden_layers m ->
  length x = in_f ->
  exists s y,
    mlp_net sigmoid m x = Ok s
    /\ mlp_forward sigmoid m x = Ok y
    /\ length y = out_f
    /\ Forall (fun v => 0 <= v /\ v <= 1) y
    /\ Qsum y <= 1
    /\ (normalize_eps <= Qsum s -> Qsum y == 1)
    /\ (Qsum s < normalize_eps -> Qsum y == Qsum s / normalize_eps).
Proof.
  intros Hsig Hm Hx.
  destruct (mlp_net_returns sigmoid _ _ _ _ m x Hm Hx)
    as (s & Ls & E).
  assert (Hs : Forall (fun v => 0 <= v) (map sigmoid s)).
  { apply Forall_map, Forall_forall. intros v _. apply Hsig. }
  destruct (normalize_l1_nonneg _ Hs) as (Ly & Hy & Hsum & Hbig & Hsmall).
  exists (map sigmoid s), (normalize_l1 (map sigmoid s)).
  split; [exact E|]. split; [unfold mlp_forward; now rewrite E|].
  split; [now rewrite Ly, length_map|]. auto.
Qed.

Lemma small_mlp_shape : mlp_shape 2 2 4 1 small_mlp.
Proof.
  unfold mlp_shape, linear_shape, small_mlp. cbn.
  repeat (split; [repeat constructor|]). repeat constructor.
Qed.

Lemma narrow_mlp_shape : mlp_shape 2 2 3 0 narrow_mlp.
Proof.
  unfold mlp_shape, linear_shape, narrow_mlp. cbn.
  repeat (split; [repeat constructor|]). repeat constructor.
Qed.

Lemma mlp_forward_is_distribution_witness :
  (forall v, 0 <= hard_sigmoid v /\ hard_sigmoid v <= 1)
  /\ mlp_shape 2 2 4 1 small_mlp
  /\ length [3; 1] = 2%nat
  /\ exists s y,
      mlp_net hard_sigmoid small_mlp [3; 1] = Ok s
      /\ mlp_forward hard_sigmoid small_mlp [3; 1] = Ok y
      /\ length y = 2%nat
      /\ Forall (fun v => 0 <= v /\ v <= 1) y
      /\ Qsum y <= 1
      /\ (normalize_eps <= Qsum s -> Qsum y == 1)
      /\ (Qsum s < normalize_eps -> Qsum y == Qsum s / normalize_eps).
Proof.
  assert (H1 : forall v, 0 <= hard_sigmoid v /\ hard_sigmoid v <= 1)
    by exact hard_sigmoid_unit.
  assert (H2 : mlp_shape 2 2 4 1 small_mlp) by exact small_mlp_shape.
  assert (H3 : length [3; 1] = 2%nat) by reflexivity.
  split; [exact H1|]. split; [exact H2|]. split; [exact H3|].
  exact (mlp_forward_is_distribution hard_sigmoid 2 2 4 1 small_mlp [3; 1]
                                     H1 H2 H3).
Defined.

(** X18. [MLP.forward] accepts exactly the 1-D inputs of [in_features] entries:
    any other length is refused by the first [Linear] with a RuntimeError,
    whatever the weights. *)
Theorem mlp_forward_input_width (sigmoid : Q -> Q)
        (in_f out_f hidden_features hidden_layers : nat) (m : MLP)
        (x : list Q) :
  mlp_shape in_f out_f hidden_features hidden_layers m ->
  (length x = in_f <-> exists y, mlp_forward sigmoid m x = Ok y)
  /\ (length x <> in_f -> mlp_forward sigmoid m x = Raise RuntimeError).
Proof.
  intros Hm.
  assert (Hbad : length x <> in_f ->
                 mlp_forward sigmoid m x = Raise RuntimeError).
  { intros Hx. destruct Hm as (H1 & _). unfold mlp_forward, mlp_net.
    now rewrite (linear_refuses _ _ _ x H1 Hx). }
  split; [|exact Hbad]. split.
  - intros Hx.
    destruct (mlp_net_returns sigmoid _ _ _ _ m x Hm Hx)
      as (s & _ & E).
    unfold mlp_forward. rewrite E. simpl. eauto.
  - intros (y & E). destruct (Nat.eq_dec (length x) in_f) as [|Hx]; auto.
    rewrite (Hbad Hx) in E. discriminate.
Qed.

Lemma mlp_forward_input_width_witness :
  mlp_shape 2 2 4 1 small_mlp
  /\ (length [3; 1; 0] = 2%nat
      <-> exists y, mlp_forward hard_sigmoid small_mlp [3; 1; 0] = Ok y)
  /\ (length [3; 1; 0] <> 2%nat ->
      mlp_forward hard_sigmoid small_mlp [3; 1; 0] = Raise RuntimeError).
Proof.
  assert (H1 : mlp_shape 2 2 4 1 small_mlp) by exact small_mlp_shape.
  split; [exact H1|].
  exact (mlp_forward_input_width hard_sigmoid 2 2 4 1 small_mlp [3; 1; 0]
                                 H1).
Defined.

(** X19. The first hidden width is [hidden_features // 4] (line 31): with
    [hidden_features < 4] it is 0, the first [Linear] returns the empty
    vector and the output of [MLP.forward] no longer depends on the
    input. *)
Theorem mlp_narrow_bottleneck_ignores_input (sigmoid : Q -> Q)
        (in_f out_f hidden_features hidden_layers : nat) (m : MLP)
        (x x' : list Q) :
  (hidden_features < 4)%nat ->
  mlp_shape in_f out_f hidden_features hidden_layers m ->
  length x = in_f -> length x' = in_f ->
  linear (layer_in m) x = Ok []
  /\ mlp_forward sigmoid m x = mlp_forward sigmoid m x'.
Proof.
  intros Hh (H1 & _) Hx Hx'.
  assert (Hin : forall z, length z = in_f -> linear (layer_in m) z = Ok []).
  { intros z Hz. destruct H1 as (Hi & _ & Hw & _).
    unfold linear. rewrite Hz, Hi, Nat.eqb_refl.
    rewrite (Nat.div_small hidden_features 4 Hh) in Hw.
    destruct (weight (layer_in m)); [reflexivity | discriminate]. }
  split; [now apply Hin|].
  unfold mlp_forward, mlp_net. now rewrite (Hin x Hx), (Hin x' Hx').
Qed.

Lemma mlp_narrow_bottleneck_ignores_input_witness :
  (3 < 4)%nat
  /\ mlp_shape 2 2 3 0 narrow_mlp
  /\ length [3; 1] = 2%nat /\ length [-5; 7] = 2%nat
  /\ linear (layer_in narrow_mlp) [3; 1] = Ok []
  /\ mlp_forward hard_sigmoid narrow_mlp [3; 1]
     = mlp_forward hard_sigmoid narrow_mlp [-5; 7].
Proof.
  assert (H1 : (3 < 4)%nat) by lia.
  assert (H2 : mlp_shape 2 2 3 0 narrow_mlp) by exact narrow_mlp_shape.
  assert (H3 : length [3; 1] = 2%nat) by reflexivity.
  assert (H4 : length [-5; 7] = 2%nat) by reflexivity.
  split; [exact H1|]. split; [exact H2|]. split; [exact H3|].
  split; [exact H4|].
  exact (mlp_narrow_bottleneck_ignores_input hard_sigmoid 2 2 3 0
           narrow_mlp [3; 1] [-5; 7] H1 H2 H3 H4).
Defined.

(** ** Shapes through [MLPConv] *)

Section ShapeFacts.
Local Open Scope Z_scope.

Lemma Linear_fwd_last (i o : Z) (lead : shape) :
  Linear_fwd i o (lead ++ [i]) = Ok (lead ++ [o]).
Proof.
  unfold Linear_fwd. rewrite rev_app_distr. simpl.
  now rewrite Z.eqb_refl, rev_involutive.
Qed.

Lemma Linear_fwd_raises (i o : Z) (s : shape) (e : exn) :
  Linear_fwd i o s = Raise e -> e = RuntimeError.
Proof.
  unfold Linear_fwd. destruct (rev s) as [|d lead]; [congruence|].
  destruct (d =? i); congruence.
Qed.

Lemma Linear_fwd_mismatch (i o d : Z) (lead : shape) :
  d <> i -> Linear_fwd i o (lead ++ [d]) = Raise RuntimeError.
Proof.
  intros H. unfold Linear_fwd. rewrite rev_app_distr. simpl.
  destruct (Z.eqb_spec d i); [contradiction | reflexivity].
Qed.

Lemma numel_app (a b : shape) : numel (a ++ b) = numel a * numel b.
Proof.
  unfold numel. induction a as [|x a IH]; simpl.
  - now destruct (fold_right Z.mul 1 b).
  - rewrite IH. ring.
Qed.

Lemma conv_keeps_size (h : Z) : conv_transpose_size h 3 1 1 = h.
Proof. unfold conv_transpose_size. lia. Qed.

Lemma ConvTranspose2d_same (cin cout n h w : Z) :
  ConvTranspose2d cin cout 3 1 1 (n, cin, h, w) = Ok (n, cout, h, w).
Proof.
  unfold ConvTranspose2d. now rewrite Z.eqb_refl, !conv_keeps_size.
Qed.

(** The decoder keeps the batch and the channels and multiplies both sides
    by 4. *)
Lemma MLPConv_decoder_shape (m : MLPConv) (n h w : Z) :
  MLPConv_decoder m (n, Z.of_nat (mc_channels m), h, w)
  = Ok (n, Z.of_nat (mc_channels m), h * 2 * 2, w * 2 * 2).
Proof.
  unfold MLPConv_decoder.
  repeat (rewrite ConvTranspose2d_same; cbn [bind Upsample]).
  reflexivity.
Qed.

Lemma MLPConv_encoder_shape (m : MLPConv) (lead : shape) :
  MLPConv_encoder m (lead ++ [Z.of_nat (mc_in_features m)])
  = Ok (lead ++ [linear_output m]).
Proof.
  unfold MLPConv_encoder.
  rewrite Linear_fwd_last. cbn [bind].
  rewrite Linear_fwd_last. cbn [bind].
  rewrite Linear_fwd_last. cbn [bind].
  apply Linear_fwd_last.
Qed.

Lemma MLPConv_encoder_raises (m : MLPConv) (x : shape) (e : exn) :
  MLPConv_encoder m x = Raise e -> e = RuntimeError.
Proof.
  unfold MLPConv_encoder.
  destruct (Linear_fwd _ 256 x) as [e1|e1'] eqn:E1;
    [|cbn [bind]; intros [= <-]; eapply Linear_fwd_raises; eauto].
  cbn [bind].
  destruct (Linear_fwd 256 256 e1) as [e2|e2'] eqn:E2;
    [|cbn [bind]; intros [= <-]; eapply Linear_fwd_raises; eauto].
  cbn [bind].
  destruct (Linear_fwd 256 512 e2) as [e3|e3'] eqn:E3;
    [|cbn [bind]; intros [= <-]; eapply Linear_fwd_raises; eauto].
  cbn [bind]. apply Linear_fwd_raises.
Qed.

Lemma view_batch_negative (s : shape) (c h : Z) :
  h <= 0 -> view_batch s c h h = Raise RuntimeError.
Proof.
  intros Hh. unfold view_batch.
  destruct (Z.ltb_spec c 0); [reflexivity|].
  destruct (Z.ltb_spec h 0); [reflexivity|]. cbn [orb].
  replace h with 0 by lia. now rewrite Z.mul_0_r.
Qed.

(** X20. [MLPConv.forward] on an input whose last size is [in_features], for a
    positive kernel size that passed the assertion and at least one
    channel: the leading sizes are flattened into one batch axis and the
    result has the shape [batch, channels, ks, ks]; the decoder's factor 4
    undoes the [ks // 4] of the constructor. *)
Theorem MLPConv_output_shape (in_features : nat) (ks : Z) (channels : nat)
        (m : MLPConv) (lead : shape) :
  MLPConv_init in_features ks channels = Some m ->
  0 < ks -> (0 < channels)%nat -> Forall (fun d => 0 < d) lead ->
  ks mod 4 = 0
  /\ MLPConv_forward m (lead ++ [Z.of_nat in_features])
     = Ok [numel lead; Z.of_nat channels; ks; ks].
Proof.
  intros Hm Hks Hch _. unfold MLPConv_init in Hm.
  destruct (Z.eqb_spec (ks mod 4) 0) as [H4|]; [|discriminate].
  injection Hm as <-. split; [exact H4|].
  assert (Hk : ks = 4 * (ks / 4)) by (apply Z.div_exact; lia).
  assert (Hq : 0 < ks / 4) by lia.
  unfold MLPConv_forward.
  rewrite (MLPConv_encoder_shape (mkMLPConv in_features (ks / 4) ks channels)).
  cbn [bind mc_channels ks_mlp mc_in_features].
  unfold linear_output. cbn [mc_channels ks_mlp].
  set (q := ks / 4) in *. set (c := Z.of_nat channels).
  assert (Hc : 0 < c) by (unfold c; lia).
  unfold view_batch.
  destruct (Z.ltb_spec c 0); [lia|].
  destruct (Z.ltb_spec q 0); [lia|]. cbn [orb].
  rewrite numel_app.
  replace (numel [c * q ^ 2]) with (c * q * q)
    by (unfold numel; simpl fold_right; nia).
  assert (Hn : c * q * q <> 0) by nia.
  destruct (Z.eqb_spec (c * q * q) 0); [contradiction|].
  rewrite Z.mod_mul by assumption. rewrite Z.eqb_refl.
  rewrite Z.div_mul by assumption. cbn [bind].
  pose proof (MLPConv_decoder_shape
                (mkMLPConv in_features q ks channels) (numel lead) q q)
    as Hd.
  cbn [mc_channels] in Hd. fold c in Hd. rewrite Hd. cbn [bind].
  replace (q * 2 * 2) with ks by lia. reflexivity.
Qed.

Lemma MLPConv_output_shape_witness :
  MLPConv_init 3 8 1 = Some (mkMLPConv 3 2 8 1)
  /\ 0 < 8 /\ (0 < 1)%nat /\ Forall (fun d => 0 < d) [5; 7]
  /\ 8 mod 4 = 0
  /\ MLPConv_forward (mkMLPConv 3 2 8 1) ([5; 7] ++ [Z.of_nat 3])
     = Ok [numel [5; 7]; Z.of_nat 1; 8; 8].
Proof.
  assert (H1 : MLPConv_init 3 8 1 = Some (mkMLPConv 3 2 8 1))
    by reflexivity.
  assert (H2 : 0 < 8) by lia.
  assert (H3 : (0 < 1)%nat) by lia.
  assert (H4 : Forall (fun d => 0 < d) [5; 7])
    by (repeat constructor).
  split; [exact H1|]. split; [exact H2|]. split; [exact H3|].
  split; [exact H4|].
  exact (MLPConv_output_shape 3 8 1 (mkMLPConv 3 2 8 1) [5; 7]
                              H1 H2 H3 H4).
Defined.

(** X21. The assertion of the constructor lets the kernel sizes 0, -4, -8, ...
    through; [forward] then fails for every input, at the [view] at the
    latest: [ks // 4] is zero or negative. *)
Theorem MLPConv_nonpositive_ks_fails (in_features : nat) (ks : Z)
        (channels : nat) (m : MLPConv) (x : shape) :
  MLPConv_init in_features ks channels = Some m ->
  ks <= 0 ->
  MLPConv_forward m x = Raise RuntimeError.
Proof.
  intros Hm Hks. unfold MLPConv_init in Hm.
  destruct (Z.eqb_spec (ks mod 4) 0) as [H4|]; [|discriminate].
  injection Hm as <-.
  assert (Hq : ks / 4 <= 0) by (apply Z.div_le_upper_bound; lia).
  unfold MLPConv_forward.
  destruct (MLPConv_encoder _ x) as [enc|e] eqn:E; cbn [bind].
  - cbn [ks_mlp mc_channels].
    now rewrite (view_batch_negative enc _ (ks / 4) Hq).
  - now rewrite (MLPConv_encoder_raises _ x e E).
Qed.

Lemma MLPConv_nonpositive_ks_fails_witness :
  MLPConv_init 3 (-4) 1 = Some (mkMLPConv 3 (-1) (-4) 1)
  /\ -4 <= 0
  /\ MLPConv_forward (mkMLPConv 3 (-1) (-4) 1) [5; 3] = Raise RuntimeError.
Proof.
  assert (H1 : MLPConv_init 3 (-4) 1 = Some (mkMLPConv 3 (-1) (-4) 1))
    by reflexivity.
  assert (H2 : -4 <= 0) by lia.
  split; [exact H1|]. split; [exact H2|].
  exact (MLPConv_nonpositive_ks_fails 3 (-4) 1 (mkMLPConv 3 (-1) (-4) 1)
                                      [5; 3] H1 H2).
Defined.

End ShapeFacts.

(** ** Shapes through [ModulateSiren] *)

Section ModulateSirenFacts.
Local Open Scope Z_scope.

Lemma position_grid_length (h w : nat) :
  length (position_grid h w) = (h * w)%nat.
Proof.
  unfold position_grid.
  rewrite (concat_uniform_length w).
  - now rewrite length_map, linspace_length.
  - apply Forall_map, Forall_forall. intros y _.
    now rewrite length_map, linspace_length.
Qed.

Lemma broadcast_rev_refl (l : list Z) : broadcast_rev l l = Ok l.
Proof.
  induction l as [|x l IH]; simpl; [reflexivity|].
  rewrite IH. cbn [bind]. now rewrite Z.eqb_refl.
Qed.

Lemma broadcast_rev_raises (a b : list Z) (e : exn) :
  broadcast_rev a b = Raise e -> e = RuntimeError.
Proof.
  revert b. induction a as [|x a IH]; intros [|y b]; simpl;
    try congruence.
  destruct (broadcast_rev a b) as [r|e'] eqn:E; cbn [bind].
  - destruct (x =? y); [congruence|].
    destruct (x =? 1); [congruence|].
    destruct (y =? 1); congruence.
  - intros [= <-]. now apply (IH b).
Qed.

(** Broadcasting once more against the same shape changes nothing. *)
Lemma broadcast_rev_idem (a b c : list Z) :
  broadcast_rev a b = Ok c -> broadcast_rev c b = Ok c.
Proof.
  revert b c. induction a as [|x a IH]; intros [|y b] c; simpl.
  - intros [= <-]. reflexivity.
  - intros [= <-]. apply broadcast_rev_refl.
  - intros [= <-]. reflexivity.
  - destruct (broadcast_rev a b) as [r|e] eqn:E; cbn [bind];
      [|discriminate].
    specialize (IH b r E).
    destruct (Z.eqb_spec x y) as [->|Hxy].
    { intros [= <-]. simpl. rewrite IH. cbn [bind].
      now rewrite Z.eqb_refl. }
    destruct (Z.eqb_spec x 1) as [->|Hx].
    { intros [= <-]. simpl. rewrite IH. cbn [bind].
      now rewrite Z.eqb_refl. }
    destruct (Z.eqb_spec y 1) as [->|Hy]; [|discriminate].
    intros [= <-]. simpl. rewrite IH. cbn [bind].
    destruct (Z.eqb_spec x 1); [contradiction | reflexivity].
Qed.

Lemma broadcast_shapes_last (a b : shape) (d : Z) :
  broadcast_shapes (a ++ [d]) (b ++ [d])
  = (r <- broadcast_shapes a b ;; Ok (r ++ [d])).
Proof.
  unfold broadcast_shapes. rewrite !rev_app_distr. simpl.
  destruct (broadcast_rev (rev a) (rev b)) as [r|e]; cbn [bind];
    [|reflexivity].
  now rewrite Z.eqb_refl.
Qed.

Lemma broadcast_shapes_raises (a b : shape) (e : exn) :
  broadcast_shapes a b = Raise e -> e = RuntimeError.
Proof.
  unfold broadcast_shapes.
  destruct (broadcast_rev (rev a) (rev b)) as [r|e'] eqn:E; cbn [bind];
    [discriminate|].
  intros [= <-]. now apply (broadcast_rev_raises _ _ _ E).
Qed.

Lemma broadcast_shapes_steady (a b c : shape) :
  broadcast_shapes a b = Ok c -> broadcast_shapes c b = Ok c.
Proof.
  unfold broadcast_shapes.
  destruct (broadcast_rev (rev a) (rev b)) as [r|e] eqn:E; cbn [bind];
    [|discriminate].
  intros [= <-]. rewrite rev_involutive.
  now rewrite (broadcast_rev_idem _ _ _ E).
Qed.

Lemma numel_rev (s : shape) : numel (rev s) = numel s.
Proof.
  induction s as [|x s IH]; simpl; [reflexivity|].
  rewrite numel_app, IH. unfold numel. simpl. ring.
Qed.

(** A shape broadcast against one row of [n] entries holds a multiple of
    [n] elements. *)
Lemma broadcast_row_divides (n : Z) (b c : shape) :
  broadcast_shapes [n] b = Ok c -> (n | numel c).
Proof.
  unfold broadcast_shapes. simpl rev at 1.
  destruct (rev b) as [|y rb] eqn:Eb; simpl.
  - intros [= <-]. unfold numel. simpl. exists 1. ring.
  - destruct rb as [|z rb]; cbn [bind].
    + destruct (Z.eqb_spec n y) as [->|].
      { intros [= <-]. unfold numel. simpl. exists 1. ring. }
      destruct (Z.eqb_spec n 1) as [->|].
      { intros [= <-]. apply Z.divide_1_l. }
      destruct (Z.eqb_spec y 1) as [->|]; [|discriminate].
      intros [= <-]. unfold numel. simpl. exists 1. ring.
    + assert (Hd : forall h, (n | h) -> (n | numel (rev (h :: z :: rb)))).
      { intros h (k & ->). rewrite numel_rev. unfold numel. simpl.
        exists (k * (z * fold_right Z.mul 1 rb)). ring. }
      destruct (Z.eqb_spec n y) as [->|].
      { intros [= <-]. apply Hd, Z.divide_refl. }
      destruct (Z.eqb_spec n 1) as [->|].
      { intros [= <-]. apply Z.divide_1_l. }
      destruct (Z.eqb_spec y 1) as [->|]; [|discriminate].
      intros [= <-]. apply Hd, Z.divide_refl.
Qed.

Lemma cat_last_same_lead (lead : shape) (a b : Z) :
  cat_last (lead ++ [a]) (lead ++ [b]) = Ok (lead ++ [a + b]).
Proof.
  unfold cat_last. rewrite !rev_app_distr. simpl.
  destruct (list_eq_dec Z.eq_dec (lead ++ [a]) [0]) as [E|_].
  { destruct lead as [|x [|y lead]]; try discriminate.
    injection E as ->. reflexivity. }
  destruct (list_eq_dec Z.eq_dec (lead ++ [b]) [0]) as [E|_].
  { destruct lead as [|x [|y lead]]; try discriminate.
    injection E as ->. simpl. now rewrite Z.add_0_r. }
  destruct (list_eq_dec Z.eq_dec (rev lead) (rev lead)) as [_|N];
    [|contradiction].
  now rewrite rev_involutive.
Qed.

(** After the first layer the shapes of [x] and [z] no longer change. *)
Lemma modulated_layers_steady (m : ModulateSiren) (lead bs : shape)
      (n : nat) :
  broadcast_shapes bs lead = Ok bs ->
  modulated_layers m (lead ++ [dim_latent m]) false n
                   (bs ++ [dim_hidden m]) (lead ++ [dim_hidden m])
  = Ok (bs ++ [dim_hidden m]).
Proof.
  intros Hb. induction n as [|n IH]; [reflexivity|].
  cbn [modulated_layers].
  rewrite cat_last_same_lead. cbn [bind].
  rewrite (Z.add_comm (dim_latent m)), Linear_fwd_last. cbn [bind].
  rewrite Linear_fwd_last. cbn [bind].
  rewrite broadcast_shapes_last, Hb. cbn [bind].
  exact IH.
Qed.

(** The result of [ModulateSiren.forward] for a latent code of shape
    [lead ++ [dim_latent]]. *)
Lemma ModulateSiren_forward_shape (m : ModulateSiren) (lead : shape) :
  dim_in m = 2 -> (1 <= num_layers m)%nat ->
  (0 < image_height m * image_width m)%nat ->
  ModulateSiren_forward m (lead ++ [dim_latent m])
  = match broadcast_shapes
            [Z.of_nat (image_height m * image_width m)] lead with
    | Ok bs =>
        Ok [numel bs * dim_out m
            / Z.of_nat (image_height m * image_width m);
            1; Z.of_nat (image_height m); Z.of_nat (image_width m)]
    | Raise _ => Raise RuntimeError
    end.
Proof.
  intros Hin Hn Hhw. unfold ModulateSiren_forward, grid_buffer_shape.
  rewrite position_grid_length.
  set (hw := Z.of_nat (image_height m * image_width m)).
  destruct (num_layers m) as [|n]; [lia|].
  cbn [modulated_layers].
  cbn [bind]. rewrite Linear_fwd_last. cbn [bind].
  rewrite Hin.
  change [hw; 2] with ([hw] ++ [2]).
  rewrite Linear_fwd_last. cbn [bind].
  rewrite broadcast_shapes_last.
  destruct (broadcast_shapes [hw] lead) as [bs|e] eqn:E; cbn [bind];
    [|now rewrite (broadcast_shapes_raises _ _ _ E)].
  rewrite (modulated_layers_steady m lead bs n
             (broadcast_shapes_steady _ _ _ E)).
  cbn [bind]. rewrite Linear_fwd_last. cbn [bind].
  unfold view_batch.
  destruct (Z.ltb_spec (Z.of_nat (image_height m)) 0); [lia|].
  destruct (Z.ltb_spec (Z.of_nat (image_width m)) 0); [lia|].
  cbn [orb]. change (1 <? 0) with false. cbn [orb].
  replace (Z.of_nat (image_height m) * Z.of_nat (image_width m) * 1)
    with hw by (unfold hw; lia).
  destruct (Z.eqb_spec hw 0); [unfold hw in *; lia|].
  rewrite numel_app.
  replace (numel [dim_out m]) with (dim_out m)
    by (unfold numel; simpl; lia).
  destruct (broadcast_row_divides hw lead bs E) as (k & Hk).
  rewrite Hk.
  replace (k * hw * dim_out m) with (k * dim_out m * hw) by ring.
  rewrite Z.mod_mul by assumption. rewrite Z.eqb_refl. cbn [bind].
  reflexivity.
Qed.

Lemma broadcast_row_unit (n : Z) (lead : shape) :
  broadcast_shapes [n] (lead ++ [1]) = Ok (lead ++ [n]).
Proof.
  unfold broadcast_shapes. rewrite rev_app_distr. simpl.
  destruct (rev lead) as [|y r] eqn:E; cbn [bind].
  - apply (f_equal (@rev Z)) in E. rewrite rev_involutive in E.
    subst lead.
    destruct (Z.eqb_spec n 1) as [->|]; reflexivity.
  - rewrite <- E.
    destruct (Z.eqb_spec n 1) as [->|]; simpl;
      now rewrite rev_involutive.
Qed.

Lemma broadcast_row_refused (n b : Z) (lead : shape) :
  b <> 1 -> b <> n -> n <> 1 ->
  broadcast_shapes [n] (lead ++ [b]) = Raise RuntimeError.
Proof.
  intros H1 H2 H3. unfold broadcast_shapes. rewrite rev_app_distr.
  simpl.
  assert (Hr : forall r : list Z,
             (if n =? b then Ok (n :: r)
              else if n =? 1 then Ok (b :: r)
                   else if b =? 1 then Ok (n :: r)
                        else Raise RuntimeError)
             = @Raise (list Z) RuntimeError).
  { intros r.
    destruct (Z.eqb_spec n b); [congruence|].
    destruct (Z.eqb_spec n 1); [congruence|].
    destruct (Z.eqb_spec b 1); [congruence | reflexivity]. }
  destruct (rev lead) as [|y r]; cbn [bind]; now rewrite Hr.
Qed.

(** X22. [ModulateSiren.forward] for the latent codes it is written for, with
    [dim_in = 2] (the grid holds two coordinates per position), at least
    one layer and a non-empty image.  A 1-D code of [dim_latent] entries
    gives the shape [dim_out, 1, H, W]; a code of shape
    [..., 1, dim_latent] gives [B * dim_out, 1, H, W] with [B] the product
    of the leading sizes.  The channel axis always has size 1: the
    [dim_out] outputs per position end up on the batch axis. *)
Theorem ModulateSiren_output_shape (m : ModulateSiren) (lead : shape) :
  dim_in m = 2 -> (1 <= num_layers m)%nat ->
  (0 < image_height m * image_width m)%nat ->
  ModulateSiren_forward m [dim_latent m]
  = Ok [dim_out m; 1; Z.of_nat (image_height m); Z.of_nat (image_width m)]
  /\ ModulateSiren_forward m (lead ++ [1; dim_latent m])
     = Ok [numel lead * dim_out m; 1;
           Z.of_nat (image_height m); Z.of_nat (image_width m)].
Proof.
  intros Hin Hn Hhw.
  set (hw := Z.of_nat (image_height m * image_width m)).
  assert (H0 : hw <> 0) by (unfold hw; lia).
  split.
  - change [dim_latent m] with ([] ++ [dim_latent m]).
    rewrite (ModulateSiren_forward_shape m [] Hin Hn Hhw).
    fold hw. unfold broadcast_shapes. cbn [rev app broadcast_rev bind].
    f_equal. f_equal. unfold numel. cbn [fold_right].
    replace (hw * 1 * dim_out m) with (dim_out m * hw) by ring.
    now apply Z.div_mul.
  - replace (lead ++ [1; dim_latent m])
      with ((lead ++ [1]) ++ [dim_latent m])
      by (now rewrite <- app_assoc).
    rewrite (ModulateSiren_forward_shape m (lead ++ [1]) Hin Hn Hhw).
    fold hw. rewrite broadcast_row_unit. f_equal. f_equal.
    rewrite numel_app.
    replace (numel [hw]) with hw by (unfold numel; simpl; lia).
    replace (numel lead * hw * dim_out m)
      with (numel lead * dim_out m * hw) by ring.
    now apply Z.div_mul.
Qed.

Lemma ModulateSiren_output_shape_witness :
  dim_in (mkModulateSiren 2 8 1 4 3 3 2) = 2
  /\ (1 <= num_layers (mkModulateSiren 2 8 1 4 3 3 2))%nat
  /\ (0 < image_height (mkModulateSiren 2 8 1 4 3 3 2)
          * image_width (mkModulateSiren 2 8 1 4 3 3 2))%nat
  /\ ModulateSiren_forward (mkModulateSiren 2 8 1 4 3 3 2) [4]
     = Ok [1; 1; 2; 3]
  /\ ModulateSiren_forward (mkModulateSiren 2 8 1 4 3 3 2) ([5] ++ [1; 4])
     = Ok [numel [5] * 1; 1; 2; 3].
Proof.
  assert (H1 : dim_in (mkModulateSiren 2 8 1 4 3 3 2) = 2) by reflexivity.
  assert (H2 : (1 <= num_layers (mkModulateSiren 2 8 1 4 3 3 2))%nat)
    by (simpl; lia).
  assert (H3 : (0 < image_height (mkModulateSiren 2 8 1 4 3 3 2)
                   * image_width (mkModulateSiren 2 8 1 4 3 3 2))%nat)
    by (simpl; lia).
  split; [exact H1|]. split; [exact H2|]. split; [exact H3|].
  exact (ModulateSiren_output_shape (mkModulateSiren 2 8 1 4 3 3 2) [5]
                                    H1 H2 H3).
Defined.

(** X23. A batch of [B] latent codes given as a 2-D tensor [B, dim_latent] is
    refused unless [B] is 1 or the number of pixels: the modulation
    [x * z] multiplies a tensor with one row per pixel by one with one row
    per code. *)
Theorem ModulateSiren_batched_latent_refused (m : ModulateSiren)
        (lead : shape) (B : Z) :
  dim_in m = 2 -> (1 <= num_layers m)%nat ->
  (1 < image_height m * image_width m)%nat ->
  B <> 1 -> B <> Z.of_nat (image_height m * image_width m) ->
  ModulateSiren_forward m (lead ++ [B; dim_latent m])
  = Raise RuntimeError.
Proof.
  intros Hin Hn Hhw HB1 HB2.
  replace (lead ++ [B; dim_latent m])
    with ((lead ++ [B]) ++ [dim_latent m])
    by (now rewrite <- app_assoc).
  rewrite (ModulateSiren_forward_shape m (lead ++ [B]) Hin Hn)
    by lia.
  rewrite broadcast_row_refused; auto. lia.
Qed.

Lemma ModulateSiren_batched_latent_refused_witness :
  dim_in (mkModulateSiren 2 8 1 4 3 3 2) = 2
  /\ (1 <= num_layers (mkModulateSiren 2 8 1 4 3 3 2))%nat
  /\ (1 < image_height (mkModulateSiren 2 8 1 4 3 3 2)
          * image_width (mkModulateSiren 2 8 1 4 3 3 2))%nat
  /\ 5 <> 1
  /\ 5 <> Z.of_nat (image_height (mkModulateSiren 2 8 1 4 3 3 2)
                    * image_width (mkModulateSiren 2 8 1 4 3 3 2))
  /\ ModulateSiren_forward (mkModulateSiren 2 8 1 4 3 3 2) ([] ++ [5; 4])
     = Raise RuntimeError.
Proof.
  assert (H1 : dim_in (mkModulateSiren 2 8 1 4 3 3 2) = 2) by reflexivity.
  assert (H2 : (1 <= num_layers (mkModulateSiren 2 8 1 4 3 3 2))%nat)
    by (simpl; lia).
  assert (H3 : (1 < image_height (mkModulateSiren 2 8 1 4 3 3 2)
                   * image_width (mkModulateSiren 2 8 1 4 3 3 2))%nat)
    by (simpl; lia).
  assert (H4 : 5 <> 1) by lia.
  assert (H5 : 5 <> Z.of_nat (image_height (mkModulateSiren 2 8 1 4 3 3 2)
                              * image_width (mkModulateSiren 2 8 1 4 3 3 2)))
    by (simpl; lia).
  split; [exact H1|]. split; [exact H2|]. split; [exact H3|].
  split; [exact H4|]. split; [exact H5|].
  exact (ModulateSiren_batched_latent_refused
           (mkModulateSiren 2 8 1 4 3 3 2) [] 5 H1 H2 H3 H4 H5).
Defined.

(** X24. The position grid has two coordinates: a [ModulateSiren] built with
    another [dim_in] and at least one layer fails on every latent code. *)
Theorem ModulateSiren_needs_two_inputs (m : ModulateSiren)
        (latent : shape) :
  dim_in m <> 2 -> (1 <= num_layers m)%nat ->
  ModulateSiren_forward m latent = Raise RuntimeError.
Proof.
  intros Hin Hn. unfold ModulateSiren_forward, grid_buffer_shape.
  destruct (num_layers m) as [|n]; [lia|].
  cbn [modulated_layers]. cbn [bind].
  destruct (Linear_fwd (dim_latent m) (dim_hidden m) latent)
    as [z|e] eqn:E; cbn [bind].
  - set (hw := Z.of_nat _).
    change [hw; 2] with ([hw] ++ [2]).
    rewrite Linear_fwd_mismatch by congruence. reflexivity.
  - now rewrite (Linear_fwd_raises _ _ _ _ E).
Qed.

Lemma ModulateSiren_needs_two_inputs_witness :
  dim_in (mkModulateSiren 3 8 1 4 3 3 2) <> 2
  /\ (1 <= num_layers (mkModulateSiren 3 8 1 4 3 3 2))%nat
  /\ ModulateSiren_forward (mkModulateSiren 3 8 1 4 3 3 2) [4] = Raise RuntimeError.
Proof.
  assert (H1 : dim_in (mkModulateSiren 3 8 1 4 3 3 2) <> 2) by (simpl; lia).
  assert (H2 : (1 <= num_layers (mkModulateSiren 3 8 1 4 3 3 2))%nat)
    by (simpl; lia).
  split; [exact H1|]. split; [exact H2|].
  exact (ModulateSiren_needs_two_inputs (mkModulateSiren 3 8 1 4 3 3 2) [4]
                                        H1 H2).
Defined.

End ModulateSirenFacts.
